(** * zpp::serializer (serializer.h): a shallow embedding and its properties

    The development follows the header top-down:
    - fixed-width integers and [detail::swap_byte_order], [detail::rotate_left];
    - [make_id], the compile-time SHA-1 based id generator;
    - a reference SHA-1 written from FIPS 180-4, to compare [make_id] with;
    - the memory archives (lazy output, fitting output, view input,
      consuming input);
    - the polymorphic registry and the built-in [serialize] overloads.

    Platform: LP64 (64-bit [std::size_t], 32-bit [size_type], 64-bit
    [id_type]), plain [char] signed.  The host byte order is a parameter of
    the archive model. *)

From stdpp Require Import gmap strings list fin_maps numbers.
From Stdlib Require Import ZArith Lia Ascii ZifyNat.
From Stdlib.Strings Require Import Byte.

Open Scope Z_scope.

(** ** Fixed-width unsigned integers *)

(** Conversion to an unsigned integer type of [bits] bits. *)
Definition uint (bits : Z) (z : Z) : Z := z mod 2 ^ bits.

(** [detail::swap_byte_order(std::uint8_t)]. *)
Definition swap_byte_order_8 (value : Z) : Z := value.

(** [detail::swap_byte_order(std::uint16_t)]. *)
Definition swap_byte_order_16 (value : Z) : Z :=
  uint 16 (Z.lor (Z.shiftl (uint 16 (swap_byte_order_8 (uint 8 value))) 8)
                 (swap_byte_order_8 (uint 8 (Z.shiftr value 8)))).

(** [detail::swap_byte_order(std::uint32_t)]. *)
Definition swap_byte_order_32 (value : Z) : Z :=
  uint 32 (Z.lor (uint 32 (Z.shiftl (uint 32 (swap_byte_order_16 (uint 16 value))) 16))
                 (swap_byte_order_16 (uint 16 (Z.shiftr value 16)))).

(** [detail::swap_byte_order(std::uint64_t)]. *)
Definition swap_byte_order_64 (value : Z) : Z :=
  uint 64 (Z.lor (uint 64 (Z.shiftl (uint 64 (swap_byte_order_32 (uint 32 value))) 32))
                 (swap_byte_order_32 (uint 32 (Z.shiftr value 32)))).

(** [detail::rotate_left] at [Integer = std::uint32_t]. *)
Definition rotate_left (number count : Z) : Z :=
  uint 32 (Z.lor (uint 32 (Z.shiftl number count)) (Z.shiftr number (32 - count))).

(** ** [make_id] *)

(** The value of a plain [char] (signed, 8 bits). *)
Definition char_value (c : ascii) : Z :=
  let n := Z.of_nat (nat_of_ascii c) in
  if n <? 128 then n else n - 256.

(** [std::uint32_t(name[i])]: the conversion sign-extends. *)
Definition char_to_uint32 (c : ascii) : Z := uint 32 (char_value c).

(** [array[i] |= x] on an array held as a list. *)
Definition or_assign (array : list Z) (i : nat) (x : Z) : list Z :=
  <[i := Z.lor (array !!! i) x]> array.

(** The five running hash words [h0 .. h4]. *)
Definition hash_words : Type := (Z * Z * Z * Z * Z)%type.

(** The body of the loop over [j < 80] in [make_id]. *)
Definition main_loop_step (w : list Z) (s : hash_words) (j : nat) : hash_words :=
  let '(a, b, c, d, e) := s in
  let '(f, k) :=
    if (j <=? 19)%nat then
      (Z.lor (Z.land b c) (Z.land (uint 32 (Z.lnot b)) d), 0x5A827999)
    else if (j <=? 39)%nat then
      (Z.lxor (Z.lxor b c) d, 0x6ED9EBA1)
    else if (j <=? 59)%nat then
      (Z.lor (Z.lor (Z.land b c) (Z.land b d)) (Z.land c d), 0x8F1BBCDC)
    else
      (Z.lxor (Z.lxor b c) d, 0xCA62C1D6) in
  let temp := uint 32 (rotate_left a 5 + f + e + k + swap_byte_order_32 (w !!! j)) in
  (temp, a, rotate_left b 30, c, d).

(** The extension of the sixteen words of a chunk to eighty. *)
Definition extend_step (w : list Z) (j : nat) : list Z :=
  <[j := swap_byte_order_32 (rotate_left (swap_byte_order_32
          (Z.lxor (Z.lxor (Z.lxor (w !!! (j - 3)%nat) (w !!! (j - 8)%nat))
                          (w !!! (j - 14)%nat)) (w !!! (j - 16)%nat))) 1)]> w.

(** One iteration of the loop over the 512-bit chunks: [i] is the index of
    the chunk's first word in [preprocessed_message]. *)
Definition process_chunk (preprocessed_message : list Z) (h : hash_words) (i : nat)
  : hash_words :=
  let '(h0, h1, h2, h3, h4) := h in
  let w := replicate 80 0 in
  let w := foldl (fun w j => <[j := preprocessed_message !!! (i + j)%nat]> w) w (seq 0 16) in
  let w := foldl extend_step w (seq 16 64) in
  let '(a, b, c, d, e) := foldl (main_loop_step w) (h0, h1, h2, h3, h4) (seq 0 80) in
  (uint 32 (h0 + a), uint 32 (h1 + b), uint 32 (h2 + c), uint 32 (h3 + d), uint 32 (h4 + e)).

(** The pre-processed message: the name's bytes, the byte 0x80, zero fill
    and the length in bits, as the array of 32-bit words the code builds.
    [size] is the size of the character array, the terminating null
    included. *)
Definition preprocess (name : list ascii) : list Z :=
  let size := S (length name) in
  let message_size := uint 64 (Z.of_nat (size - 1) * 8) in
  let aligned_message_size := (((size + 8) + 63) / 64 * 64)%nat in
  let words := (aligned_message_size / 4)%nat in
  let preprocessed_message := replicate words 0 in
  let preprocessed_message :=
    foldl (fun pm i =>
             or_assign pm (i / 4)
               (swap_byte_order_32
                  (uint 32 (Z.shiftl (char_to_uint32 (nth i name Ascii.zero))
                                     (Z.of_nat ((4 - 1 - (i mod 4)) * 8))))))
          preprocessed_message (seq 0 (size - 1)) in
  let preprocessed_message :=
    or_assign preprocessed_message ((size - 1) / 4)
      (swap_byte_order_32
         (uint 32 (Z.shiftl 0x80 (Z.of_nat ((4 - 1 - ((size - 1) mod 4)) * 8))))) in
  let preprocessed_message :=
    <[(words - 2)%nat := swap_byte_order_32 (uint 32 (Z.shiftr message_size 32))]>
      preprocessed_message in
  <[(words - 1)%nat := swap_byte_order_32 (uint 32 message_size)]> preprocessed_message.

(** [make_id(name)], for the string literal [name]. *)
Definition make_id (name : string) : Z :=
  let preprocessed_message := preprocess (String.list_ascii_of_string name) in
  let chunks := (length preprocessed_message / 16)%nat in
  let '(h0, h1, _, _, _) :=
    foldl (fun h c => process_chunk preprocessed_message h (16 * c)%nat)
          (0x67452301, 0xEFCDAB89, 0x98BADCFE, 0x10325476, 0xC3D2E1F0)
          (seq 0 chunks) in
  swap_byte_order_64 (Z.lor (Z.shiftl h0 32) h1).

(** ** Reference SHA-1 (FIPS 180-4), on lists of bytes *)

Module sha1.

(** ROTL^n(x) on 32-bit words. *)
Definition rotl (n x : Z) : Z :=
  Z.lor (Z.shiftl x n mod 2 ^ 32) (Z.shiftr x (32 - n)).

(** A big-endian 32-bit word from four bytes. *)
Definition word (b0 b1 b2 b3 : Z) : Z :=
  Z.lor (Z.shiftl b0 24) (Z.lor (Z.shiftl b1 16) (Z.lor (Z.shiftl b2 8) b3)).

(** The four bytes of a 32-bit word, most significant first. *)
Definition word_bytes (x : Z) : list Z :=
  [Z.shiftr x 24 mod 256; Z.shiftr x 16 mod 256; Z.shiftr x 8 mod 256; x mod 256].

(** Section 5.1.1: the message, the bit 1, k zero bits and the 64-bit
    length, where k is the least number that makes the total a multiple of
    512 bits. *)
Definition pad (message : list Z) : list Z :=
  let l := Z.of_nat (length message) in
  let zeros := Z.to_nat ((55 - l) mod 64) in
  message ++ [0x80] ++ replicate zeros 0
          ++ word_bytes (Z.shiftr (8 * l) 32 mod 2 ^ 32)
          ++ word_bytes ((8 * l) mod 2 ^ 32).

(** Section 5.2.1: the padded message as big-endian 32-bit words. *)
Fixpoint parse (bytes : list Z) : list Z :=
  match bytes with
  | b0 :: b1 :: b2 :: b3 :: rest => word b0 b1 b2 b3 :: parse rest
  | _ => []
  end.

(** Section 4.1.1: the functions f_t. *)
Definition f (t : nat) (x y z : Z) : Z :=
  if (t <? 20)%nat then Z.lor (Z.land x y) (Z.land (Z.lnot x mod 2 ^ 32) z)
  else if (t <? 40)%nat then Z.lxor (Z.lxor x y) z
  else if (t <? 60)%nat then Z.lor (Z.lor (Z.land x y) (Z.land x z)) (Z.land y z)
  else Z.lxor (Z.lxor x y) z.

(** Section 4.2.1: the constants K_t. *)
Definition K (t : nat) : Z :=
  if (t <? 20)%nat then 0x5a827999
  else if (t <? 40)%nat then 0x6ed9eba1
  else if (t <? 60)%nat then 0x8f1bbcdc
  else 0xca62c1d6.

(** Section 6.1.2, step 1: the message schedule W_0 .. W_79.  [schedule n W]
    appends [n] words to the words [W] computed so far. *)
Fixpoint schedule (n : nat) (W : list Z) : list Z :=
  match n with
  | O => W
  | S n' =>
      let t := length W in
      schedule n'
        (W ++ [rotl 1 (Z.lxor (Z.lxor (Z.lxor (W !!! (t - 3)%nat) (W !!! (t - 8)%nat))
                                      (W !!! (t - 14)%nat)) (W !!! (t - 16)%nat))])
  end.

(** Section 6.1.2, step 3: one round. *)
Definition round (W : list Z) (s : Z * Z * Z * Z * Z) (t : nat) : Z * Z * Z * Z * Z :=
  let '(a, b, c, d, e) := s in
  let T := (rotl 5 a + f t b c d + e + K t + W !!! t) mod 2 ^ 32 in
  (T, a, rotl 30 b, c, d).

(** Section 6.1.2: the hash computation for one block of sixteen words. *)
Definition compress (H : Z * Z * Z * Z * Z) (block : list Z) : Z * Z * Z * Z * Z :=
  let W := schedule 64 block in
  let '(H0, H1, H2, H3, H4) := H in
  let '(a, b, c, d, e) := foldl (round W) H (seq 0 80) in
  ((a + H0) mod 2 ^ 32, (b + H1) mod 2 ^ 32, (c + H2) mod 2 ^ 32,
   (d + H3) mod 2 ^ 32, (e + H4) mod 2 ^ 32).

(** The blocks of sixteen words of a list of words. *)
Fixpoint blocks (n : nat) (words : list Z) : list (list Z) :=
  match n with
  | O => []
  | S n' => take 16 words :: blocks n' (drop 16 words)
  end.

(** Section 5.3.1: the initial hash value. *)
Definition H_init : Z * Z * Z * Z * Z :=
  (0x67452301, 0xefcdab89, 0x98badcfe, 0x10325476, 0xc3d2e1f0).

(** The 160-bit message digest, as twenty bytes. *)
Definition digest (message : list Z) : list Z :=
  let words := parse (pad message) in
  let '(H0, H1, H2, H3, H4) :=
    foldl compress H_init (blocks (length words / 16) words) in
  word_bytes H0 ++ word_bytes H1 ++ word_bytes H2 ++ word_bytes H3 ++ word_bytes H4.

End sha1.

(** The bytes of a name: the character codes of the string. *)
Definition name_bytes (name : string) : list Z :=
  (fun c => Z.of_nat (nat_of_ascii c)) <$> String.list_ascii_of_string name.

(** The id the first eight bytes of a digest fold into: the first four
    bytes (big-endian) are the high half, the next four the low half, and
    the 64-bit value is byte-swapped. *)
Definition fold_id (digest : list Z) : Z :=
  let high := sha1.word (digest !!! 0%nat) (digest !!! 1%nat) (digest !!! 2%nat) (digest !!! 3%nat) in
  let low := sha1.word (digest !!! 4%nat) (digest !!! 5%nat) (digest !!! 6%nat) (digest !!! 7%nat) in
  swap_byte_order_64 (Z.lor (Z.shiftl high 32) low).

(** ** Bytes and object representations *)

Definition byte_of_Z (z : Z) : byte := default x00 (Byte.of_N (Z.to_N (z mod 256))).
Definition Z_of_byte (b : byte) : Z := Z.of_N (Byte.to_N b).

Inductive byte_order := little_endian | big_endian.

(** The object representation of an unsigned integer of [n] bytes. *)
Definition object_representation (host : byte_order) (n : nat) (z : Z) : list byte :=
  let bytes := byte_of_Z <$> Z_to_little_endian (Z.of_nat n) 8 z in
  match host with little_endian => bytes | big_endian => reverse bytes end.

(** The unsigned integer an object representation holds. *)
Definition object_value (host : byte_order) (representation : list byte) : Z :=
  let bytes := match host with
               | little_endian => representation
               | big_endian => reverse representation
               end in
  little_endian_to_Z 8 (Z_of_byte <$> bytes).

(** [size_type] is [std::uint32_t], [id_type] is [std::uint64_t]. *)
Definition size_type (z : Z) : Z := uint 32 z.
Definition sizeof_size_type : nat := 4.
Definition sizeof_id_type : nat := 8.

(** ** Exceptions *)

Inductive exception :=
| out_of_range
| undeclared_polymorphic_type_error
| attempt_to_serialize_null_pointer_error
| polymorphic_type_mismatch_error
| bad_cast.

(** How a call ends: it returns, or an exception leaves it.  [out_of_fuel]
    belongs to the model only: the loading functions recurse through the
    registry on a counter. *)
Inductive outcome :=
| returned
| raised (e : exception)
| out_of_fuel.

(** ** std::vector<unsigned char> *)

(** [vector.resize(n)]: new elements are value-initialised. *)
Definition resize (n : nat) (vector : list byte) : list byte :=
  take n vector ++ replicate (n - length vector) x00.

(** [vector.erase(vector.begin(), vector.begin() + n)]. *)
Definition erase (n : nat) (vector : list byte) : list byte := drop n vector.

(** [std::copy_n(source, length source, target.data() + position)]. *)
Definition copy_n (source : list byte) (position : nat) (target : list byte) : list byte :=
  take position target ++ source ++ drop (position + length source)%nat target.

(** ** lazy_vector_memory_output_archive *)

Record lazy_vector_memory_output_archive := {
  m_output : list byte;   (* the vector [*m_output] *)
  m_size : nat;
}.

(** The constructor. *)
Definition make_output_archive (output : list byte) : lazy_vector_memory_output_archive :=
  {| m_output := output; m_size := length output |}.

(** [serialize(Item && item)], on the object representation of [item], and
    [serialize(const void * data, size_type size)] on the [size] bytes at
    [data]. *)
Definition output_serialize (item : list byte) (archive : lazy_vector_memory_output_archive)
  : lazy_vector_memory_output_archive :=
  let size := length item in
  let output :=
    if (length (m_output archive) <? m_size archive + size)%nat
    then resize ((m_size archive + size) * 3 / 2) (m_output archive)
    else m_output archive in
  {| m_output := copy_n item (m_size archive) output;
     m_size := (m_size archive + size)%nat |}.

(** [fit_vector()]. *)
Definition fit_vector (archive : lazy_vector_memory_output_archive)
  : lazy_vector_memory_output_archive :=
  {| m_output := resize (m_size archive) (m_output archive); m_size := m_size archive |}.

(** ** memory_view_input_archive *)

(** [m_size] is the length of [m_input]. *)
Record memory_view_input_archive := {
  m_input : list byte;
  m_offset : nat;
}.

Definition make_view_archive (input : list byte) : memory_view_input_archive :=
  {| m_input := input; m_offset := 0 |}.

Definition reset (archive : memory_view_input_archive) : memory_view_input_archive :=
  {| m_input := m_input archive; m_offset := 0 |}.

Definition get_offset (archive : memory_view_input_archive) : nat := m_offset archive.

(** [serialize(Item && item)] with [size = sizeof(item)], and
    [serialize(void * data, size_type size)]: [item] is the memory the
    bytes are copied to, of which the first [size] bytes are overwritten. *)
Definition input_serialize (size : nat) (item : list byte) (archive : memory_view_input_archive)
  : outcome * list byte * memory_view_input_archive :=
  if (length (m_input archive) <? size + m_offset archive)%nat
  then (raised out_of_range, item, archive)
  else (returned,
        take size (drop (m_offset archive) (m_input archive)) ++ drop size item,
        {| m_input := m_input archive; m_offset := (m_offset archive + size)%nat |}).

(** ** Types and values *)

Inductive pointer_kind := unique_ptr | shared_ptr.

(** The static types the dispatch layer tells apart. *)
Inductive type :=
| fundamental (size : nat)
| aggregate (items : list type)
| resizable (item : type)
| contiguous (item_size : nat)
| associative (item : type)
| pointer (kind : pointer_kind) (pointee : type)
| polymorphic_pointer (kind : pointer_kind) (base : string).

Inductive value :=
| Fundamental (representation : list byte)
| Aggregate (items : list value)
| Resizable (items : list value)
| Contiguous (item_size : nat) (data : list byte)
| Associative (items : list value)
| Pointer (kind : pointer_kind) (pointee : option value)
| PolymorphicPointer (kind : pointer_kind) (pointee : option (list string * list value))
| PolymorphicWrapper (object : list string * list value).

Definition object : Type := (list string * list value)%type.

Record polymorphic_class := {
  class_chain : list string;
  class_subobjects : list type;
}.

Definition type_name (chain : list string) : string := List.last chain EmptyString.

Record registry := {
  m_serialization_id_to_method : gmap Z polymorphic_class;
  m_type_information_to_serialization_id : gmap string Z;
}.

Definition emplace `{Countable K} {V} (key : K) (v : V) (m : gmap K V) : gmap K V :=
  match m !! key with
  | Some _ => m
  | None => <[key := v]> m
  end.

Definition registry_add (id : Z) (T : polymorphic_class) (r : registry) : registry :=
  {| m_serialization_id_to_method := emplace id T (m_serialization_id_to_method r);
     m_type_information_to_serialization_id :=
       emplace (type_name (class_chain T)) id (m_type_information_to_serialization_id r) |}.

(** ** Saving: [archive::serialize_item] and the [serialize] overloads

    The overloads are templates over the archive type; all they ask of a
    saving archive is its [serialize] member, which appends the bytes of
    an item.  The embedding keeps that: [Archive] is any type with such a
    member. *)

Section saving.

Variable host : byte_order.
Variable r : registry.
Context {Archive : Type}.
Variable archive_serialize : list byte -> Archive -> Archive.

(** A call on a saving archive: the outcome and the archive as the call
    leaves it (an exception undoes nothing). *)
Definition saving : Type := Archive -> outcome * Archive.

Definition save_then (first rest : saving) : saving :=
  fun archive =>
    match first archive with
    | (returned, archive') => rest archive'
    | failed => failed
    end.

(** [serialize_items]: the items one by one, left to right. *)
Fixpoint save_each (items : list saving) : saving :=
  match items with
  | [] => fun archive => (returned, archive)
  | first :: rest => save_then first (save_each rest)
  end.

Definition save_bytes (item : list byte) : saving :=
  fun archive => (returned, archive_serialize item archive).

Definition throw (e : exception) : saving := fun archive => (raised e, archive).

(** [archive(size)] for a [size_type]. *)
Definition save_size (size : Z) : saving :=
  save_bytes (object_representation host sizeof_size_type (size_type size)).

(** The index of the class [name] in an inheritance chain. *)
Fixpoint position (name : string) (chain : list string) : option nat :=
  match chain with
  | [] => None
  | n :: chain' => if decide (n = name) then Some 0%nat else S <$> position name chain'
  end.

(** [registry<Archive>::serialize(archive, object)] for a saving archive;
    [subobjects] save the sub-objects of [object], from the first base to
    the most derived class.  The method registered for [T] casts the
    object to [const T &] and saves it as a [T]. *)
Definition registry_serialize_saving (chain : list string) (subobjects : list saving)
  : saving :=
  fun archive =>
    match m_type_information_to_serialization_id r !! type_name chain with
    | None => (raised undeclared_polymorphic_type_error, archive)
    | Some id =>
        match m_serialization_id_to_method r !! id with
        | None => (raised undeclared_polymorphic_type_error, archive)
        | Some T =>
            save_then (save_bytes (object_representation host sizeof_id_type id))
              (match position (type_name (class_chain T)) chain with
               | None => throw bad_cast
               | Some i => save_each (take (S i) subobjects)
               end) archive
        end
    end.

(** [archive::serialize_item] for a saving archive: the handler the type
    of [item] selects. *)
Fixpoint serialize_item_saving (item : value) : saving :=
  match item with
  | Fundamental representation => save_bytes representation
  | Aggregate items => save_each (serialize_item_saving <$> items)
  | Resizable items =>
      save_then (save_size (Z.of_nat (length items)))
                (save_each (serialize_item_saving <$> items))
  | Contiguous item_size data =>
      let size := size_type (Z.of_nat (length data / item_size)) in
      save_then (save_size size)
        (if decide (size = 0) then fun archive => (returned, archive)
         else
           let size_in_bytes := size_type (size * Z.of_nat item_size) in
           save_bytes (take (Z.to_nat size_in_bytes) data))
  | Associative items =>
      save_then (save_size (Z.of_nat (length items)))
                (save_each (serialize_item_saving <$> items))
  | Pointer _ None => throw attempt_to_serialize_null_pointer_error
  | Pointer _ (Some pointee) => serialize_item_saving pointee
  | PolymorphicPointer _ None => throw attempt_to_serialize_null_pointer_error
  | PolymorphicPointer _ (Some (chain, subobjects)) =>
      registry_serialize_saving chain (serialize_item_saving <$> subobjects)
  | PolymorphicWrapper (chain, subobjects) =>
      registry_serialize_saving chain (serialize_item_saving <$> subobjects)
  end.

(** [archive::operator()(items...)]. *)
Definition serialize_items_saving (items : list value) : saving :=
  save_each (serialize_item_saving <$> items).

End saving.

(** [memory_output_archive::operator()(items...)]: the vector is fitted
    on both paths out of the call. *)
Definition memory_output_archive_call (host : byte_order) (r : registry)
    (items : list value) (archive : lazy_vector_memory_output_archive)
  : outcome * lazy_vector_memory_output_archive :=
  let '(result, archive') :=
    serialize_items_saving host r output_serialize items archive in
  (result, fit_vector archive').

(** The value a default-constructed (value-initialised) object holds. *)
Fixpoint default_value (t : type) : value :=
  match t with
  | fundamental size => Fundamental (replicate size x00)
  | aggregate items => Aggregate (default_value <$> items)
  | resizable _ => Resizable []
  | contiguous item_size => Contiguous item_size []
  | associative _ => Associative []
  | pointer kind _ => Pointer kind None
  | polymorphic_pointer kind _ => PolymorphicPointer kind None
  end.

(** [container.resize(n)] on a sequence of items. *)
Definition resize_items (n : nat) (fresh : value) (items : list value) : list value :=
  take n items ++ replicate (n - length items) fresh.

Section loading.

Variable host : byte_order.

(** [container.insert(item)] of the associative containers: the items of
    the container after the insertion, in iteration order.  The policy
    (ordering, treatment of equivalent keys) is the container's. *)
Variable insert : value -> list value -> list value.

Definition loaded (A : Type) : Type := (outcome * A * memory_view_input_archive)%type.

Definition loading : Type := value -> memory_view_input_archive -> loaded value.

(** [archive(x)] for an unsigned integer [x = 0] of [size] bytes. *)
Definition load_unsigned (size : nat) (archive : memory_view_input_archive) : loaded Z :=
  let '(result, representation, archive') :=
    input_serialize size (object_representation host size 0) archive in
  (result, object_value host representation, archive').

(** [archive(items...)], item by item; an exception leaves the later
    items as they were. *)
Fixpoint load_each (loaders : list loading) (items : list value)
    (archive : memory_view_input_archive) : loaded (list value) :=
  match loaders, items with
  | load :: loaders', item :: items' =>
      let '(result, item', archive') := load item archive in
      match result with
      | returned =>
          let '(result', items'', archive'') := load_each loaders' items' archive' in
          (result', item' :: items'', archive'')
      | _ => (result, item' :: items', archive')
      end
  | _, _ => (returned, items, archive)
  end.

(** The loop of the associative containers: [count] times, load into a
    default-constructed item and insert it. *)
Fixpoint load_insert (load : loading) (fresh : value) (count : nat) (items : list value)
    (archive : memory_view_input_archive) : loaded (list value) :=
  match count with
  | O => (returned, items, archive)
  | S count' =>
      let '(result, item, archive') := load fresh archive in
      match result with
      | returned => load_insert load fresh count' (insert item items) archive'
      | _ => (result, items, archive')
      end
  end.

Section items.

(** [registry<Archive>::get_instance().serialize(archive, loaded_type)]
    with [loaded_type] null. *)
Variable registry_serialize : memory_view_input_archive -> loaded (option object).

(** [archive::serialize_item] for a loading archive: the handler the
    static type [t] selects, applied to the object [item] refers to.  The
    last case stands for calls the C++ type system excludes. *)
Fixpoint serialize_item_loading (t : type) (item : value)
    (archive : memory_view_input_archive) {struct t} : loaded value :=
  match t, item with
  | fundamental size, Fundamental representation =>
      let '(result, representation', archive') :=
        input_serialize size representation archive in
      (result, Fundamental representation', archive')
  | aggregate ts, Aggregate items =>
      let '(result, items', archive') :=
        load_each (serialize_item_loading <$> ts) items archive in
      (result, Aggregate items', archive')
  | resizable t', Resizable items =>
      let '(result, size, archive') := load_unsigned sizeof_size_type archive in
      match result with
      | returned =>
          let items := resize_items (Z.to_nat size) (default_value t') items in
          let '(result, items', archive'') :=
            load_each (replicate (length items) (serialize_item_loading t')) items archive' in
          (result, Resizable items', archive'')
      | _ => (result, item, archive')
      end
  | contiguous item_size, Contiguous _ data =>
      let '(result, size, archive') := load_unsigned sizeof_size_type archive in
      match result with
      | returned =>
          let data := resize (Z.to_nat size * item_size) data in
          if decide (size = 0) then (returned, Contiguous item_size data, archive')
          else
            let count := size_type (Z.of_nat (length data / item_size)) in
            let size_in_bytes := size_type (count * Z.of_nat item_size) in
            let '(result, data', archive'') :=
              input_serialize (Z.to_nat size_in_bytes) data archive' in
            (result, Contiguous item_size data', archive'')
      | _ => (result, item, archive')
      end
  | associative t', Associative items =>
      let '(result, size, archive') := load_unsigned sizeof_size_type archive in
      match result with
      | returned =>
          let '(result, items', archive'') :=
            load_insert (serialize_item_loading t') (default_value t')
                        (Z.to_nat size) items archive' in
          (result, Associative items', archive'')
      | _ => (result, item, archive')
      end
  | pointer kind t', Pointer _ _ =>
      let '(result, loaded_object, archive') :=
        serialize_item_loading t' (default_value t') archive in
      match result with
      | returned => (returned, Pointer kind (Some loaded_object), archive')
      | _ => (result, item, archive')
      end
  | polymorphic_pointer kind base, PolymorphicPointer _ _ =>
      let '(result, loaded_type, archive') := registry_serialize archive in
      match result, loaded_type with
      | returned, Some (chain, subobjects) =>
          if decide (base ∈ chain)
          then (returned, PolymorphicPointer kind (Some (chain, subobjects)), archive')
          else (raised polymorphic_type_mismatch_error, item, archive')
      | _, _ => (result, item, archive')
      end
  | _, _ => (returned, item, archive)
  end.

End items.

(** [registry<Archive>::serialize(archive, object)] for a loading archive.
    The method registered for [T] default-constructs a [T], loads it and
    hands it over. *)
Fixpoint registry_serialize_loading (r : registry) (fuel : nat)
    (archive : memory_view_input_archive) : loaded (option object) :=
  match fuel with
  | O => (out_of_fuel, None, archive)
  | S fuel' =>
      let '(result, id, archive') := load_unsigned sizeof_id_type archive in
      match result with
      | returned =>
          match m_serialization_id_to_method r !! id with
          | None => (raised undeclared_polymorphic_type_error, None, archive')
          | Some T =>
              let concrete_type := default_value <$> class_subobjects T in
              let '(result, concrete_type', archive'') :=
                load_each
                  (serialize_item_loading (registry_serialize_loading r fuel')
                     <$> class_subobjects T)
                  concrete_type archive' in
              match result with
              | returned => (returned, Some (class_chain T, concrete_type'), archive'')
              | _ => (result, None, archive'')
              end
          end
      | _ => (result, None, archive')
      end
  end.

End loading.

(** [memory_view_input_archive::operator()(items...)], for items of the
    static types [ts]. *)
Definition serialize_items_loading (host : byte_order)
    (insert : value -> list value -> list value) (r : registry) (fuel : nat)
    (ts : list type) : list value -> memory_view_input_archive -> loaded (list value) :=
  load_each
    (serialize_item_loading host insert (registry_serialize_loading host insert r fuel) <$> ts).

(** ** memory_input_archive *)

(** The archive holds the caller's vector and, as its base, a view of it. *)
Record memory_input_archive := {
  m_input_vector : list byte;   (* the vector [*m_input] *)
  view : memory_view_input_archive;
}.

Definition make_input_archive (input : list byte) : memory_input_archive :=
  {| m_input_vector := input; view := make_view_archive input |}.

(** [memory_input_archive::operator()(items...)]: the base view is set to
    the vector as it is now, the items are loaded, and on both paths out
    the loaded bytes are erased and the offset is reset. *)
Definition memory_input_archive_call (host : byte_order)
    (insert : value -> list value -> list value) (r : registry) (fuel : nat)
    (ts : list type) (items : list value) (archive : memory_input_archive)
  : outcome * list value * memory_input_archive :=
  let base := make_view_archive (m_input_vector archive) in
  let '(result, items', base') :=
    serialize_items_loading host insert r fuel ts items base in
  (result, items',
   {| m_input_vector := erase (get_offset base') (m_input_vector archive);
      view := reset base' |}).

(** ** Registration *)

(** [register_types<make_type<T, id>...>]: every pair is added to the
    registries of the built-in archives, the last pair first (the pairs
    after the first are base classes of the registering object).  The
    first component of the result is the registry of the loading archive,
    the second that of the saving archive. *)
Definition register_types (types : list (polymorphic_class * Z))
    (registries : registry * registry) : registry * registry :=
  foldr (fun '(T, id) '(loading_registry, saving_registry) =>
           (registry_add id T loading_registry, registry_add id T saving_registry))
        registries types.

Definition empty_registry : registry :=
  {| m_serialization_id_to_method := ∅; m_type_information_to_serialization_id := ∅ |}.

(** ** Notions the proofs use *)

(** Where bit [i] of [swap_byte_order_32 x] comes from. *)
Definition swap32_bit (i : Z) : Z :=
  if i <? 8 then i + 24 else if i <? 16 then i + 8 else if i <? 24 then i - 8 else i - 24.

(** 32-bit words. *)
Definition word32 (x : Z) : Prop := 0 <= x < 2 ^ 32.
Definition words32 (s : hash_words) : Prop :=
  let '(a, b, c, d, e) := s in word32 a /\ word32 b /\ word32 c /\ word32 d /\ word32 e.

(** The word [j] of an array whose bytes are or-ed in one by one. *)
Definition quad_or (g : nat -> Z) (j : nat) : Z :=
  Z.lor (g (4 * j)%nat)
        (Z.lor (g (4 * j + 1)%nat) (Z.lor (g (4 * j + 2)%nat) (g (4 * j + 3)%nat))).

Definition below (n : nat) (val : nat -> Z) (i : nat) : Z :=
  if (i <? n)%nat then val i else 0.

(** A name of 7-bit characters. *)
Definition ascii_name (name : string) : Prop :=
  Forall (fun c => (nat_of_ascii c < 128)%nat) (String.list_ascii_of_string name).


(** The bytes a lazy output archive holds: the first [m_size] bytes of the
    vector; the rest is room for later items. *)
Definition contents (archive : lazy_vector_memory_output_archive) : list byte :=
  take (m_size archive) (m_output archive).

(** The logical size does not exceed the vector. *)
Definition in_bounds (archive : lazy_vector_memory_output_archive) : Prop :=
  (m_size archive <= length (m_output archive))%nat.

(** Two calls, on archives of two types, that end the same way and leave
    archives related by [R]. *)
Definition related {A B : Type} (R : A -> B -> Prop)
    (f : saving (Archive := A)) (g : saving (Archive := B)) : Prop :=
  forall a b, R a b -> (f a).1 = (g b).1 /\ R (f a).2 (g b).2.

(** The plainest saving archive: the stream of the bytes received. *)
Definition stream_serialize (item : list byte) (stream : list byte) : list byte :=
  stream ++ item.

(** The outcome of saving [items] and the bytes their handlers hand to the
    archive up to the return or the exception. *)
Definition written (host : byte_order) (r : registry) (items : list value)
  : outcome * list byte :=
  serialize_items_saving host r stream_serialize items [].

(** The same for one item. *)
Definition encoding (host : byte_order) (r : registry) (item : value) : outcome * list byte :=
  serialize_item_saving host r stream_serialize item [].

(** The bytes a view archive has yet to read. *)
Definition remaining (archive : memory_view_input_archive) : nat :=
  (length (m_input archive) - m_offset archive)%nat.

(** A call on a view archive only moves the offset, forward, and keeps it
    within the input. *)
Definition advances {X} (call : memory_view_input_archive -> loaded X) : Prop :=
  forall archive,
    m_input (call archive).2 = m_input archive
    /\ (m_offset archive <= m_offset (call archive).2)%nat
    /\ ((m_offset archive <= length (m_input archive))%nat ->
        (m_offset (call archive).2 <= length (m_input archive))%nat).

(** ** The classes of the header's documentation *)

(** [std::string]: a contiguous container of [char]. *)
Definition std_string (s : string) : value := Contiguous 1 (String.list_byte_of_string s).

(** [class person : public zpp::serializer::polymorphic], with its
    [m_name]. *)
Definition person : polymorphic_class :=
  {| class_chain := ["zpp::serializer::polymorphic"; "person"];
     class_subobjects := [aggregate []; aggregate [contiguous 1]] |}.

(** [class student : public person], with its [m_university]. *)
Definition student : polymorphic_class :=
  {| class_chain := ["zpp::serializer::polymorphic"; "person"; "student"];
     class_subobjects := [aggregate []; aggregate [contiguous 1]; aggregate [contiguous 1]] |}.

(** [student("1337", "1337University")]. *)
Definition a_student : object :=
  (class_chain student,
   [Aggregate []; Aggregate [std_string "1337"]; Aggregate [std_string "1337University"]]).

(** The registration of the documentation:
    [register_types<make_type<person, make_id("v1::person")>,
                    make_type<student, make_id("v1::student")>>]. *)
Definition documented_types : list (polymorphic_class * Z) :=
  [(person, make_id "v1::person"); (student, make_id "v1::student")].

Definition documented_registries : registry * registry :=
  register_types documented_types (empty_registry, empty_registry).

(** A container that keeps its items in the order of their insertion. *)
Definition insert_back (item : value) (items : list value) : list value := items ++ [item].

(** ** The values the round trip covers *)


Fixpoint all_items (P : value -> Prop) (items : list value) : Prop :=
  match items with
  | [] => True
  | item :: items' => P item /\ all_items P items'
  end.

Fixpoint all_items2 (P : value -> type -> Prop) (items : list value) (ts : list type) : Prop :=
  match items, ts with
  | [], [] => True
  | item :: items', t :: ts' => P item t /\ all_items2 P items' ts'
  | _, _ => False
  end.

Section in_contract.

Variable insert : value -> list value -> list value.
Variable loading_registry saving_registry : registry.

(** The class [T] is registered under [id] with both archives. *)
Definition registered (T : polymorphic_class) (id : Z) : Prop :=
  0 <= id < 2 ^ 64
  /\ m_type_information_to_serialization_id saving_registry !! type_name (class_chain T) = Some id
  /\ m_serialization_id_to_method saving_registry !! id = Some T
  /\ m_serialization_id_to_method loading_registry !! id = Some T.

(** [in_contract v t]: [v] is a value of the static type [t] that holds no
    null pointer, whose containers have fewer than 2^32 elements (bytes,
    for a contiguous container of fundamental items), whose associative
    containers are what inserting their items one by one yields, and whose
    polymorphic objects are of registered classes. *)
Fixpoint in_contract (v : value) (t : type) {struct v} : Prop :=
  match v, t with
  | Fundamental representation, fundamental size => length representation = size
  | Aggregate items, aggregate ts => all_items2 in_contract items ts
  | Resizable items, resizable t' =>
      Z.of_nat (length items) < 2 ^ 32 /\ all_items (fun item => in_contract item t') items
  | Contiguous item_size data, contiguous item_size' =>
      item_size = item_size' /\ (0 < item_size)%nat
      /\ (length data mod item_size = 0)%nat /\ Z.of_nat (length data) < 2 ^ 32
  | Associative items, associative t' =>
      Z.of_nat (length items) < 2 ^ 32
      /\ all_items (fun item => in_contract item t') items
      /\ foldl (fun container item => insert item container) [] items = items
  | Pointer kind (Some pointee), pointer kind' t' => kind = kind' /\ in_contract pointee t'
  | PolymorphicPointer kind (Some (chain, subobjects)), polymorphic_pointer kind' base =>
      kind = kind' /\ base ∈ chain /\ NoDup chain /\ chain <> []
      /\ length subobjects = length chain
      /\ exists T id,
          registered T id /\ class_chain T = chain
          /\ all_items2 in_contract subobjects (class_subobjects T)
  | _, _ => False
  end.

End in_contract.

(** How deep polymorphic objects nest in a value: the fuel its load takes. *)
Fixpoint polymorphic_depth (v : value) : nat :=
  match v with
  | Fundamental _ | Contiguous _ _ => 0
  | Aggregate items | Resizable items | Associative items =>
      foldr (fun item depth => max (polymorphic_depth item) depth) 0%nat items
  | Pointer _ None | PolymorphicPointer _ None => 0
  | Pointer _ (Some pointee) => polymorphic_depth pointee
  | PolymorphicPointer _ (Some (_, subobjects)) | PolymorphicWrapper (_, subobjects) =>
      S (foldr (fun item depth => max (polymorphic_depth item) depth) 0%nat subobjects)
  end.

(** ** What a view archive is about to read *)

(** The bytes from the offset on start with [bytes]. *)
Definition holds_next (archive : memory_view_input_archive) (bytes : list byte) : Prop :=
  (m_offset archive <= length (m_input archive))%nat
  /\ exists rest, drop (m_offset archive) (m_input archive) = bytes ++ rest.

(** The archive, [n] bytes further. *)
Definition advance (n : nat) (archive : memory_view_input_archive) : memory_view_input_archive :=
  {| m_input := m_input archive; m_offset := (m_offset archive + n)%nat |}.

(** The call returns [x] whenever the archive is about to read [bytes],
    and has then read just them. *)
Definition reads {X} (call : memory_view_input_archive -> loaded X) (bytes : list byte) (x : X)
  : Prop :=
  forall archive, holds_next archive bytes ->
    call archive = (returned, x, advance (length bytes) archive).

(** The deepest nesting of polymorphic objects among [items]. *)
Definition depth_items (items : list value) : nat :=
  foldr (fun item depth => max (polymorphic_depth item) depth) 0%nat items.

(** [std::int32_t], on a little-endian host. *)
Definition int32 (z : Z) : value := Fundamental (object_representation little_endian 4 z).



(** ** [detail::all_of] *)

(** [detail::all_of<bConditions...>::value]: the primary template (the
    empty pack), the partial specialisations on a leading [false] and on a
    leading [true], and the full specialisation [all_of<true>]. *)
Fixpoint all_of (bConditions : list bool) : bool :=
  match bConditions with
  | [] => true
  | false :: _ => false
  | [true] => true
  | true :: bConditions' => all_of bConditions'
  end.

(** ** [binary] and [as_binary] *)

(** [binary<Item>]: [m_items] is the memory the pointer refers to,
    [sizeof_Item] is [sizeof(Item)], [m_count] is a [size_type]. *)
Record binary := {
  m_items : list byte;
  sizeof_Item : nat;
  m_count : Z;
}.

(** [as_binary(item, count)]: the count converts to [size_type]. *)
Definition as_binary (items : list byte) (sizeof_Item : nat) (count : Z) : binary :=
  {| m_items := items; sizeof_Item := sizeof_Item; m_count := size_type count |}.

(** [binary::size_in_bytes()]: the product is a [std::size_t], the result
    a [size_type]. *)
Definition size_in_bytes (item : binary) : Z :=
  size_type (m_count item * Z.of_nat (sizeof_Item item)).

(** [archive::serialize_item(binary<T> &&)] on a saving archive:
    [serialize(item.data(), item.size_in_bytes())]. *)
Definition serialize_binary_saving {Archive : Type}
    (archive_serialize : list byte -> Archive -> Archive) (item : binary)
  : saving (Archive := Archive) :=
  save_bytes archive_serialize (take (Z.to_nat (size_in_bytes item)) (m_items item)).

(** The same on the view archive: the bytes are copied to the memory of
    the item. *)
Definition serialize_binary_loading (item : binary) (archive : memory_view_input_archive)
  : outcome * binary * memory_view_input_archive :=
  let '(result, items, archive') :=
    input_serialize (Z.to_nat (size_in_bytes item)) (m_items item) archive in
  (result,
   {| m_items := items; sizeof_Item := sizeof_Item item; m_count := m_count item |},
   archive').

(** ** One vector, two archives *)

(** The examples of the documentation construct a [memory_input_archive]
    and a [memory_output_archive] on one vector.  The input archive keeps
    the address of the vector and takes a fresh view of it at every call;
    the output archive keeps the address and its own [m_size], which no
    one else updates. *)
Record shared_vector := {
  vector_bytes : list byte;   (* the vector both archives point to *)
  output_m_size : nat;        (* [m_size] of the output archive *)
}.

(** Both archives are constructed on [data]. *)
Definition construct_archives (data : list byte) : shared_vector :=
  {| vector_bytes := data; output_m_size := length data |}.

(** [out(items...)]. *)
Definition out_call (host : byte_order) (r : registry) (items : list value)
    (s : shared_vector) : outcome * shared_vector :=
  let '(result, archive') :=
    memory_output_archive_call host r items
      {| m_output := vector_bytes s; m_size := output_m_size s |} in
  (result, {| vector_bytes := m_output archive'; output_m_size := m_size archive' |}).

(** [in(items...)]. *)
Definition in_call (host : byte_order) (insert : value -> list value -> list value)
    (r : registry) (fuel : nat) (ts : list type) (items : list value)
    (s : shared_vector) : outcome * list value * shared_vector :=
  let '(result, items', archive') :=
    memory_input_archive_call host insert r fuel ts items
      (make_input_archive (vector_bytes s)) in
  (result, items',
   {| vector_bytes := m_input_vector archive'; output_m_size := output_m_size s |}).

(** ** Notions the further properties use *)

(** Where bit [i] of a byte-swapped integer of [bytes] bytes comes from. *)
Definition swapped_bit (bytes i : Z) : Z := 8 * (bytes - 1 - i / 8) + i mod 8.

(** The ways a save ends. *)
Definition save_ends (o : outcome) : bool :=
  match o with
  | returned
  | raised attempt_to_serialize_null_pointer_error
  | raised undeclared_polymorphic_type_error
  | raised bad_cast => true
  | _ => false
  end.

(** The ways a load ends. *)
Definition load_ends (o : outcome) : bool :=
  match o with
  | returned
  | raised out_of_range
  | raised undeclared_polymorphic_type_error
  | raised polymorphic_type_mismatch_error
  | out_of_fuel => true
  | _ => false
  end.

(** Two view archives with the same bytes ahead of their offsets. *)
Definition same_rest (a b : memory_view_input_archive) : Prop :=
  (m_offset a <= length (m_input a))%nat
  /\ (m_offset b <= length (m_input b))%nat
  /\ drop (m_offset a) (m_input a) = drop (m_offset b) (m_input b).

(** A call that looks at the bytes ahead only: on archives with the same
    bytes ahead it ends the same way, with the same result, having read
    the same number of bytes. *)
Definition looks_ahead {X} (call : memory_view_input_archive -> loaded X) : Prop :=
  forall a b, same_rest a b ->
    (call a).1 = (call b).1
    /\ same_rest (call a).2 (call b).2
    /\ (m_offset (call a).2 + m_offset b = m_offset (call b).2 + m_offset a)%nat.

(** The class names and the ids of a list of registrations. *)
Definition registered_names (types : list (polymorphic_class * Z)) : list string :=
  (fun T => type_name (class_chain T)) <$> types.*1.

(** A value that holds no owning pointer and no polymorphic wrapper. *)
Fixpoint pointer_free (v : value) : bool :=
  match v with
  | Fundamental _ | Contiguous _ _ => true
  | Aggregate items | Resizable items | Associative items => forallb pointer_free items
  | Pointer _ _ | PolymorphicPointer _ _ | PolymorphicWrapper _ => false
  end.

(** * Proofs *)

(** ** Bits *)

Ltac ltb_cases :=
  repeat match goal with
  | |- context [?a <? ?b] => destruct (Z.ltb_spec a b); try lia
  end.

Ltac bits_step :=
  match goal with
  | |- context [Z.testbit ?a ?i] => rewrite (Z.testbit_neg_r a i) by lia
  | |- context [Z.testbit 0 ?i] => rewrite (Z.bits_0 i)
  | |- context [Z.testbit (?a mod 2 ^ ?n) ?i] => rewrite (Z.testbit_mod_pow2 a n i) by lia
  | |- context [Z.testbit (Z.lor ?a ?b) ?i] => rewrite (Z.lor_spec a b i)
  | |- context [Z.testbit (Z.land ?a ?b) ?i] => rewrite (Z.land_spec a b i)
  | |- context [Z.testbit (Z.lxor ?a ?b) ?i] => rewrite (Z.lxor_spec a b i)
  | |- context [Z.testbit (Z.lnot ?a) ?i] => rewrite (Z.lnot_spec a i) by lia
  | |- context [Z.testbit (Z.shiftl ?a ?n) ?i] => rewrite (Z.shiftl_spec a n i) by lia
  | |- context [Z.testbit (Z.shiftr ?a ?n) ?i] => rewrite (Z.shiftr_spec a n i) by lia
  end.

Ltac bits := repeat bits_step.

Lemma swap_byte_order_32_testbit x i :
  0 <= i ->
  Z.testbit (swap_byte_order_32 x) i = (i <? 32) && Z.testbit x (swap32_bit i).
Proof.
  intros Hi. unfold swap_byte_order_32, swap_byte_order_16, swap_byte_order_8, uint, swap32_bit.
  destruct (Z.ltb_spec i 8); [|destruct (Z.ltb_spec i 16); [|destruct (Z.ltb_spec i 24);
    [|destruct (Z.ltb_spec i 32)]]].
  all: bits; ltb_cases; simpl; rewrite ?andb_false_r, ?orb_false_r, ?orb_false_l; try reflexivity.
  all: try (f_equal; lia).
Qed.

Lemma swap_byte_order_32_range x : 0 <= swap_byte_order_32 x < 2 ^ 32.
Proof. unfold swap_byte_order_32, uint. apply Z.mod_pos_bound. lia. Qed.

Lemma swap32_bit_involutive i : 0 <= i < 32 -> swap32_bit (swap32_bit i) = i.
Proof. unfold swap32_bit. intros. ltb_cases. Qed.

Lemma swap32_bit_range i : 0 <= i < 32 -> 0 <= swap32_bit i < 32.
Proof. unfold swap32_bit. intros. ltb_cases. Qed.

Lemma swap_byte_order_32_involutive x :
  swap_byte_order_32 (swap_byte_order_32 x) = x mod 2 ^ 32.
Proof.
  apply Z.bits_inj'. intros i Hi.
  rewrite swap_byte_order_32_testbit by lia.
  rewrite Z.testbit_mod_pow2 by lia.
  destruct (Z.ltb_spec i 32); [|reflexivity]. simpl.
  rewrite swap_byte_order_32_testbit by (apply swap32_bit_range; lia).
  rewrite swap32_bit_involutive by lia.
  pose proof (swap32_bit_range i ltac:(lia)).
  destruct (Z.ltb_spec (swap32_bit i) 32); [reflexivity | lia].
Qed.

Lemma swap_byte_order_32_lxor x y :
  swap_byte_order_32 (Z.lxor x y) = Z.lxor (swap_byte_order_32 x) (swap_byte_order_32 y).
Proof.
  apply Z.bits_inj'. intros i Hi.
  rewrite Z.lxor_spec, !swap_byte_order_32_testbit, Z.lxor_spec by lia.
  destruct (i <? 32); reflexivity.
Qed.

Lemma swap_byte_order_32_lor x y :
  swap_byte_order_32 (Z.lor x y) = Z.lor (swap_byte_order_32 x) (swap_byte_order_32 y).
Proof.
  apply Z.bits_inj'. intros i Hi.
  rewrite Z.lor_spec, !swap_byte_order_32_testbit, Z.lor_spec by lia.
  destruct (i <? 32); reflexivity.
Qed.

Lemma testbit_above x n i : 0 <= x < 2 ^ n -> 0 <= n <= i -> Z.testbit x i = false.
Proof.
  intros Hx Hi. rewrite <- (Z.mod_small x (2 ^ n)) by lia.
  apply Z.mod_pow2_bits_high. lia.
Qed.

Lemma rotate_left_rotl x n :
  0 <= x < 2 ^ 32 -> 0 < n < 32 -> rotate_left x n = sha1.rotl n x.
Proof.
  intros Hx Hn. unfold rotate_left, sha1.rotl, uint.
  apply Z.bits_inj'. intros i Hi.
  rewrite Z.testbit_mod_pow2 by lia.
  destruct (Z.ltb_spec i 32); [reflexivity|]. simpl.
  rewrite Z.lor_spec, Z.testbit_mod_pow2, Z.shiftr_spec by lia.
  rewrite (testbit_above x 32) by lia.
  destruct (Z.ltb_spec i 32); [lia|]. reflexivity.
Qed.

Lemma rotl_range x n : 0 <= x < 2 ^ 32 -> 0 < n < 32 -> 0 <= sha1.rotl n x < 2 ^ 32.
Proof.
  intros Hx Hn. rewrite <- rotate_left_rotl by lia.
  unfold rotate_left, uint. apply Z.mod_pos_bound. lia.
Qed.

Lemma word_range b0 b1 b2 b3 :
  0 <= b0 < 256 -> 0 <= b1 < 256 -> 0 <= b2 < 256 -> 0 <= b3 < 256 ->
  0 <= sha1.word b0 b1 b2 b3 < 2 ^ 32.
Proof.
  intros H0 H1 H2 H3. unfold sha1.word.
  assert (forall a b, 0 <= a < 2 ^ 32 -> 0 <= b < 2 ^ 32 -> 0 <= Z.lor a b < 2 ^ 32) as Hlor.
  { intros a b Ha Hb. split; [apply Z.lor_nonneg; lia|].
    destruct (Z.eq_dec (Z.lor a b) 0) as [->|Hne]; [lia|].
    apply Z.log2_lt_pow2; [pose proof (Z.lor_nonneg a b); lia|].
    rewrite Z.log2_lor by lia.
    destruct (Z.eq_dec a 0) as [->|]; destruct (Z.eq_dec b 0) as [->|]; simpl in *; try lia.
    - apply Z.max_lub_lt; [simpl; lia|]. apply Z.log2_lt_pow2; lia.
    - apply Z.max_lub_lt; [|simpl; lia]. apply Z.log2_lt_pow2; lia.
    - apply Z.max_lub_lt; apply Z.log2_lt_pow2; lia. }
  rewrite !Z.shiftl_mul_pow2 by lia.
  apply Hlor; [lia|]. apply Hlor; [lia|]. apply Hlor; lia.
Qed.

Lemma word_word_bytes x : 0 <= x < 2 ^ 32 ->
  sha1.word (Z.shiftr x 24 mod 256) (Z.shiftr x 16 mod 256) (Z.shiftr x 8 mod 256) (x mod 256) = x.
Proof.
  intros Hx. unfold sha1.word. change 256 with (2 ^ 8).
  apply Z.bits_inj'. intros i Hi.
  destruct (Z.ltb_spec i 8); [|destruct (Z.ltb_spec i 16); [|destruct (Z.ltb_spec i 24);
    [|destruct (Z.ltb_spec i 32)]]].
  all: bits; ltb_cases; simpl; rewrite ?andb_false_r, ?orb_false_r, ?orb_false_l; try reflexivity.
  all: try (f_equal; lia).
  symmetry. apply (testbit_above x 32); lia.
Qed.

Lemma word32_lookup_total (W : list Z) i : Forall word32 W -> word32 (W !!! i).
Proof.
  intros HW. destruct (decide (i < length W)%nat) as [Hi|Hi].
  - apply (Forall_lookup_total_1 _ _ _ HW). exact Hi.
  - rewrite list_lookup_total_alt, lookup_ge_None_2 by lia. simpl. unfold word32. lia.
Qed.

Lemma word32_lxor x y : word32 x -> word32 y -> word32 (Z.lxor x y).
Proof.
  unfold word32. intros Hx Hy.
  assert (0 <= Z.lxor x y) by (apply Z.lxor_nonneg; lia).
  split; [lia|].
  destruct (Z.eq_dec (Z.lxor x y) 0) as [->|Hne]; [lia|].
  apply Z.log2_lt_pow2; [lia|].
  eapply Z.le_lt_trans; [apply Z.log2_lxor; lia|].
  destruct (Z.eq_dec x 0) as [->|]; destruct (Z.eq_dec y 0) as [->|]; simpl in *; try lia.
  - apply Z.max_lub_lt; [simpl; lia|]. apply Z.log2_lt_pow2; lia.
  - apply Z.max_lub_lt; [|simpl; lia]. apply Z.log2_lt_pow2; lia.
  - apply Z.max_lub_lt; apply Z.log2_lt_pow2; lia.
Qed.

(** The words of a chunk are copied to the head of [w]. *)
Lemma copy_chunk (F : nat -> Z) (m k : nat) (done rest : list Z) :
  length done = k ->
  foldl (fun w j => <[j := F j]> w) (done ++ replicate m 0 ++ rest) (seq k m)
  = done ++ (F <$> seq k m) ++ rest.
Proof.
  revert k done. induction m as [|m IH]; intros k done Hk; simpl.
  - reflexivity.
  - rewrite <- Hk at 1. rewrite <- (Nat.add_0_r (length done)), insert_app_r. simpl.
    rewrite (cons_middle (F k)), !app_assoc.
    rewrite <- (app_assoc _ (replicate m 0) rest).
    rewrite IH by (rewrite length_app; simpl; lia).
    rewrite <- !app_assoc. reflexivity.
Qed.

(** The extension loop computes the byte-swapped message schedule. *)
Lemma extend_schedule (k : nat) (W : list Z) :
  Forall word32 W -> (0 < length W)%nat ->
  foldl extend_step ((swap_byte_order_32 <$> W) ++ replicate k 0) (seq (length W) k)
  = swap_byte_order_32 <$> sha1.schedule k W.
Proof.
  revert W. induction k as [|k IH]; intros W HW Hlen; simpl.
  - rewrite app_nil_r. reflexivity.
  - set (t := length W).
    set (x := Z.lxor (Z.lxor (Z.lxor (W !!! (t - 3)%nat) (W !!! (t - 8)%nat))
                             (W !!! (t - 14)%nat)) (W !!! (t - 16)%nat)).
    assert (word32 x) as Hx by (repeat apply word32_lxor; apply word32_lookup_total; exact HW).
    assert (extend_step ((swap_byte_order_32 <$> W) ++ 0 :: replicate k 0) t
            = (swap_byte_order_32 <$> (W ++ [sha1.rotl 1 x])) ++ replicate k 0) as ->.
    { unfold extend_step.
      rewrite !lookup_total_app_l by (rewrite length_fmap; unfold t; lia).
      rewrite !(list_lookup_total_fmap swap_byte_order_32) by (unfold t; lia).
      rewrite <- !swap_byte_order_32_lxor. fold x.
      rewrite swap_byte_order_32_involutive, Z.mod_small by exact Hx.
      rewrite rotate_left_rotl by (exact Hx || lia).
      replace t with (length (swap_byte_order_32 <$> W) + 0)%nat at 1
        by (rewrite length_fmap; unfold t; lia).
      rewrite insert_app_r. simpl.
      rewrite fmap_app, <- app_assoc. reflexivity. }
    replace (S t) with (length (W ++ [sha1.rotl 1 x])) by (rewrite length_app; simpl; unfold t; lia).
    apply IH.
    + apply Forall_app. split; [exact HW|]. constructor; [|constructor].
      apply rotl_range; [exact Hx | lia].
    + rewrite length_app. simpl. lia.
Qed.

Lemma schedule_length k W : length (sha1.schedule k W) = (length W + k)%nat.
Proof.
  revert W. induction k as [|k IH]; intros W; simpl; [lia|].
  rewrite IH, length_app. simpl. lia.
Qed.

Lemma schedule_word32 k W : Forall word32 W -> Forall word32 (sha1.schedule k W).
Proof.
  revert W. induction k as [|k IH]; intros W HW; simpl; [exact HW|].
  apply IH. apply Forall_app. split; [exact HW|]. constructor; [|constructor].
  apply rotl_range; [|lia].
  repeat apply word32_lxor; apply word32_lookup_total; exact HW.
Qed.

(** A fold with an invariant: two step functions that agree on the states
    the invariant holds of give the same fold. *)
Lemma foldl_agree {A B} (P : A -> Prop) (f g : A -> B -> A) (l : list B) (a : A) :
  P a ->
  (forall s x, P s -> x ∈ l -> f s x = g s x /\ P (g s x)) ->
  foldl f a l = foldl g a l /\ P (foldl g a l).
Proof.
  revert a. induction l as [|x l IH]; intros a Ha Hstep; simpl; [auto|].
  destruct (Hstep a x Ha) as [-> HP]; [left|].
  apply IH; [exact HP|]. intros s y Hs Hy. apply Hstep; [exact Hs | right; exact Hy].
Qed.

Lemma main_loop_round (W : list Z) (s : hash_words) (j : nat) :
  Forall word32 W -> (j < length W)%nat -> words32 s ->
  main_loop_step (swap_byte_order_32 <$> W) s j = sha1.round W s j
  /\ words32 (sha1.round W s j).
Proof.
  intros HW Hj. destruct s as [[[[a b] c] d] e]. intros (Ha & Hb & Hc & Hd & He).
  assert (main_loop_step (swap_byte_order_32 <$> W) (a, b, c, d, e) j
          = sha1.round W (a, b, c, d, e) j) as Heq.
  { unfold main_loop_step, sha1.round, sha1.f, sha1.K, uint.
    rewrite (list_lookup_total_fmap swap_byte_order_32) by exact Hj.
    rewrite swap_byte_order_32_involutive.
    rewrite (Z.mod_small (W !!! j)) by (apply word32_lookup_total; exact HW).
    rewrite !rotate_left_rotl by (assumption || lia).
    destruct (Nat.leb_spec j 19), (Nat.ltb_spec j 20); try lia; [reflexivity|].
    destruct (Nat.leb_spec j 39), (Nat.ltb_spec j 40); try lia; [reflexivity|].
    destruct (Nat.leb_spec j 59), (Nat.ltb_spec j 60); try lia; reflexivity. }
  split; [exact Heq|].
  unfold sha1.round. refine (conj _ (conj Ha (conj _ (conj Hc Hd)))).
  - apply Z.mod_pos_bound. lia.
  - apply rotl_range; [exact Hb | lia].
Qed.

Lemma process_chunk_compress (W : list Z) (h : hash_words) (i : nat) :
  Forall word32 W -> (i + 16 <= length W)%nat -> words32 h ->
  process_chunk (swap_byte_order_32 <$> W) h i = sha1.compress h (take 16 (drop i W))
  /\ words32 (sha1.compress h (take 16 (drop i W))).
Proof.
  intros HW Hi Hh.
  set (block := take 16 (drop i W)).
  assert (length block = 16%nat) as Hblock
    by (unfold block; rewrite length_take, length_drop; lia).
  assert (Forall word32 block) as HB
    by (unfold block; apply Forall_take, Forall_drop; exact HW).
  unfold process_chunk, sha1.compress. destruct h as [[[[h0 h1] h2] h3] h4].
  assert (foldl (fun w j => <[j := (swap_byte_order_32 <$> W) !!! (i + j)%nat]> w)
                (replicate 80 0) (seq 0 16)
          = (swap_byte_order_32 <$> block) ++ replicate 64 0) as ->.
  { change (replicate 80 0) with ([] ++ replicate 16 0 ++ replicate 64 0).
    rewrite (copy_chunk (fun j => (swap_byte_order_32 <$> W) !!! (i + j)%nat)) by reflexivity.
    rewrite app_nil_l. f_equal.
    apply list_eq_same_length with 16%nat;
      [rewrite length_fmap; exact Hblock | rewrite length_fmap, length_seq; reflexivity |].
    intros k x y Hk Hx Hy.
    rewrite list_lookup_fmap, lookup_seq_lt in Hx by lia. simpl in Hx. 
    rewrite list_lookup_fmap in Hy. unfold block in Hy.
    rewrite lookup_take_lt, lookup_drop in Hy by lia.
    rewrite list_lookup_total_alt, list_lookup_fmap in Hx.
    destruct (W !! (i + k)%nat); simpl in *; congruence. }
  replace (seq 16 64) with (seq (length block) 64) by (rewrite Hblock; reflexivity).
  rewrite extend_schedule by (exact HB || lia).
  set (S := sha1.schedule 64 block).
  assert (Forall word32 S) as HS by (apply schedule_word32; exact HB).
  assert (length S = 80%nat) as HlenS by (unfold S; rewrite schedule_length; lia).
  destruct (foldl_agree words32 (main_loop_step (swap_byte_order_32 <$> S)) (sha1.round S)
              (seq 0 80) (h0, h1, h2, h3, h4) Hh) as [-> Hend].
  { intros s x Hs Hx. apply main_loop_round; [exact HS | | exact Hs].
    apply elem_of_seq in Hx. lia. }
  unfold hash_words in *.
  destruct (foldl (sha1.round S) (h0, h1, h2, h3, h4) (seq 0 80)) as [[[[a b] c] d] e].
  unfold uint. rewrite (Z.add_comm h0), (Z.add_comm h1), (Z.add_comm h2),
    (Z.add_comm h3), (Z.add_comm h4).
  split; [reflexivity|].
  unfold words32, word32. repeat apply conj; apply Z.mod_pos_bound; lia.
Qed.

Lemma chunks_blocks (W : list Z) (n k : nat) (h : hash_words) :
  Forall word32 W -> (16 * (k + n) <= length W)%nat -> words32 h ->
  foldl (fun h c => process_chunk (swap_byte_order_32 <$> W) h (16 * c)%nat) h (seq k n)
  = foldl sha1.compress h (sha1.blocks n (drop (16 * k) W)).
Proof.
  revert k h. induction n as [|n IH]; intros k h HW Hlen Hh;
    cbn [seq foldl sha1.blocks]; [reflexivity|].
  destruct (process_chunk_compress W h (16 * k)%nat HW ltac:(lia) Hh) as [-> Hh'].
  rewrite drop_drop. replace (16 * k + 16)%nat with (16 * S k)%nat by lia.
  apply IH; [exact HW | lia | exact Hh'].
Qed.

Ltac divlia := zify; Z.to_euclidean_division_equations; lia.

Lemma below_S_eq n val : below (S n) val n = val n.
Proof. unfold below. destruct (Nat.ltb_spec n (S n)); [reflexivity | lia]. Qed.

Lemma below_S_lt n val i : (i < n)%nat -> below (S n) val i = below n val i.
Proof.
  intros Hi. unfold below.
  destruct (Nat.ltb_spec i (S n)), (Nat.ltb_spec i n); try lia; reflexivity.
Qed.

Lemma below_ge n val i : (n <= i)%nat -> below n val i = 0.
Proof. intros Hi. unfold below. destruct (Nat.ltb_spec i n); [lia | reflexivity]. Qed.

Lemma or_fold (val : nat -> Z) (L n : nat) :
  (n <= 4 * L)%nat ->
  length (foldl (fun pm i => or_assign pm (i / 4) (val i)) (replicate L 0) (seq 0 n)) = L
  /\ forall j, (j < L)%nat ->
       foldl (fun pm i => or_assign pm (i / 4) (val i)) (replicate L 0) (seq 0 n) !!! j
       = quad_or (below n val) j.
Proof.
  induction n as [|n IH]; intros Hn.
  - simpl. split; [apply length_replicate|].
    intros j Hj. rewrite lookup_total_replicate_2 by exact Hj.
    unfold quad_or. rewrite !below_ge by lia. reflexivity.
  - destruct IH as [Hlen IH]; [lia|].
    rewrite seq_S, foldl_snoc. simpl (0 + n)%nat.
    set (pm := foldl _ _ (seq 0 n)) in *.
    unfold or_assign. split; [rewrite length_insert; exact Hlen|].
    intros j Hj. destruct (decide (n / 4 = j)%nat) as [Hq|Hq].
    + rewrite Hq, list_lookup_total_insert_eq, IH by lia.
      unfold quad_or.
      assert (n = 4 * j \/ n = 4 * j + 1 \/ n = 4 * j + 2 \/ n = 4 * j + 3)%nat
        as [E|[E|[E|E]]] by divlia; rewrite <- E.
      all: unfold below.
      all: repeat match goal with
             | |- context [(?a <? ?b)%nat] => destruct (Nat.ltb_spec a b); try lia
             end.
      all: rewrite ?Z.lor_0_r, ?Z.lor_0_l, <- ?Z.lor_assoc; reflexivity.
    + rewrite list_lookup_total_insert_ne by exact Hq. rewrite IH by exact Hj.
      unfold quad_or, below.
      assert (forall k, (k < 4)%nat -> ((4 * j + k <? S n) = (4 * j + k <? n))%nat) as Hk.
      { intros k Hk. destruct (Nat.ltb_spec (4 * j + k) (S n)), (Nat.ltb_spec (4 * j + k) n);
          try reflexivity; divlia. }
      pose proof (Hk 0%nat ltac:(lia)) as H0. rewrite Nat.add_0_r in H0.
      rewrite H0, (Hk 1%nat), (Hk 2%nat), (Hk 3%nat) by lia. reflexivity.
Qed.

Lemma parse_app (A B : list Z) :
  (length A mod 4 = 0)%nat -> sha1.parse (A ++ B) = sha1.parse A ++ sha1.parse B.
Proof.
  remember (length A) as n eqn:Hn. revert A Hn.
  induction n as [n IH] using lt_wf_ind. intros A Hn Hmod.
  destruct A as [|b0 [|b1 [|b2 [|b3 A]]]]; simpl in Hn; subst n.
  - reflexivity.
  - cbv in Hmod. discriminate.
  - cbv in Hmod. discriminate.
  - cbv in Hmod. discriminate.
  - simpl sha1.parse. rewrite <- app_comm_cons. f_equal. apply (IH (length A)); [simpl; lia | reflexivity |].
    simpl length in Hmod. divlia.
Qed.

Lemma parse_length (l : list Z) : length (sha1.parse l) = (length l / 4)%nat.
Proof.
  remember (length l) as n eqn:Hn. revert l Hn.
  induction n as [n IH] using lt_wf_ind. intros l Hn.
  destruct l as [|b0 [|b1 [|b2 [|b3 l]]]]; simpl in Hn; subst n; try reflexivity.
  simpl sha1.parse. simpl length. rewrite (IH (length l)) by (lia || reflexivity).
  divlia.
Qed.

Lemma parse_lookup (l : list Z) (j : nat) :
  (4 * j + 3 < length l)%nat ->
  sha1.parse l !!! j
  = sha1.word (l !!! (4 * j)%nat) (l !!! (4 * j + 1)%nat)
              (l !!! (4 * j + 2)%nat) (l !!! (4 * j + 3)%nat).
Proof.
  revert l. induction j as [|j IH]; intros l Hj.
  - destruct l as [|b0 [|b1 [|b2 [|b3 l]]]]; simpl in Hj; try lia. reflexivity.
  - destruct l as [|b0 [|b1 [|b2 [|b3 l]]]]; simpl in Hj; try lia.
    simpl sha1.parse.
    replace (4 * S j)%nat with (S (S (S (S (4 * j))))) by lia.
    change (S (S (S (S (4 * j)))) + 1)%nat with (S (S (S (S (4 * j + 1))))).
    change (S (S (S (S (4 * j)))) + 2)%nat with (S (S (S (S (4 * j + 2))))).
    change (S (S (S (S (4 * j)))) + 3)%nat with (S (S (S (S (4 * j + 3))))).
    rewrite !lookup_total_cons_ne_0 by lia. simpl Nat.pred.
    apply IH. lia.
Qed.

Lemma list_eq_total (l1 l2 : list Z) :
  length l1 = length l2 ->
  (forall i, (i < length l1)%nat -> l1 !!! i = l2 !!! i) ->
  l1 = l2.
Proof.
  intros Hlen Hi. apply list_eq_same_length with (length l1); [symmetry; exact Hlen | reflexivity |].
  intros i x y Hlt Hx Hy.
  apply list_lookup_total_correct in Hx, Hy. rewrite <- Hx, <- Hy. apply Hi. exact Hlt.
Qed.

Lemma foldl_ext_in {A B} (f g : A -> B -> A) (l : list B) (a : A) :
  (forall s x, x ∈ l -> f s x = g s x) -> foldl f a l = foldl g a l.
Proof.
  intros H. apply (foldl_agree (fun _ => True) f g l a I).
  intros s x _ Hx. split; [apply H; exact Hx | exact I].
Qed.

Lemma char_to_uint32_ascii c :
  (nat_of_ascii c < 128)%nat -> char_to_uint32 c = Z.of_nat (nat_of_ascii c).
Proof.
  intros Hc. unfold char_to_uint32, char_value, uint.
  destruct (Z.ltb_spec (Z.of_nat (nat_of_ascii c)) 128); [|lia].
  apply Z.mod_small. lia.
Qed.

Lemma uint_32_shiftl_byte b s :
  0 <= b < 256 -> 0 <= s <= 24 -> uint 32 (Z.shiftl b s) = Z.shiftl b s.
Proof.
  intros Hb Hs. unfold uint. apply Z.mod_small.
  rewrite Z.shiftl_mul_pow2 by lia.
  assert (0 < 2 ^ s <= 2 ^ 24) by (split; [apply Z.pow_pos_nonneg | apply Z.pow_le_mono_r]; lia).
  nia.
Qed.

Section preprocess.

Variable name : list ascii.
Hypothesis name_ascii : Forall (fun c => (nat_of_ascii c < 128)%nat) name.
Hypothesis name_length : Z.of_nat (length name) < 2 ^ 61.

Let len := length name.
Let msg := (fun c => Z.of_nat (nat_of_ascii c)) <$> name.
Let zeros := Z.to_nat ((55 - Z.of_nat len) mod 64).
Let body := msg ++ [0x80] ++ replicate zeros 0.
Let words := (((S len + 8) + 63) / 64 * 64 / 4)%nat.

Let byte (i : nat) : Z :=
  if (i <? len)%nat then char_to_uint32 (nth i name Ascii.zero) else 0x80.
Let val (i : nat) : Z :=
  swap_byte_order_32 (uint 32 (Z.shiftl (byte i) (Z.of_nat ((4 - 1 - (i mod 4)) * 8)))).

Lemma body_length : length body = (4 * (words - 2))%nat.
Proof using Type.
  unfold body, words, zeros, msg. rewrite !length_app, length_fmap, length_replicate.
  fold len. simpl length. divlia.
Qed.

Lemma slot_body (i : nat) :
  (i < length body)%nat ->
  below (S len) val i
  = swap_byte_order_32 (Z.shiftl (body !!! i) (Z.of_nat ((3 - i mod 4) * 8))).
Proof using name_ascii.
  intros Hi.
  assert (0 <= Z.of_nat ((3 - i mod 4) * 8) <= 24) as Hs by divlia.
  destruct (decide (i < len)%nat) as [Hlt|Hge].
  - unfold below, val, byte.
    destruct (Nat.ltb_spec i (S len)); [|lia]. destruct (Nat.ltb_spec i len); [|lia].
    destruct (lookup_lt_is_Some_2 name i Hlt) as [c Hc].
    rewrite (nth_lookup_Some _ _ _ _ Hc).
    assert (nat_of_ascii c < 128)%nat as Hascii
      by (exact (proj1 (Forall_lookup _ _) name_ascii i c Hc)).
    unfold body. rewrite lookup_total_app_l by (unfold msg; rewrite length_fmap; exact Hlt).
    assert (msg !!! i = Z.of_nat (nat_of_ascii c)) as ->.
    { apply list_lookup_total_correct. unfold msg. rewrite list_lookup_fmap, Hc. reflexivity. }
    rewrite char_to_uint32_ascii by exact Hascii.
    change (4 - 1)%nat with 3%nat.
    rewrite uint_32_shiftl_byte by lia. reflexivity.
  - destruct (decide (i = len)) as [->|Hne].
    + rewrite below_S_eq. unfold val, byte.
      destruct (Nat.ltb_spec len len); [lia|].
      change body with (msg ++ 128 :: replicate zeros 0).
      rewrite list_lookup_total_middle by (unfold msg; rewrite length_fmap; reflexivity).
      change (4 - 1)%nat with 3%nat.
      rewrite uint_32_shiftl_byte by lia. reflexivity.
    + rewrite below_ge by lia.
      unfold body in *. rewrite !length_app, length_replicate in Hi. simpl in Hi.
      assert (length msg = len) as Hmsg by (unfold msg; apply length_fmap).
      rewrite lookup_total_app_r by lia.
      rewrite (lookup_total_app_r [128]) by (simpl; lia).
      rewrite lookup_total_replicate_2 by (simpl; lia).
      rewrite Z.shiftl_0_l. reflexivity.
Qed.

Lemma preprocess_body (j : nat) :
  (j < words - 2)%nat ->
  quad_or (below (S len) val) j = swap_byte_order_32 (sha1.parse body !!! j).
Proof using name_ascii.
  intros Hj. pose proof body_length as Hlen.
  rewrite parse_lookup by lia.
  unfold quad_or, sha1.word. rewrite !swap_byte_order_32_lor.
  rewrite !slot_body by lia.
  replace (Z.of_nat ((3 - (4 * j) mod 4) * 8)) with 24 by divlia.
  replace (Z.of_nat ((3 - (4 * j + 1) mod 4) * 8)) with 16 by divlia.
  replace (Z.of_nat ((3 - (4 * j + 2) mod 4) * 8)) with 8 by divlia.
  replace (Z.of_nat ((3 - (4 * j + 3) mod 4) * 8)) with 0 by divlia.
  rewrite Z.shiftl_0_r. reflexivity.
Qed.

Lemma preprocess_parse_pad :
  preprocess name = swap_byte_order_32 <$> sha1.parse (sha1.pad msg).
Proof using name_ascii name_length.
  pose proof body_length as Hbody.
  assert (2 <= words)%nat as Hwords by (unfold words; divlia).
  assert (S len <= 4 * words)%nat as Hfit by (unfold words; divlia).
  (* the reference side *)
  assert (sha1.parse (sha1.pad msg)
          = sha1.parse body ++ [Z.shiftr (8 * Z.of_nat len) 32 mod 2 ^ 32;
                                (8 * Z.of_nat len) mod 2 ^ 32]) as ->.
  { unfold sha1.pad. replace (length msg) with len by (unfold msg; rewrite length_fmap; reflexivity).
    fold zeros. rewrite !app_assoc, <- (app_assoc msg), <- app_assoc.
    change (msg ++ [128] ++ replicate zeros 0) with body.
    rewrite parse_app by (rewrite Hbody; divlia). f_equal.
    unfold sha1.word_bytes. cbn [app sha1.parse].
    rewrite !word_word_bytes by (apply Z.mod_pos_bound; lia). reflexivity. }
  (* the code side *)
  unfold preprocess. fold len.
  replace (S len - 1)%nat with len by lia.
  change (((S len + 8) + 63) / 64 * 64 / 4)%nat with words.
  rewrite (foldl_ext_in _ (fun pm i => or_assign pm (i / 4) (val i))).
  2:{ intros pm i Hi. apply elem_of_seq in Hi. unfold val, byte.
      destruct (Nat.ltb_spec i len); [reflexivity | lia]. }
  assert (swap_byte_order_32 (uint 32 (Z.shiftl 128 (Z.of_nat ((4 - 1 - len mod 4) * 8))))
          = val len) as ->.
  { unfold val, byte. destruct (Nat.ltb_spec len len); [lia | reflexivity]. }
  change (or_assign ?pm (len / 4) (val len))
    with ((fun a i => or_assign a (i / 4) (val i)) pm (0 + len)%nat).
  rewrite <- foldl_snoc, <- seq_S.
  destruct (or_fold val words (S len) Hfit) as [Hlen Hlook].
  set (pm := foldl _ _ (seq 0 (S len))) in *.
  assert (uint 64 (Z.of_nat len * 8) = 8 * Z.of_nat len) as ->
    by (unfold uint; rewrite Z.mod_small; lia).
  apply list_eq_total.
  - rewrite !length_insert, length_fmap, length_app, parse_length, Hbody, Hlen.
    cbn [length]. clear -Hwords. divlia.
  - rewrite !length_insert, Hlen. intros j Hj.
    rewrite (list_lookup_total_fmap swap_byte_order_32)
      by (rewrite length_app, parse_length, Hbody; cbn [length]; clear -Hj Hwords; divlia).
    assert (length (sha1.parse body) = (words - 2)%nat) as Hparse
      by (rewrite parse_length, Hbody; clear; divlia).
    destruct (decide (j = words - 1)%nat) as [->|Hlast].
    + rewrite list_lookup_total_insert_eq by (rewrite length_insert; lia).
      rewrite lookup_total_app_r by lia. rewrite Hparse.
      replace (words - 1 - (words - 2))%nat with 1%nat by lia. reflexivity.
    + rewrite list_lookup_total_insert_ne by lia.
      destruct (decide (j = words - 2)%nat) as [->|Hlast2].
      * rewrite list_lookup_total_insert_eq by lia.
        rewrite lookup_total_app_r by lia. rewrite Hparse, Nat.sub_diag. reflexivity.
      * rewrite list_lookup_total_insert_ne by lia.
        rewrite lookup_total_app_l by lia.
        rewrite Hlook by lia. apply preprocess_body. lia.
Qed.

End preprocess.

Lemma list_ascii_of_string_length (s : string) :
  length (String.list_ascii_of_string s) = String.length s.
Proof. induction s as [|c s IH]; simpl; [reflexivity | rewrite IH; reflexivity]. Qed.

Lemma parse_word32 (bytes : list Z) :
  Forall (fun b => 0 <= b < 256) bytes -> Forall word32 (sha1.parse bytes).
Proof.
  remember (length bytes) as n eqn:Hn. revert bytes Hn.
  induction n as [n IH] using lt_wf_ind. intros l Hn Hl.
  destruct l as [|b0 [|b1 [|b2 [|b3 l]]]]; simpl; try constructor.
  - inversion Hl as [|? ? H0 Hl1]; subst. inversion Hl1 as [|? ? H1 Hl2]; subst.
    inversion Hl2 as [|? ? H2 Hl3]; subst. inversion Hl3 as [|? ? H3 Hl4]; subst.
    apply word_range; assumption.
  - apply (IH (length l)); [subst n; simpl; lia | reflexivity |].
    do 4 (apply Forall_inv_tail in Hl). exact Hl.
Qed.

Lemma pad_bytes (message : list Z) :
  Forall (fun b => 0 <= b < 256) message -> Forall (fun b => 0 <= b < 256) (sha1.pad message).
Proof.
  intros Hm. unfold sha1.pad, sha1.word_bytes.
  repeat (apply Forall_app; split); try exact Hm.
  - constructor; [lia | constructor].
  - apply Forall_replicate. lia.
  - repeat constructor; apply Z.mod_pos_bound; lia.
  - repeat constructor; apply Z.mod_pos_bound; lia.
Qed.

Lemma name_bytes_range (name : string) : Forall (fun b => 0 <= b < 256) (name_bytes name).
Proof.
  unfold name_bytes. apply Forall_fmap, Forall_forall. intros c _. simpl.
  pose proof (nat_ascii_bounded c). lia.
Qed.

Lemma compress_words32 (h : Z * Z * Z * Z * Z) (block : list Z) : words32 (sha1.compress h block).
Proof.
  unfold sha1.compress. destruct h as [[[[h0 h1] h2] h3] h4].
  destruct (foldl _ _ _) as [[[[a b] c] d] e].
  unfold words32, word32. repeat apply conj; apply Z.mod_pos_bound; lia.
Qed.

Lemma foldl_compress_words32 (h : Z * Z * Z * Z * Z) (bs : list (list Z)) :
  words32 h -> words32 (foldl sha1.compress h bs).
Proof.
  revert h. induction bs as [|b bs IH]; intros h Hh; simpl; [exact Hh|].
  apply IH, compress_words32.
Qed.

(** [make_id] and the reference SHA-1 agree on the first eight bytes. *)
Lemma make_id_fold_id (name : string) :
  ascii_name name ->
  Z.of_nat (String.length name) < 2 ^ 61 ->
  make_id name = fold_id (take 8 (sha1.digest (name_bytes name))).
Proof.
  intros Hascii Hlen. unfold make_id, sha1.digest.
  rewrite preprocess_parse_pad
    by (exact Hascii || (rewrite list_ascii_of_string_length; exact Hlen)).
  fold (name_bytes name).
  set (W := sha1.parse (sha1.pad (name_bytes name))).
  assert (Forall word32 W) as HW by (apply parse_word32, pad_bytes, name_bytes_range).
  rewrite length_fmap.
  assert (words32 sha1.H_init) as Hinit by (unfold words32, word32; simpl; lia).
  rewrite (chunks_blocks W (length W / 16) 0 _ HW) by (exact Hinit || divlia).
  rewrite drop_0. change (_, _, _, _, _) with sha1.H_init.
  pose proof (foldl_compress_words32 sha1.H_init (sha1.blocks (length W / 16) W) Hinit) as Hend.
  destruct (foldl sha1.compress _ _) as [[[[H0 H1] H2] H3] H4].
  destruct Hend as (Hr0 & Hr1 & _).
  unfold fold_id, sha1.word_bytes. cbn [take app lookup_total list_lookup_total].
  rewrite !word_word_bytes by assumption. reflexivity.
Qed.

(** The byte-swapped 64-bit value of two big-endian words is the number
    their eight bytes spell, least significant byte first. *)
Lemma swap_byte_order_64_little_endian H0 H1 :
  0 <= H0 < 2 ^ 32 -> 0 <= H1 < 2 ^ 32 ->
  swap_byte_order_64 (Z.lor (Z.shiftl H0 32) H1)
  = little_endian_to_Z 8 (sha1.word_bytes H0 ++ sha1.word_bytes H1).
Proof.
  intros Hr0 Hr1.
  unfold sha1.word_bytes. cbn [app little_endian_to_Z]. change 256 with (2 ^ 8).
  unfold swap_byte_order_64, swap_byte_order_32, swap_byte_order_16, swap_byte_order_8, uint.
  apply Z.bits_inj'. intros i Hi.
  destruct (Z.ltb_spec i 8); [|destruct (Z.ltb_spec i 16); [|destruct (Z.ltb_spec i 24);
    [|destruct (Z.ltb_spec i 32); [|destruct (Z.ltb_spec i 40); [|destruct (Z.ltb_spec i 48);
    [|destruct (Z.ltb_spec i 56); [|destruct (Z.ltb_spec i 64)]]]]]]].
  all: bits; ltb_cases; simpl; rewrite ?andb_false_r, ?orb_false_r, ?orb_false_l; try reflexivity.
  all: rewrite ?(testbit_above H0 32), ?(testbit_above H1 32) by lia.
  all: rewrite ?andb_false_r, ?orb_false_r, ?orb_false_l; try reflexivity.
  all: try (f_equal; lia).
Qed.

Lemma fold_id_little_endian (message : list Z) :
  fold_id (take 8 (sha1.digest message)) = little_endian_to_Z 8 (take 8 (sha1.digest message)).
Proof.
  unfold sha1.digest.
  set (words := sha1.parse (sha1.pad message)).
  assert (words32 sha1.H_init) as Hinit by (unfold words32, word32; simpl; lia).
  pose proof (foldl_compress_words32 sha1.H_init
                (sha1.blocks (length words / 16) words) Hinit) as Hend.
  destruct (foldl sha1.compress _ _) as [[[[H0 H1] H2] H3] H4].
  destruct Hend as (Hr0 & Hr1 & _).
  assert (take 8 (sha1.word_bytes H0 ++ sha1.word_bytes H1 ++ sha1.word_bytes H2
                    ++ sha1.word_bytes H3 ++ sha1.word_bytes H4)
          = sha1.word_bytes H0 ++ sha1.word_bytes H1) as -> by reflexivity.
  rewrite <- (swap_byte_order_64_little_endian H0 H1) by assumption.
  unfold fold_id, sha1.word_bytes. cbn [app lookup_total list_lookup_total].
  rewrite !word_word_bytes by assumption. reflexivity.
Qed.

(** C4.  For every name of 7-bit characters, [make_id] is the first eight
    bytes of the SHA-1 digest of the name's characters (the terminating
    null left out) folded into a 64-bit integer: the first four bytes make
    the high half, the next four the low half, and the byte order of the
    whole is swapped, so that the id is the number the eight bytes spell,
    least significant byte first.  It is a function of the name alone, and
    the names ["v1::person"] and ["v1::student"] get two distinct ids, none
    of them zero. *)
Theorem make_id_is_sha1_prefix :
  (forall name,
      ascii_name name -> Z.of_nat (String.length name) < 2 ^ 61 ->
      make_id name = fold_id (take 8 (sha1.digest (name_bytes name)))
      /\ make_id name = little_endian_to_Z 8 (take 8 (sha1.digest (name_bytes name)))
      /\ 0 <= make_id name < 2 ^ 64)
  /\ (forall name name', name = name' -> make_id name = make_id name')
  /\ make_id "v1::person" = 17841246754225976891
  /\ make_id "v1::student" = 9401524388301464870
  /\ make_id "v1::person" <> make_id "v1::student"
  /\ make_id "v1::person" <> 0
  /\ make_id "v1::student" <> 0.
Proof.
  split.
  - intros name Hascii Hlen.
    pose proof (make_id_fold_id name Hascii Hlen) as Hfold.
    split; [exact Hfold|]. split.
    + rewrite Hfold. apply fold_id_little_endian.
    + unfold make_id. destruct (foldl _ _ _) as [[[[h0 h1] h2] h3] h4].
      unfold swap_byte_order_64, uint. apply Z.mod_pos_bound. lia.
  - split; [intros name name' ->; reflexivity|].
    assert (make_id "v1::person" = 17841246754225976891) as Hperson by (vm_compute; reflexivity).
    assert (make_id "v1::student" = 9401524388301464870) as Hstudent by (vm_compute; reflexivity).
    rewrite Hperson, Hstudent. repeat split; lia.
Qed.

Lemma make_id_is_sha1_prefix_witness :
  (ascii_name "v1::person" /\ Z.of_nat (String.length "v1::person") < 2 ^ 61)
  /\ make_id "v1::person" = fold_id (take 8 (sha1.digest (name_bytes "v1::person")))
  /\ make_id "v1::person"
     = little_endian_to_Z 8 (take 8 (sha1.digest (name_bytes "v1::person")))
  /\ 0 <= make_id "v1::person" < 2 ^ 64.
Proof.
  assert (ascii_name "v1::person") as Hascii
    by (apply (bool_decide_unpack _); vm_compute; exact I).
  assert (Z.of_nat (String.length "v1::person") < 2 ^ 61) as Hlen by (vm_compute; reflexivity).
  split; [split; assumption|].
  exact (proj1 make_id_is_sha1_prefix "v1::person" Hascii Hlen).
Defined.

(** * The output archives *)

(** Induction on values, through the lists and options they nest. *)
Lemma value_induction (P : value -> Prop) :
  (forall representation, P (Fundamental representation)) ->
  (forall items, Forall P items -> P (Aggregate items)) ->
  (forall items, Forall P items -> P (Resizable items)) ->
  (forall item_size data, P (Contiguous item_size data)) ->
  (forall items, Forall P items -> P (Associative items)) ->
  (forall kind, P (Pointer kind None)) ->
  (forall kind pointee, P pointee -> P (Pointer kind (Some pointee))) ->
  (forall kind, P (PolymorphicPointer kind None)) ->
  (forall kind chain subobjects,
      Forall P subobjects -> P (PolymorphicPointer kind (Some (chain, subobjects)))) ->
  (forall chain subobjects, Forall P subobjects -> P (PolymorphicWrapper (chain, subobjects))) ->
  forall v, P v.
Proof.
  intros HF HA HR HC HAs HN HP HPN HPP HW.
  fix IH 1. intros v.
  assert (forall l, Forall P l) as Hall.
  { fix IHl 1. intros [|x l]; [constructor | constructor; [apply IH | apply IHl]]. }
  destruct v as [rep|items|items|n data|items|kind [p|]|kind [[chain subs]|]|[chain subs]].
  - apply HF.
  - apply HA, Hall.
  - apply HR, Hall.
  - apply HC.
  - apply HAs, Hall.
  - apply HP, IH.
  - apply HN.
  - apply HPP, Hall.
  - apply HPN.
  - apply HW, Hall.
Qed.

Lemma length_resize n vector : length (resize n vector) = n.
Proof. unfold resize. rewrite length_app, length_take, length_replicate. lia. Qed.

Lemma take_resize k n vector :
  (k <= n)%nat -> (k <= length vector)%nat -> take k (resize n vector) = take k vector.
Proof.
  intros Hn Hv. unfold resize.
  rewrite take_app_le by (rewrite length_take; lia).
  rewrite take_take. f_equal. lia.
Qed.

Lemma resize_length vector : resize (length vector) vector = vector.
Proof.
  unfold resize. rewrite firstn_all, Nat.sub_diag. simpl. apply app_nil_r.
Qed.

(** What [serialize] does to the bytes the archive holds. *)
Lemma output_serialize_spec item archive :
  in_bounds archive ->
  contents (output_serialize item archive) = contents archive ++ item
  /\ in_bounds (output_serialize item archive)
  /\ m_size (output_serialize item archive) = (m_size archive + length item)%nat.
Proof.
  unfold in_bounds, contents, output_serialize. intros Hb. cbn [m_size m_output].
  set (output := if (_ <? _)%nat then _ else _).
  assert (m_size archive + length item <= length output)%nat as Hroom.
  { unfold output. destruct (Nat.ltb_spec (length (m_output archive))
                               (m_size archive + length item)); [|lia].
    rewrite length_resize. divlia. }
  assert (take (m_size archive) output = take (m_size archive) (m_output archive)) as Hkeep.
  { unfold output. destruct (Nat.ltb_spec (length (m_output archive))
                               (m_size archive + length item)); [|reflexivity].
    apply take_resize; [divlia | exact Hb]. }
  unfold copy_n. repeat split.
  - rewrite app_assoc, take_app_le, take_ge by (rewrite ?length_app, length_take; lia).
    rewrite Hkeep. reflexivity.
  - rewrite !length_app, length_take, length_drop. lia.
Qed.

(** ** The overloads do not depend on the archive they write to *)

Section parametricity.

Variable host : byte_order.
Variable r : registry.
Context {A B : Type}.
Variable serialize_A : list byte -> A -> A.
Variable serialize_B : list byte -> B -> B.
Variable R : A -> B -> Prop.
Hypothesis serialize_related :
  forall item a b, R a b -> R (serialize_A item a) (serialize_B item b).

Lemma related_save_bytes item :
  related R (save_bytes serialize_A item) (save_bytes serialize_B item).
Proof using serialize_related.
  intros a b Hab. split; [reflexivity | apply serialize_related, Hab].
Qed.

Lemma related_throw e : related R (throw e) (throw e).
Proof using Type. intros a b Hab. split; [reflexivity | exact Hab]. Qed.

Lemma related_return : related R (fun a => (returned, a)) (fun b => (returned, b)).
Proof using Type. intros a b Hab. split; [reflexivity | exact Hab]. Qed.

Lemma related_save_then f f' g g' :
  related R f g -> related R f' g' -> related R (save_then f f') (save_then g g').
Proof using Type.
  intros Hfg Hfg' a b Hab. unfold save_then.
  destruct (Hfg a b Hab) as [Ho Hr].
  destruct (f a) as [o a'], (g b) as [o' b']. simpl in Ho, Hr. subst o'.
  destruct o; [apply Hfg', Hr | split; [reflexivity | exact Hr] ..].
Qed.

Lemma related_save_each fs gs :
  Forall2 (related R) fs gs -> related R (save_each fs) (save_each gs).
Proof using Type.
  induction 1 as [|f g fs gs Hfg _ IH]; simpl.
  - apply related_return.
  - apply related_save_then; assumption.
Qed.

Lemma related_fmap (items : list value) :
  Forall (fun v => related R (serialize_item_saving host r serialize_A v)
                           (serialize_item_saving host r serialize_B v)) items ->
  Forall2 (related R) (serialize_item_saving host r serialize_A <$> items)
                  (serialize_item_saving host r serialize_B <$> items).
Proof using Type.
  induction 1; simpl; constructor; assumption.
Qed.

Lemma related_registry_serialize_saving chain fs gs :
  Forall2 (related R) fs gs ->
  related R (registry_serialize_saving host r serialize_A chain fs)
          (registry_serialize_saving host r serialize_B chain gs).
Proof using serialize_related.
  intros Hfg a b Hab. unfold registry_serialize_saving.
  destruct (m_type_information_to_serialization_id r !! type_name chain) as [id|];
    [|split; [reflexivity | exact Hab]].
  destruct (m_serialization_id_to_method r !! id) as [T|];
    [|split; [reflexivity | exact Hab]].
  apply related_save_then; [apply related_save_bytes | | exact Hab].
  destruct (position _ chain) as [i|]; [|apply related_throw].
  apply related_save_each, Forall2_take, Hfg.
Qed.

Lemma serialize_item_saving_related (v : value) :
  related R (serialize_item_saving host r serialize_A v)
          (serialize_item_saving host r serialize_B v).
Proof using serialize_related.
  induction v as [rep|items IH|items IH|n data|items IH|kind|kind p IH|kind
                  |kind chain subs IH|chain subs IH] using value_induction; simpl.
  - apply related_save_bytes.
  - apply related_save_each, related_fmap, IH.
  - apply related_save_then; [apply related_save_bytes|].
    apply related_save_each, related_fmap, IH.
  - apply related_save_then; [apply related_save_bytes|].
    destruct (decide _); [apply related_return | apply related_save_bytes].
  - apply related_save_then; [apply related_save_bytes|].
    apply related_save_each, related_fmap, IH.
  - apply related_throw.
  - exact IH.
  - apply related_throw.
  - apply related_registry_serialize_saving, related_fmap, IH.
  - apply related_registry_serialize_saving, related_fmap, IH.
Qed.

Lemma serialize_items_saving_related (items : list value) :
  related R (serialize_items_saving host r serialize_A items)
          (serialize_items_saving host r serialize_B items).
Proof using serialize_related.
  apply related_save_each, related_fmap, Forall_forall.
  intros v _. apply serialize_item_saving_related.
Qed.

End parametricity.

(** A stream archive that starts with [prefix] ends with the same outcome
    and with [prefix] before the bytes it would hold had it started empty. *)
Lemma stream_prefix (f : forall A, (list byte -> A -> A) -> saving (Archive := A))
    (prefix : list byte) :
  (forall R : list byte -> list byte -> Prop,
      (forall item a b, R a b -> R (stream_serialize item a) (stream_serialize item b)) ->
      related R (f _ stream_serialize) (f _ stream_serialize)) ->
  f _ stream_serialize prefix
  = ((f _ stream_serialize []).1, prefix ++ (f _ stream_serialize []).2).
Proof.
  intros Hf.
  destruct (Hf (fun a b => a = prefix ++ b)) with (a := prefix) (b := @nil byte) as [Ho Hs].
  - intros item a b ->. unfold stream_serialize. rewrite app_assoc. reflexivity.
  - rewrite app_nil_r. reflexivity.
  - destruct (f _ stream_serialize prefix) as [o s]. simpl in *. subst. reflexivity.
Qed.


Lemma written_prefix host r items prefix :
  serialize_items_saving host r stream_serialize items prefix
  = ((written host r items).1, prefix ++ (written host r items).2).
Proof.
  apply (stream_prefix (fun A s => serialize_items_saving host r s items)).
  intros R HR. apply serialize_items_saving_related, HR.
Qed.

(** The lazy archive holds what the stream archive holds. *)
Lemma output_serialize_stream item archive stream :
  in_bounds archive /\ contents archive = stream ->
  in_bounds (output_serialize item archive)
  /\ contents (output_serialize item archive) = stream_serialize item stream.
Proof.
  intros [Hb <-]. destruct (output_serialize_spec item archive Hb) as (Hc & Hb' & _).
  split; [exact Hb' | exact Hc].
Qed.

Lemma serialize_items_saving_contents host r items archive :
  in_bounds archive ->
  let call := serialize_items_saving host r output_serialize items archive in
  call.1 = (written host r items).1
  /\ in_bounds call.2
  /\ contents call.2 = contents archive ++ (written host r items).2.
Proof.
  intros Hb call.
  destruct (serialize_items_saving_related host r output_serialize stream_serialize
              (fun a s => in_bounds a /\ contents a = s) output_serialize_stream
              items archive (contents archive) (conj Hb eq_refl)) as (Ho & Hb' & Hc).
  rewrite written_prefix in Ho, Hc. simpl in Ho, Hc.
  fold call in Ho, Hb', Hc. auto.
Qed.

Lemma m_size_contents archive : in_bounds archive -> length (contents archive) = m_size archive.
Proof. unfold in_bounds, contents. intros Hb. rewrite length_take. lia. Qed.

(** ** [memory_output_archive::operator()] *)

(** The vector after a call, fitted, and what it holds. *)
Lemma memory_output_archive_call_contents host r items archive :
  let call := memory_output_archive_call host r items archive in
  length (m_output call.2) = m_size call.2
  /\ (in_bounds archive ->
      call.1 = (written host r items).1
      /\ m_output call.2 = contents archive ++ (written host r items).2
      /\ m_size call.2 = (m_size archive + length (written host r items).2)%nat).
Proof.
  intros call. unfold memory_output_archive_call in call. split.
  - unfold call.
    destruct (serialize_items_saving host r output_serialize items archive) as [o lazy].
    simpl. apply length_resize.
  - intros Hb.
    destruct (serialize_items_saving_contents host r items archive Hb) as (Ho & Hb' & Hc).
    unfold call.
    destruct (serialize_items_saving host r output_serialize items archive) as [o lazy].
    simpl in *. split; [exact Ho|].
    assert (m_size lazy = m_size archive + length (written host r items).2)%nat as Hsize.
    { rewrite <- (m_size_contents lazy Hb'), Hc, length_app, m_size_contents by exact Hb.
      reflexivity. }
    split; [|exact Hsize].
    rewrite <- Hc. unfold resize, contents.
    replace (m_size lazy - length (m_output lazy))%nat with 0%nat by (unfold in_bounds in Hb'; lia).
    apply app_nil_r.
Qed.

(** C2.  After every call of [memory_output_archive::operator()], whether
    it returns or an exception leaves it, the length of the vector is the
    logical size of the archive.  When the logical size was within the
    vector before the call, the vector afterwards is what the archive held
    before followed by the bytes the handlers wrote up to the return or the
    exception, and the logical size has grown by their number: in
    particular a call on a vector of length 100 and logical size 100 whose
    handlers write 20 bytes and then raise leaves the length and the
    logical size at 120. *)
Theorem memory_output_archive_call_fits host r items archive :
  let call := memory_output_archive_call host r items archive in
  length (m_output call.2) = m_size call.2
  /\ (in_bounds archive ->
      call.1 = (written host r items).1
      /\ m_output call.2 = contents archive ++ (written host r items).2
      /\ m_size call.2 = (m_size archive + length (written host r items).2)%nat)
  /\ (forall e bytes,
        written host r items = (raised e, bytes) -> length bytes = 20%nat ->
        length (m_output archive) = 100%nat -> m_size archive = 100%nat ->
        call.1 = raised e /\ length (m_output call.2) = 120%nat /\ m_size call.2 = 120%nat).
Proof.
  intros call.
  destruct (memory_output_archive_call_contents host r items archive) as [Hfit Hgen].
  fold call in Hfit, Hgen. split; [exact Hfit|]. split; [exact Hgen|].
  intros e bytes Hw Hlen Hvec Hsize.
  destruct Hgen as (Ho & Hout & Hsz); [unfold in_bounds; lia|].
  rewrite Hw in Ho, Hout, Hsz. simpl in Ho, Hout, Hsz.
  split; [exact Ho|]. rewrite Hout, Hsz, length_app, Hlen.
  unfold contents. rewrite length_take. lia.
Qed.

Lemma memory_output_archive_call_fits_witness :
  let archive := make_output_archive (replicate 100 x00) in
  let items := [Aggregate [Fundamental (replicate 20 x01); Pointer unique_ptr None]] in
  let call := memory_output_archive_call little_endian empty_registry items archive in
  in_bounds archive
  /\ call.1 = raised attempt_to_serialize_null_pointer_error
  /\ length (m_output call.2) = 120%nat
  /\ m_size call.2 = 120%nat.
Proof.
  intros archive items call.
  assert (in_bounds archive) as Hb by (vm_compute; lia).
  split; [exact Hb|].
  destruct (memory_output_archive_call_fits little_endian empty_registry items archive)
    as (_ & _ & Hscenario).
  apply (Hscenario attempt_to_serialize_null_pointer_error (replicate 20 x01));
    reflexivity.
Defined.

(** C8.  Saving a null owning pointer, unique or shared, to a polymorphic
    class or not, raises [attempt_to_serialize_null_pointer_error] and
    leaves the archive, whatever its type, as it was: nothing is written,
    and no id in the polymorphic case.  A [memory_output_archive] whose
    vector is fitted is left as it was by the whole call. *)
Theorem null_pointer_is_not_saved host r kind :
  (forall (Archive : Type) (serialize : list byte -> Archive -> Archive) (archive : Archive),
      serialize_item_saving host r serialize (Pointer kind None) archive
      = (raised attempt_to_serialize_null_pointer_error, archive)
      /\ serialize_item_saving host r serialize (PolymorphicPointer kind None) archive
         = (raised attempt_to_serialize_null_pointer_error, archive))
  /\ (forall archive, m_size archive = length (m_output archive) ->
        memory_output_archive_call host r [Pointer kind None] archive
        = (raised attempt_to_serialize_null_pointer_error, archive)
        /\ memory_output_archive_call host r [PolymorphicPointer kind None] archive
           = (raised attempt_to_serialize_null_pointer_error, archive)).
Proof.
  split.
  - intros Archive serialize archive. split; reflexivity.
  - intros [output size] Hfit. simpl in Hfit. subst size.
    unfold memory_output_archive_call, fit_vector. simpl.
    rewrite resize_length. split; reflexivity.
Qed.

Lemma null_pointer_is_not_saved_witness :
  let archive := make_output_archive [x01; x02; x03] in
  m_size archive = length (m_output archive)
  /\ memory_output_archive_call little_endian empty_registry
       [Pointer shared_ptr None] archive
     = (raised attempt_to_serialize_null_pointer_error, archive)
  /\ memory_output_archive_call little_endian empty_registry
       [PolymorphicPointer shared_ptr None] archive
     = (raised attempt_to_serialize_null_pointer_error, archive).
Proof.
  intros archive. split; [reflexivity|].
  apply (proj2 (null_pointer_is_not_saved little_endian empty_registry shared_ptr) archive).
  reflexivity.
Defined.

(** * The input archives *)

Lemma type_induction (P : type -> Prop) :
  (forall size, P (fundamental size)) ->
  (forall items, Forall P items -> P (aggregate items)) ->
  (forall item, P item -> P (resizable item)) ->
  (forall item_size, P (contiguous item_size)) ->
  (forall item, P item -> P (associative item)) ->
  (forall kind pointee, P pointee -> P (pointer kind pointee)) ->
  (forall kind base, P (polymorphic_pointer kind base)) ->
  forall t, P t.
Proof.
  intros HF HA HR HC HAs HP HPP.
  fix IH 1. intros t.
  assert (forall l, Forall P l) as Hall.
  { fix IHl 1. intros [|x l]; [constructor | constructor; [apply IH | apply IHl]]. }
  destruct t as [size|items|item|n|item|kind pointee|kind base].
  - apply HF.
  - apply HA, Hall.
  - apply HR, IH.
  - apply HC.
  - apply HAs, IH.
  - apply HP, IH.
  - apply HPP.
Qed.

(** A read that asks for more than is left raises [out_of_range] and
    changes neither the destination nor the archive. *)
Lemma input_serialize_out_of_range size item archive :
  (remaining archive < size)%nat ->
  input_serialize size item archive = (raised out_of_range, item, archive).
Proof.
  unfold remaining, input_serialize. intros Hsize.
  destruct (Nat.ltb_spec (length (m_input archive)) (size + m_offset archive)); [reflexivity | lia].
Qed.

(** A read that asks for no more than is left copies the next bytes. *)
Lemma input_serialize_returned size item archive :
  (size + m_offset archive <= length (m_input archive))%nat ->
  input_serialize size item archive
  = (returned, take size (drop (m_offset archive) (m_input archive)) ++ drop size item,
     {| m_input := m_input archive; m_offset := (m_offset archive + size)%nat |}).
Proof.
  unfold input_serialize. intros Hsize.
  destruct (Nat.ltb_spec (length (m_input archive)) (size + m_offset archive)); [lia | reflexivity].
Qed.

Lemma advances_input_serialize size item : advances (input_serialize size item).
Proof.
  intros archive. unfold input_serialize.
  destruct (Nat.ltb_spec (length (m_input archive)) (size + m_offset archive)); simpl.
  all: split; [reflexivity | lia].
Qed.

Section advances.

Variable host : byte_order.
Variable insert : value -> list value -> list value.

Lemma advances_load_unsigned size : advances (load_unsigned host size).
Proof using Type.
  intros archive. unfold load_unsigned.
  pose proof (advances_input_serialize size (object_representation host size 0) archive) as H.
  destruct (input_serialize _ _ archive) as [[o x] a']. exact H.
Qed.

Lemma advances_then {X Y} (f : memory_view_input_archive -> loaded X)
    (archive archive' : memory_view_input_archive) (g : memory_view_input_archive -> loaded Y) :
  advances g ->
  m_input archive' = m_input archive
  /\ (m_offset archive <= m_offset archive')%nat
  /\ ((m_offset archive <= length (m_input archive))%nat ->
      (m_offset archive' <= length (m_input archive))%nat) ->
  m_input (g archive').2 = m_input archive
  /\ (m_offset archive <= m_offset (g archive').2)%nat
  /\ ((m_offset archive <= length (m_input archive))%nat ->
      (m_offset (g archive').2 <= length (m_input archive))%nat).
Proof using Type.
  intros Hg (Hi & Ho & Hl). destruct (Hg archive') as (Hi' & Ho' & Hl').
  rewrite Hi in Hi', Hl'. repeat split; [congruence | lia | intros; apply Hl'; auto].
Qed.

Lemma advances_load_each (loaders : list loading) :
  Forall (fun load : loading => forall item, advances (load item)) loaders ->
  forall items, advances (load_each loaders items).
Proof using Type.
  induction 1 as [|load loaders Hload _ IH]; intros items archive; simpl.
  - repeat split; auto.
  - destruct items as [|item items]; [simpl; repeat split; auto|].
    pose proof (Hload item archive) as H1.
    destruct (load item archive) as [[o item'] a1]. simpl in H1.
    destruct o; [|exact H1..].
    pose proof (advances_then (load item) archive a1 _ (IH items) H1) as H2.
    destruct (load_each loaders items a1) as [[o2 items2] a2]. exact H2.
Qed.

Lemma advances_load_insert (load : loading) fresh count :
  (forall item, advances (load item)) ->
  forall items, advances (load_insert insert load fresh count items).
Proof using Type.
  intros Hload. induction count as [|count IH]; intros items archive; simpl.
  - repeat split; auto.
  - pose proof (Hload fresh archive) as H1.
    destruct (load fresh archive) as [[o item] a1]. simpl in H1.
    destruct o; [|exact H1..].
    apply (advances_then (load fresh) archive a1 _ (IH (insert item items)) H1).
Qed.

Ltac advance_with H :=
  match goal with
  | |- context [match ?call ?archive with _ => _ end] =>
      let H1 := fresh "H" in
      pose proof (H archive) as H1;
      destruct (call archive) as [[? ?] ?]; simpl in H1
  end.

Lemma advances_serialize_item_loading
    (registry_serialize : memory_view_input_archive -> loaded (option object)) :
  advances registry_serialize ->
  forall t item, advances (serialize_item_loading host insert registry_serialize t item).
Proof using Type.
  intros Hreg t.
  induction t as [size|ts IH|t IH|n|t IH|kind t IH|kind base] using type_induction;
    intros item archive.
  - destruct item; simpl; try (repeat split; auto; fail).
    pose proof (advances_input_serialize size representation archive) as H.
    destruct (input_serialize _ _ archive) as [[o x] a']. exact H.
  - destruct item; simpl; try (repeat split; auto; fail).
    assert (forall items, advances (load_each
              (serialize_item_loading host insert registry_serialize <$> ts) items)) as H.
    { apply advances_load_each, Forall_fmap. exact IH. }
    specialize (H items archive). destruct (load_each _ _ archive) as [[o x] a']. exact H.
  - destruct item; simpl; try (repeat split; auto; fail).
    pose proof (advances_load_unsigned sizeof_size_type archive) as H1.
    destruct (load_unsigned _ _ archive) as [[o size] a1]. simpl in H1.
    destruct o; [|exact H1..].
    set (items' := resize_items _ _ _).
    assert (advances (load_each (replicate (length items')
              (serialize_item_loading host insert registry_serialize t)) items')) as H.
    { apply advances_load_each, Forall_replicate. exact IH. }
    pose proof (advances_then (load_unsigned host sizeof_size_type) archive a1 _ H H1) as H2.
    destruct (load_each _ _ a1) as [[o2 x] a2]. exact H2.
  - destruct item; simpl; try (repeat split; auto; fail).
    pose proof (advances_load_unsigned sizeof_size_type archive) as H1.
    destruct (load_unsigned _ _ archive) as [[o size] a1]. simpl in H1.
    destruct o; [|exact H1..].
    destruct (decide (size = 0)); [exact H1|].
    match goal with |- context [input_serialize ?k ?d a1] =>
      pose proof (advances_then (load_unsigned host sizeof_size_type) archive a1 _
                    (advances_input_serialize k d) H1) as H2;
      destruct (input_serialize k d a1) as [[o2 x] a2] end.
    exact H2.
  - destruct item; simpl; try (repeat split; auto; fail).
    pose proof (advances_load_unsigned sizeof_size_type archive) as H1.
    destruct (load_unsigned _ _ archive) as [[o size] a1]. simpl in H1.
    destruct o; [|exact H1..].
    pose proof (advances_then (load_unsigned host sizeof_size_type) archive a1 _
                  (advances_load_insert _ (default_value t) (Z.to_nat size) IH items) H1) as H2.
    destruct (load_insert _ _ _ _ _ a1) as [[o2 x] a2]. exact H2.
  - destruct item; simpl; try (repeat split; auto; fail).
    pose proof (IH (default_value t) archive) as H1.
    destruct (serialize_item_loading _ _ _ t _ archive) as [[o x] a1].
    destruct o; exact H1.
  - destruct item; simpl; try (repeat split; auto; fail).
    pose proof (Hreg archive) as H1.
    destruct (registry_serialize archive) as [[o x] a1].
    destruct o; [|exact H1..].
    destruct x as [[chain subs]|]; [|exact H1].
    destruct (decide (base ∈ chain)); exact H1.
Qed.

Lemma advances_registry_serialize_loading r fuel :
  advances (registry_serialize_loading host insert r fuel).
Proof using Type.
  induction fuel as [|fuel IH]; intros archive; simpl.
  - repeat split; auto.
  - pose proof (advances_load_unsigned sizeof_id_type archive) as H1.
    destruct (load_unsigned _ _ archive) as [[o id] a1]. simpl in H1.
    destruct o; [|exact H1..].
    destruct (m_serialization_id_to_method r !! id) as [T|]; [|exact H1].
    assert (advances (load_each
              (serialize_item_loading host insert (registry_serialize_loading host insert r fuel)
                 <$> class_subobjects T) (default_value <$> class_subobjects T))) as H.
    { apply advances_load_each, Forall_fmap, Forall_forall. intros t _ item.
      apply advances_serialize_item_loading. exact IH. }
    pose proof (advances_then (load_unsigned host sizeof_id_type) archive a1 _ H H1) as H2.
    destruct (load_each _ _ a1) as [[o2 x] a2].
    destruct o2; exact H2.
Qed.

Lemma advances_serialize_items_loading r fuel ts items :
  advances (serialize_items_loading host insert r fuel ts items).
Proof using Type.
  apply advances_load_each, Forall_fmap, Forall_forall. intros t _ item.
  apply advances_serialize_item_loading, advances_registry_serialize_loading.
Qed.

End advances.

(** ** Reads past the end, and what the consuming archive erases *)

(** C5.  A read of the view archive that asks for more bytes than are left
    between the offset and the end of the input raises [out_of_range] and
    leaves the object it was to fill, and the archive, as they were; so
    does the load of a fundamental item.  The objects filled earlier in the
    same call keep what was read into them. *)
Theorem failing_read_keeps_destination host insert
    (registry_serialize : memory_view_input_archive -> loaded (option object)) :
  (forall size item archive,
      (remaining archive < size)%nat ->
      input_serialize size item archive = (raised out_of_range, item, archive))
  /\ (forall size representation archive,
        (remaining archive < size)%nat ->
        serialize_item_loading host insert registry_serialize
          (fundamental size) (Fundamental representation) archive
        = (raised out_of_range, Fundamental representation, archive))
  /\ (forall (load : loading) first first' archive archive' size representation loaders items,
        load first archive = (returned, first', archive') ->
        (remaining archive' < size)%nat ->
        load_each
          (load :: serialize_item_loading host insert registry_serialize (fundamental size)
                :: loaders)
          (first :: Fundamental representation :: items) archive
        = (raised out_of_range, first' :: Fundamental representation :: items, archive')).
Proof.
  split; [exact input_serialize_out_of_range|]. split.
  - intros size representation archive Hsize. simpl.
    rewrite input_serialize_out_of_range by exact Hsize. reflexivity.
  - intros load first first' archive archive' size representation loaders items Hfirst Hsize.
    simpl. rewrite Hfirst.
    rewrite input_serialize_out_of_range by exact Hsize. reflexivity.
Qed.

Lemma failing_read_keeps_destination_witness :
  let archive := {| m_input := [x01; x02; x03; x04; x05]; m_offset := 4 |} in
  let start := make_view_archive [x01; x02; x03; x04; x05] in
  let int32 := serialize_item_loading little_endian (fun item items => items ++ [item])
                 (registry_serialize_loading little_endian
                    (fun item items => items ++ [item]) empty_registry 0)
                 (fundamental 4) in
  let zero := Fundamental [x00; x00; x00; x00] in
  (remaining archive < 4)%nat
  /\ input_serialize 4 [x00; x00; x00; x00] archive
     = (raised out_of_range, [x00; x00; x00; x00], archive)
  /\ int32 zero archive = (raised out_of_range, zero, archive)
  /\ load_each [int32; int32] [zero; zero] start
     = (raised out_of_range, [Fundamental [x01; x02; x03; x04]; zero], archive).
Proof.
  intros archive start int32 zero.
  assert (remaining archive < 4)%nat as Hsize by (vm_compute; lia).
  destruct (failing_read_keeps_destination little_endian (fun item items => items ++ [item])
              (registry_serialize_loading little_endian
                 (fun item items => items ++ [item]) empty_registry 0))
    as (Hread & Hitem & Hcall).
  split; [exact Hsize|]. split; [apply Hread; exact Hsize|].
  split; [apply Hitem; exact Hsize|].
  apply (Hcall int32 zero (Fundamental [x01; x02; x03; x04]) start archive);
    [reflexivity | exact Hsize].
Defined.

(** What [memory_input_archive::operator()] does on either path out. *)
Lemma memory_input_archive_call_spec host insert r fuel ts items archive :
  let call := memory_input_archive_call host insert r fuel ts items archive in
  exists consumed,
    m_input_vector archive = consumed ++ m_input_vector call.2
    /\ serialize_items_loading host insert r fuel ts items
         (make_view_archive (m_input_vector archive))
       = (call.1.1, call.1.2,
          {| m_input := m_input_vector archive; m_offset := length consumed |})
    /\ view call.2 = make_view_archive (m_input_vector archive).
Proof.
  intros call. unfold memory_input_archive_call in call.
  pose proof (advances_serialize_items_loading host insert r fuel ts items
                (make_view_archive (m_input_vector archive))) as (Hin & _ & Hlen).
  unfold call.
  destruct (serialize_items_loading host insert r fuel ts items
              (make_view_archive (m_input_vector archive))) as [[o items'] [input offset]].
  simpl in *. subst input. specialize (Hlen ltac:(lia)).
  exists (take offset (m_input_vector archive)). unfold erase, get_offset. simpl.
  rewrite take_drop, length_take. split; [reflexivity|].
  split; [|reflexivity]. do 2 f_equal. lia.
Qed.

(** C6.  When [memory_input_archive::operator()] returns, the vector has
    lost, at its head, exactly the bytes the call read, and the offset of
    the archive is zero. *)
Theorem returned_load_erases_consumed host insert r fuel ts items archive items' archive' :
  memory_input_archive_call host insert r fuel ts items archive = (returned, items', archive') ->
  exists consumed,
    m_input_vector archive = consumed ++ m_input_vector archive'
    /\ serialize_items_loading host insert r fuel ts items
         (make_view_archive (m_input_vector archive))
       = (returned, items',
          {| m_input := m_input_vector archive; m_offset := length consumed |})
    /\ get_offset (view archive') = 0%nat.
Proof.
  intros Hcall.
  destruct (memory_input_archive_call_spec host insert r fuel ts items archive)
    as (consumed & Hvec & Hload & Hview).
  rewrite Hcall in Hvec, Hload, Hview. simpl in Hvec, Hload, Hview.
  exists consumed. split; [exact Hvec|]. split; [exact Hload|].
  rewrite Hview. reflexivity.
Qed.

Lemma returned_load_erases_consumed_witness :
  let archive := make_input_archive [x01; x02; x03; x04; x05] in
  exists consumed,
    m_input_vector archive = consumed ++ [x05]
    /\ serialize_items_loading little_endian (fun item items => items ++ [item])
         empty_registry 0 [fundamental 4] [Fundamental [x00; x00; x00; x00]]
         (make_view_archive (m_input_vector archive))
       = (returned, [Fundamental [x01; x02; x03; x04]],
          {| m_input := m_input_vector archive; m_offset := length consumed |})
    /\ get_offset (make_view_archive (m_input_vector archive)) = 0%nat.
Proof.
  intros archive.
  apply (returned_load_erases_consumed little_endian (fun item items => items ++ [item])
           empty_registry 0 [fundamental 4] [Fundamental [x00; x00; x00; x00]] archive
           [Fundamental [x01; x02; x03; x04]]
           {| m_input_vector := [x05];
              view := make_view_archive (m_input_vector archive) |}).
  reflexivity.
Defined.

(** C7 as stated fails: a load of two 4-byte items from a vector of five
    bytes raises [out_of_range] at the second item, and the four bytes the
    first item took are erased from the vector. *)
Lemma failing_load_erases_consumed :
  let archive := make_input_archive [x01; x02; x03; x04; x05] in
  let call := memory_input_archive_call little_endian (fun item items => items ++ [item])
                empty_registry 0 [fundamental 4; fundamental 4]
                [Fundamental [x00; x00; x00; x00]; Fundamental [x00; x00; x00; x00]]
                archive in
  call.1.1 = raised out_of_range
  /\ m_input_vector call.2 = [x05]
  /\ m_input_vector call.2 <> m_input_vector archive.
Proof.
  intros archive call. split; [reflexivity|]. split; [reflexivity|]. discriminate.
Qed.

(** C7, amended.  A read that would go past the end of the available bytes
    raises [out_of_range] and takes nothing; no call changes the bytes a
    view archive borrows.  A call of the consuming archive that ends with
    [out_of_range] erases from the head of the vector the bytes its earlier
    reads took, and nothing else: the vector is as it was when the first
    read of the call is the one that fails. *)
Theorem out_of_range_load host insert r fuel :
  (forall size item archive,
      (remaining archive < size)%nat ->
      input_serialize size item archive = (raised out_of_range, item, archive))
  /\ (forall ts items archive,
        m_input (serialize_items_loading host insert r fuel ts items archive).2
        = m_input archive)
  /\ (forall ts items archive items' archive',
        memory_input_archive_call host insert r fuel ts items archive
        = (raised out_of_range, items', archive') ->
        exists consumed,
          m_input_vector archive = consumed ++ m_input_vector archive'
          /\ serialize_items_loading host insert r fuel ts items
               (make_view_archive (m_input_vector archive))
             = (raised out_of_range, items',
                {| m_input := m_input_vector archive; m_offset := length consumed |}))
  /\ (forall size representation ts items archive,
        (length (m_input_vector archive) < size)%nat ->
        memory_input_archive_call host insert r fuel
          (fundamental size :: ts) (Fundamental representation :: items) archive
        = (raised out_of_range, Fundamental representation :: items,
           {| m_input_vector := m_input_vector archive;
              view := make_view_archive (m_input_vector archive) |})).
Proof.
  split; [exact input_serialize_out_of_range|]. split; [|split].
  - intros ts items archive.
    apply (advances_serialize_items_loading host insert r fuel ts items archive).
  - intros ts items archive items' archive' Hcall.
    destruct (memory_input_archive_call_spec host insert r fuel ts items archive)
      as (consumed & Hvec & Hload & _).
    rewrite Hcall in Hvec, Hload. simpl in Hvec, Hload.
    exists consumed. split; [exact Hvec | exact Hload].
  - intros size representation ts items archive Hsize.
    unfold memory_input_archive_call, serialize_items_loading. simpl.
    rewrite input_serialize_out_of_range by (unfold remaining; simpl; lia).
    reflexivity.
Qed.

Lemma out_of_range_load_witness :
  let insert := fun (item : value) (items : list value) => items ++ [item] in
  let archive := make_input_archive [x01; x02; x03; x04; x05] in
  let zero := Fundamental [x00; x00; x00; x00] in
  (remaining (view archive) < 8)%nat
  /\ input_serialize 8 [] (view archive) = (raised out_of_range, [], view archive)
  /\ (exists consumed,
        m_input_vector archive = consumed ++ [x05]
        /\ serialize_items_loading little_endian insert empty_registry 0
             [fundamental 4; fundamental 4] [zero; zero]
             (make_view_archive (m_input_vector archive))
           = (raised out_of_range, [Fundamental [x01; x02; x03; x04]; zero],
              {| m_input := m_input_vector archive; m_offset := length consumed |}))
  /\ memory_input_archive_call little_endian insert empty_registry 0
       [fundamental 8] [Fundamental (replicate 8 x00)] archive
     = (raised out_of_range, [Fundamental (replicate 8 x00)], archive).
Proof.
  intros insert archive zero.
  destruct (out_of_range_load little_endian insert empty_registry 0)
    as (Hread & _ & Hcall & Hfirst).
  assert (remaining (view archive) < 8)%nat as Hsize by (vm_compute; lia).
  split; [exact Hsize|]. split; [apply Hread; exact Hsize|]. split.
  - apply (Hcall [fundamental 4; fundamental 4] [zero; zero] archive
             [Fundamental [x01; x02; x03; x04]; zero]
             {| m_input_vector := [x05]; view := make_view_archive (m_input_vector archive) |}).
    reflexivity.
  - apply (Hfirst 8%nat (replicate 8 x00) [] [] archive). vm_compute. lia.
Defined.

(** * The registry *)

Lemma emplace_lookup_Some `{Countable K} {V} (m : gmap K V) key v key' v' :
  m !! key = Some v -> emplace key' v' m !! key = Some v.
Proof.
  intros Hm. unfold emplace. destruct (m !! key') eqn:Hk; [exact Hm|].
  rewrite lookup_insert_ne; [exact Hm|]. intros ->. congruence.
Qed.

Lemma emplace_lookup_new `{Countable K} {V} (m : gmap K V) key v :
  m !! key = None -> emplace key v m !! key = Some v.
Proof. intros Hm. unfold emplace. rewrite Hm. apply lookup_insert_eq. Qed.

Lemma emplace_lookup_ne `{Countable K} {V} (m : gmap K V) key key' v :
  key <> key' -> emplace key' v m !! key = m !! key.
Proof.
  intros Hne. unfold emplace. destruct (m !! key'); [reflexivity|].
  apply lookup_insert_ne. congruence.
Qed.

(** The names and the ids a list of registrations holds. *)
Lemma register_types_cons T id types registries :
  register_types ((T, id) :: types) registries
  = (registry_add id T (register_types types registries).1,
     registry_add id T (register_types types registries).2).
Proof.
  unfold register_types. simpl. destruct (foldr _ registries types). reflexivity.
Qed.

Lemma register_types_unregistered_id types id :
  id ∉ types.*2 ->
  m_serialization_id_to_method (register_types types (empty_registry, empty_registry)).1 !! id
  = None
  /\ m_serialization_id_to_method (register_types types (empty_registry, empty_registry)).2 !! id
     = None.
Proof.
  induction types as [|[T id'] types IH]; intros Hid.
  - split; apply lookup_empty.
  - rewrite register_types_cons. simpl in *.
    apply not_elem_of_cons in Hid as [Hne Hid]. destruct (IH Hid) as [IH1 IH2].
    rewrite !emplace_lookup_ne by exact Hne. auto.
Qed.

Lemma register_types_unregistered_name types name :
  name ∉ (fun T => type_name (class_chain T)) <$> types.*1 ->
  m_type_information_to_serialization_id
    (register_types types (empty_registry, empty_registry)).1 !! name = None
  /\ m_type_information_to_serialization_id
       (register_types types (empty_registry, empty_registry)).2 !! name = None.
Proof.
  induction types as [|[T id'] types IH]; intros Hname.
  - split; apply lookup_empty.
  - rewrite register_types_cons. simpl in *.
    apply not_elem_of_cons in Hname as [Hne Hname]. destruct (IH Hname) as [IH1 IH2].
    rewrite !emplace_lookup_ne by exact Hne. auto.
Qed.

(** Registrations with distinct ids and distinct class names are all
    found, in both registries. *)
Lemma register_types_registered types T id :
  NoDup types.*2 ->
  NoDup ((fun T => type_name (class_chain T)) <$> types.*1) ->
  (T, id) ∈ types ->
  let registries := register_types types (empty_registry, empty_registry) in
  m_serialization_id_to_method registries.1 !! id = Some T
  /\ m_serialization_id_to_method registries.2 !! id = Some T
  /\ m_type_information_to_serialization_id registries.1 !! type_name (class_chain T) = Some id
  /\ m_type_information_to_serialization_id registries.2 !! type_name (class_chain T) = Some id.
Proof.
  induction types as [|[T' id'] types IH]; intros Hids Hnames Hin; [inversion Hin|].
  rewrite register_types_cons. simpl in *.
  pose proof (NoDup_cons_1_1 _ _ Hids) as Hid. apply NoDup_cons_1_2 in Hids.
  pose proof (NoDup_cons_1_1 _ _ Hnames) as Hname. apply NoDup_cons_1_2 in Hnames.
  apply elem_of_cons in Hin as [Heq|Hin].
  - injection Heq as -> ->.
    destruct (register_types_unregistered_id types id' Hid) as [H1 H2].
    destruct (register_types_unregistered_name types _ Hname) as [H3 H4].
    rewrite !emplace_lookup_new by assumption. auto.
  - destruct (IH Hids Hnames Hin) as (H1 & H2 & H3 & H4).
    repeat split; apply emplace_lookup_Some; assumption.
Qed.

Lemma last_elem_of (chain : list string) d : chain <> [] -> List.last chain d ∈ chain.
Proof.
  induction chain as [|name [|name' chain] IH]; intros Hne; [congruence | left |].
  right. apply IH. discriminate.
Qed.

(** The most derived class of a chain of distinct classes is its last
    entry. *)
Lemma position_last chain :
  NoDup chain -> chain <> [] ->
  position (type_name chain) chain = Some (length chain - 1)%nat.
Proof.
  unfold type_name. induction chain as [|name chain IH]; intros Hdup Hne; [congruence|].
  pose proof (NoDup_cons_1_1 _ _ Hdup) as Hname. apply NoDup_cons_1_2 in Hdup.
  destruct (decide (chain = [])) as [->|Htail].
  - simpl. destruct (decide (name = name)); [reflexivity | congruence].
  - assert (List.last (name :: chain) EmptyString = List.last chain EmptyString) as ->
      by (destruct chain; [congruence | reflexivity]).
    cbn [position]. destruct (decide (name = List.last chain EmptyString)) as [Heq|_].
    + exfalso. apply Hname. rewrite Heq. apply last_elem_of. exact Htail.
    + rewrite IH by assumption. destruct chain; [congruence|]. simpl. f_equal. lia.
Qed.

(** C3 as stated fails.  A list that registers [student] and [person]
    under one id leaves the id with [person], registered first, and gives
    [student] the id all the same: a [student] saved through the wrapper is
    written as the id followed by its [person] part only, sixteen bytes
    where the id followed by the [student] saved by value are thirty-four.
    And a list that registers [student] under two ids saves a [student]
    under the id registered first, not under the other. *)
Lemma colliding_registration_is_sliced :
  (let types := [(student, 7); (person, 7)] in
   let r := (register_types types (empty_registry, empty_registry)).2 in
   let saved := memory_output_archive_call little_endian r [PolymorphicWrapper a_student]
                  (make_output_archive []) in
   let id := object_representation little_endian sizeof_id_type 7 in
   (student, 7) ∈ types
   /\ saved.1 = returned
   /\ m_output saved.2
      = id ++ (encoding little_endian r (Aggregate (take 2 a_student.2))).2
   /\ m_output saved.2 <> id ++ (encoding little_endian r (Aggregate a_student.2)).2
   /\ length (m_output saved.2) = 16%nat
   /\ length (id ++ (encoding little_endian r (Aggregate a_student.2)).2) = 34%nat)
  /\ (let types := [(student, 8); (student, 7)] in
      let r := (register_types types (empty_registry, empty_registry)).2 in
      let saved := memory_output_archive_call little_endian r [PolymorphicWrapper a_student]
                     (make_output_archive []) in
      (student, 8) ∈ types
      /\ saved.1 = returned
      /\ take 8 (m_output saved.2) = object_representation little_endian sizeof_id_type 7
      /\ take 8 (m_output saved.2) <> object_representation little_endian sizeof_id_type 8).
Proof.
  split.
  - split; [left|]. split; [vm_compute; reflexivity|]. split; [vm_compute; reflexivity|].
    split; [vm_compute; discriminate|]. split; vm_compute; reflexivity.
  - split; [left|]. split; [vm_compute; reflexivity|]. split; [vm_compute; reflexivity|].
    vm_compute; discriminate.
Qed.

(** C3, amended.  Let the registry of the saving archive map the name of
    the class [T] of an object to [id], and [id] to [T].  Saving the
    object through an owning pointer to a polymorphic base or through the
    polymorphic wrapper writes the 8 bytes of [id] and then saves the
    object as a [T] is saved by value.  When the name of the class of the
    object maps to no id, or to an id that maps to no class, the save
    raises [undeclared_polymorphic_type_error] and leaves the archive as it
    was.  A list of registrations with distinct ids and distinct classes,
    made into an empty registry, maps the name of each of its classes to
    the id of the class and the id to the class; the name of a class that
    is not in the list maps to no id. *)
Theorem registered_object_save host r kind chain subobjects
    (Archive : Type) (serialize : list byte -> Archive -> Archive) (archive : Archive) :
  let save := serialize_item_saving host r serialize in
  (forall T id,
      m_type_information_to_serialization_id r !! type_name chain = Some id ->
      m_serialization_id_to_method r !! id = Some T ->
      class_chain T = chain -> NoDup chain -> chain <> [] ->
      length subobjects = length chain ->
      length (object_representation host sizeof_id_type id) = 8%nat
      /\ save (PolymorphicPointer kind (Some (chain, subobjects))) archive
         = save_then (save_bytes serialize (object_representation host sizeof_id_type id))
             (save (Aggregate subobjects)) archive
      /\ save (PolymorphicWrapper (chain, subobjects)) archive
         = save_then (save_bytes serialize (object_representation host sizeof_id_type id))
             (save (Aggregate subobjects)) archive)
  /\ (m_type_information_to_serialization_id r !! type_name chain = None
      \/ (exists id, m_type_information_to_serialization_id r !! type_name chain = Some id
                     /\ m_serialization_id_to_method r !! id = None) ->
      save (PolymorphicPointer kind (Some (chain, subobjects))) archive
      = (raised undeclared_polymorphic_type_error, archive)
      /\ save (PolymorphicWrapper (chain, subobjects)) archive
         = (raised undeclared_polymorphic_type_error, archive))
  /\ (forall types,
        r = (register_types types (empty_registry, empty_registry)).2 ->
        (forall T id,
            NoDup types.*2 ->
            NoDup ((fun T => type_name (class_chain T)) <$> types.*1) ->
            (T, id) ∈ types ->
            m_type_information_to_serialization_id r !! type_name (class_chain T) = Some id
            /\ m_serialization_id_to_method r !! id = Some T)
        /\ (type_name chain ∉ (fun T => type_name (class_chain T)) <$> types.*1 ->
            m_type_information_to_serialization_id r !! type_name chain = None)).
Proof.
  intros save. split; [|split].
  - intros T id Hid Hmethod Hchain Hdup Hne Hlen.
    split.
    { unfold object_representation.
      destruct host; rewrite ?length_reverse, length_fmap;
        apply Nat2Z.inj; rewrite length_Z_to_little_endian; reflexivity || lia. }
    assert (registry_serialize_saving host r serialize chain (save <$> subobjects) archive
            = save_then (save_bytes serialize (object_representation host sizeof_id_type id))
                (save (Aggregate subobjects)) archive) as Hsave.
    { unfold registry_serialize_saving. rewrite Hid, Hmethod, Hchain.
      rewrite position_last by assumption.
      rewrite take_ge by (rewrite length_fmap; lia). reflexivity. }
    split; exact Hsave.
  - intros Hnone. unfold save. cbn [serialize_item_saving].
    unfold registry_serialize_saving.
    destruct Hnone as [Hname|(id & Hname & Hmethod)].
    + rewrite Hname. split; reflexivity.
    + rewrite Hname, Hmethod. split; reflexivity.
  - intros types ->. split.
    + intros T id Hids Hnames Hin.
      destruct (register_types_registered types T id Hids Hnames Hin) as (_ & Hmethod & _ & Hid).
      split; [exact Hid | exact Hmethod].
    + intros Hname.
      exact (proj2 (register_types_unregistered_name types _ Hname)).
Qed.

Lemma registered_object_save_witness :
  let r := documented_registries.2 in
  let save := serialize_item_saving little_endian r stream_serialize in
  let id := make_id "v1::student" in
  ((student, id) ∈ documented_types
   /\ NoDup documented_types.*2
   /\ NoDup ((fun T => type_name (class_chain T)) <$> documented_types.*1)
   /\ NoDup a_student.1 /\ a_student.1 <> [] /\ length a_student.2 = length a_student.1)
  /\ (m_type_information_to_serialization_id r !! type_name a_student.1 = Some id
      /\ m_serialization_id_to_method r !! id = Some student)
  /\ length (object_representation little_endian sizeof_id_type id) = 8%nat
  /\ save (PolymorphicPointer unique_ptr (Some a_student)) []
     = save_then (save_bytes stream_serialize
                    (object_representation little_endian sizeof_id_type id))
         (save (Aggregate a_student.2)) []
  /\ save (PolymorphicWrapper a_student) []
     = save_then (save_bytes stream_serialize
                    (object_representation little_endian sizeof_id_type id))
         (save (Aggregate a_student.2)) [].
Proof.
  intros r save id.
  assert ((student, id) ∈ documented_types) as Hin by (right; left).
  assert (NoDup documented_types.*2) as Hids
    by (apply (bool_decide_unpack _); vm_compute; exact I).
  assert (NoDup ((fun T => type_name (class_chain T)) <$> documented_types.*1)) as Hnames
    by (apply (bool_decide_unpack _); vm_compute; exact I).
  assert (NoDup a_student.1) as Hdup by (apply (bool_decide_unpack _); vm_compute; exact I).
  assert (a_student.1 <> []) as Hne by discriminate.
  assert (length a_student.2 = length a_student.1) as Hlen by reflexivity.
  split; [auto 10|].
  destruct (registered_object_save little_endian r unique_ptr a_student.1 a_student.2
              (list byte) stream_serialize []) as (Hsave & _ & Hlist).
  destruct (proj1 (Hlist documented_types eq_refl) student id Hids Hnames Hin)
    as [Hid Hmethod].
  split; [split; [exact Hid | exact Hmethod]|].
  exact (Hsave student id Hid Hmethod eq_refl Hdup Hne Hlen).
Defined.

(** ** Loading an owning pointer to a polymorphic class *)

Lemma load_unsigned_returned host size archive value archive' :
  load_unsigned host size archive = (returned, value, archive') ->
  m_input archive' = m_input archive /\ m_offset archive' = (m_offset archive + size)%nat.
Proof.
  unfold load_unsigned, input_serialize.
  destruct (Nat.ltb_spec (length (m_input archive)) (size + m_offset archive));
    intros Heq; [discriminate|].
  injection Heq as _ <-. split; reflexivity.
Qed.

Lemma registry_serialize_loading_returned host insert r fuel archive loaded archive' :
  registry_serialize_loading host insert r fuel archive = (returned, loaded, archive') ->
  m_input archive' = m_input archive
  /\ (m_offset archive + 8 <= m_offset archive')%nat
  /\ ((m_offset archive <= length (m_input archive))%nat ->
      (m_offset archive' <= length (m_input archive))%nat).
Proof.
  intros Hload.
  pose proof (advances_registry_serialize_loading host insert r fuel archive) as (Hin & _ & Hle).
  rewrite Hload in Hin, Hle. simpl in Hin, Hle. split; [exact Hin|]. split; [|exact Hle].
  destruct fuel as [|fuel]; [discriminate|]. simpl in Hload.
  destruct (load_unsigned host sizeof_id_type archive) as [[o id] a1] eqn:Hid.
  destruct o; try discriminate.
  apply load_unsigned_returned in Hid as [Hin1 Hoff1].
  destruct (m_serialization_id_to_method r !! id) as [T|]; [|discriminate].
  match type of Hload with context [load_each ?l ?d a1] =>
    pose proof (advances_load_each l) as Hadv; destruct (load_each l d a1) as [[o2 x] a2] eqn:Hsub
  end.
  assert (m_offset a1 <= m_offset a2)%nat as Hmono.
  { match type of Hsub with load_each ?l ?d a1 = _ =>
      assert (advances (load_each l d)) as Had end.
    { apply Hadv, Forall_fmap, Forall_forall. intros t _ item.
      apply advances_serialize_item_loading, advances_registry_serialize_loading. }
    destruct (Had a1) as (_ & Hm & _). rewrite Hsub in Hm. exact Hm. }
  destruct o2; try discriminate. injection Hload as _ <-.
  change sizeof_id_type with 8%nat in Hoff1. lia.
Qed.

(** C10.  When the registry has loaded an object whose class is not the
    class the pointer is declared to point to, nor derived from it, the
    load of the pointer raises [polymorphic_type_mismatch_error] and the
    pointer is as it was before the call; the loaded object is dropped, and
    the bytes read for it, its id among them, stay read: a consuming
    archive erases them from the vector. *)
Theorem mismatched_load_keeps_pointer host insert r fuel kind base kind' pointee
    archive chain subobjects archive' :
  registry_serialize_loading host insert r fuel archive
  = (returned, Some (chain, subobjects), archive') ->
  base ∉ chain ->
  serialize_item_loading host insert (registry_serialize_loading host insert r fuel)
    (polymorphic_pointer kind base) (PolymorphicPointer kind' pointee) archive
  = (raised polymorphic_type_mismatch_error, PolymorphicPointer kind' pointee, archive')
  /\ m_input archive' = m_input archive
  /\ (m_offset archive + 8 <= m_offset archive')%nat
  /\ (forall input,
        archive = make_view_archive (m_input_vector input) ->
        memory_input_archive_call host insert r fuel [polymorphic_pointer kind base]
          [PolymorphicPointer kind' pointee] input
        = (raised polymorphic_type_mismatch_error, [PolymorphicPointer kind' pointee],
           {| m_input_vector := drop (m_offset archive') (m_input_vector input);
              view := make_view_archive (m_input_vector input) |})).
Proof.
  intros Hload Hbase.
  destruct (registry_serialize_loading_returned _ _ _ _ _ _ _ Hload) as (Hin & Hoff & _).
  assert (serialize_item_loading host insert (registry_serialize_loading host insert r fuel)
            (polymorphic_pointer kind base) (PolymorphicPointer kind' pointee) archive
          = (raised polymorphic_type_mismatch_error, PolymorphicPointer kind' pointee, archive'))
    as Hitem.
  { simpl. rewrite Hload. destruct (decide (base ∈ chain)); [contradiction | reflexivity]. }
  split; [exact Hitem|]. split; [exact Hin|]. split; [exact Hoff|].
  intros input ->. unfold memory_input_archive_call, serialize_items_loading.
  cbn [fmap list_fmap load_each]. rewrite Hitem.
  unfold erase, get_offset, reset. destruct archive' as [input' offset']. simpl in *.
  subst input'. reflexivity.
Qed.

Lemma mismatched_load_keeps_pointer_witness :
  let bytes := (encoding little_endian documented_registries.2
                  (PolymorphicPointer unique_ptr (Some a_student))).2 in
  let load := registry_serialize_loading little_endian insert_back documented_registries.1 1 in
  let end_ := {| m_input := bytes; m_offset := length bytes |} in
  (load (make_view_archive bytes) = (returned, Some a_student, end_)
   /\ "other" ∉ a_student.1)
  /\ serialize_item_loading little_endian insert_back load
       (polymorphic_pointer shared_ptr "other") (PolymorphicPointer shared_ptr None)
       (make_view_archive bytes)
     = (raised polymorphic_type_mismatch_error, PolymorphicPointer shared_ptr None, end_)
  /\ memory_input_archive_call little_endian insert_back documented_registries.1 1
       [polymorphic_pointer shared_ptr "other"] [PolymorphicPointer shared_ptr None]
       (make_input_archive bytes)
     = (raised polymorphic_type_mismatch_error, [PolymorphicPointer shared_ptr None],
        {| m_input_vector := []; view := make_view_archive bytes |}).
Proof.
  intros bytes load end_.
  assert (load (make_view_archive bytes) = (returned, Some a_student, end_)) as Hload
    by (vm_compute; reflexivity).
  assert ("other" ∉ a_student.1) as Hbase
    by (apply (bool_decide_unpack _); vm_compute; exact I).
  split; [split; assumption|].
  destruct (mismatched_load_keeps_pointer little_endian insert_back documented_registries.1 1
              shared_ptr "other" shared_ptr None (make_view_archive bytes)
              a_student.1 a_student.2 end_ Hload Hbase) as (Hitem & _ & _ & Hcall).
  split; [exact Hitem|].
  exact (Hcall (make_input_archive bytes) eq_refl).
Defined.

(** * Object representations *)

Lemma Z_of_byte_of_Z z : 0 <= z < 256 -> Z_of_byte (byte_of_Z z) = z.
Proof.
  intros Hz. unfold Z_of_byte, byte_of_Z. rewrite Z.mod_small by exact Hz.
  destruct (Byte.of_N (Z.to_N z)) as [b|] eqn:Hb.
  - simpl. rewrite (Byte.to_of_N _ Hb). lia.
  - apply Byte.of_N_None_iff in Hb. lia.
Qed.

Lemma Z_of_byte_of_Z_list (l : list Z) :
  Forall (fun z => 0 <= z < 2 ^ 8) l -> Z_of_byte <$> (byte_of_Z <$> l) = l.
Proof.
  induction 1 as [|z l Hz _ IH]; [reflexivity|].
  rewrite !fmap_cons, IH, Z_of_byte_of_Z by (change 256 with (2 ^ 8); exact Hz). reflexivity.
Qed.

Lemma length_object_representation host n z : length (object_representation host n z) = n.
Proof.
  unfold object_representation.
  destruct host; rewrite ?length_reverse, length_fmap;
    apply Nat2Z.inj; rewrite length_Z_to_little_endian; reflexivity || lia.
Qed.

Lemma object_value_representation host n z :
  object_value host (object_representation host n z) = z mod 2 ^ (Z.of_nat n * 8).
Proof.
  unfold object_value, object_representation.
  assert (little_endian_to_Z 8 (Z_of_byte <$> (byte_of_Z <$> Z_to_little_endian (Z.of_nat n) 8 z))
          = z mod 2 ^ (Z.of_nat n * 8)) as H.
  { rewrite Z_of_byte_of_Z_list by (apply Z_to_little_endian_bound; lia).
    apply little_endian_to_Z_to_little_endian; lia. }
  destruct host; [exact H | rewrite reverse_involutive; exact H].
Qed.

Lemma size_type_small z : 0 <= z < 2 ^ 32 -> size_type z = z.
Proof. intros Hz. unfold size_type, uint. apply Z.mod_small, Hz. Qed.

(** * The size prefix *)

(** What the stream archive receives for a container: the count, as a
    [size_type], then the items. *)
Lemma encoding_sequence host r items :
  encoding host r (Resizable items)
  = ((written host r items).1,
     object_representation host sizeof_size_type (size_type (Z.of_nat (length items)))
       ++ (written host r items).2)
  /\ encoding host r (Associative items)
     = ((written host r items).1,
        object_representation host sizeof_size_type (size_type (Z.of_nat (length items)))
          ++ (written host r items).2).
Proof.
  unfold encoding. cbn [serialize_item_saving].
  change (save_each (serialize_item_saving host r stream_serialize <$> items))
    with (serialize_items_saving host r stream_serialize items).
  unfold save_then, save_size, save_bytes. cbn beta iota.
  rewrite written_prefix. split; reflexivity.
Qed.

Lemma encoding_contiguous host r item_size data :
  let size := size_type (Z.of_nat (length data / item_size)) in
  encoding host r (Contiguous item_size data)
  = (returned,
     object_representation host sizeof_size_type size
       ++ (if decide (size = 0) then []
           else take (Z.to_nat (size_type (size * Z.of_nat item_size))) data)).
Proof.
  intros size. unfold encoding. cbn [serialize_item_saving]. fold size.
  unfold save_then, save_size, save_bytes. cbn beta iota.
  assert (size_type size = size) as ->
    by (unfold size, size_type, uint; apply Z.mod_mod; lia).
  destruct (decide (size = 0)); [rewrite app_nil_r|]; reflexivity.
Qed.





(** * The round trip *)

Lemma holds_next_nil archive :
  (m_offset archive <= length (m_input archive))%nat -> holds_next archive [].
Proof. intros Hle. split; [exact Hle|]. eexists. reflexivity. Qed.

Lemma holds_next_app archive bytes bytes' :
  holds_next archive (bytes ++ bytes') ->
  holds_next archive bytes /\ holds_next (advance (length bytes) archive) bytes'.
Proof.
  intros [Hle [rest Hrest]].
  assert (length (drop (m_offset archive) (m_input archive))
          = length ((bytes ++ bytes') ++ rest)) as Hlen by (rewrite Hrest; reflexivity).
  rewrite length_drop, !length_app in Hlen.
  split; split; simpl.
  - exact Hle.
  - exists (bytes' ++ rest). rewrite Hrest, app_assoc. reflexivity.
  - lia.
  - exists rest. rewrite <- drop_drop, Hrest, <- app_assoc.
    rewrite drop_app_length. reflexivity.
Qed.

Lemma advance_advance n n' archive :
  advance n' (advance n archive) = advance (n + n') archive.
Proof. unfold advance. simpl. f_equal. lia. Qed.

Lemma advance_0 archive : advance 0 archive = archive.
Proof. destruct archive. unfold advance. simpl. f_equal. lia. Qed.

(** A read of as many bytes as the archive is about to give. *)
Lemma input_serialize_reads bytes item :
  (length item <= length bytes)%nat ->
  reads (input_serialize (length bytes) item) bytes bytes.
Proof.
  intros Hitem archive [Hle [rest Hrest]].
  assert (length (drop (m_offset archive) (m_input archive)) = length (bytes ++ rest)) as Hlen
    by (rewrite Hrest; reflexivity).
  rewrite length_drop, length_app in Hlen.
  rewrite input_serialize_returned by lia.
  rewrite Hrest, take_app_length, drop_ge, app_nil_r by exact Hitem. reflexivity.
Qed.

Lemma load_unsigned_reads host size z :
  0 <= z < 2 ^ (Z.of_nat size * 8) ->
  reads (load_unsigned host size) (object_representation host size z) z.
Proof.
  intros Hz archive Hnext. unfold load_unsigned.
  pose proof (input_serialize_reads (object_representation host size z)
                (object_representation host size 0)) as Hread.
  rewrite !length_object_representation in Hread.
  rewrite (Hread (Nat.le_refl _) archive Hnext).
  rewrite object_value_representation, length_object_representation, Z.mod_small by exact Hz.
  reflexivity.
Qed.

(** ** What the stream archive receives *)

Lemma written_nil host r : written host r [] = (returned, []).
Proof. reflexivity. Qed.

Lemma written_cons host r item items :
  written host r (item :: items)
  = match (encoding host r item).1 with
    | returned => ((written host r items).1, (encoding host r item).2 ++ (written host r items).2)
    | _ => encoding host r item
    end.
Proof.
  unfold written, serialize_items_saving. cbn [fmap list_fmap save_each].
  unfold save_then. fold (encoding host r item).
  destruct (encoding host r item) as [o bytes]. simpl.
  destruct o; try reflexivity.
  change (save_each (serialize_item_saving host r stream_serialize <$> items))
    with (serialize_items_saving host r stream_serialize items).
  rewrite written_prefix. reflexivity.
Qed.

Lemma encoding_aggregate host r items : encoding host r (Aggregate items) = written host r items.
Proof. reflexivity. Qed.

Lemma encoding_fundamental host r representation :
  encoding host r (Fundamental representation) = (returned, representation).
Proof. reflexivity. Qed.

Lemma encoding_pointer host r kind pointee :
  encoding host r (Pointer kind (Some pointee)) = encoding host r pointee.
Proof. reflexivity. Qed.

Lemma encoding_polymorphic host r kind chain subobjects T id :
  m_type_information_to_serialization_id r !! type_name chain = Some id ->
  m_serialization_id_to_method r !! id = Some T ->
  class_chain T = chain -> NoDup chain -> chain <> [] ->
  length subobjects = length chain ->
  encoding host r (PolymorphicPointer kind (Some (chain, subobjects)))
  = ((written host r subobjects).1,
     object_representation host sizeof_id_type id ++ (written host r subobjects).2).
Proof.
  intros Hid Hmethod Hchain Hdup Hne Hlen.
  unfold encoding. cbn [serialize_item_saving]. unfold registry_serialize_saving.
  rewrite Hid, Hmethod, Hchain, position_last by assumption.
  rewrite take_ge by (rewrite length_fmap; lia).
  change (save_each (serialize_item_saving host r stream_serialize <$> subobjects))
    with (serialize_items_saving host r stream_serialize subobjects).
  unfold save_then, save_bytes. cbn beta iota.
  rewrite written_prefix. reflexivity.
Qed.

Lemma all_items_replicate (P : value -> type -> Prop) items t :
  all_items (fun item => P item t) items -> all_items2 P items (replicate (length items) t).
Proof. induction items as [|item items IH]; simpl; [auto|]. intros [H1 H2]. auto. Qed.

Lemma all_items2_length (P : value -> type -> Prop) items ts :
  all_items2 P items ts -> length items = length ts.
Proof.
  revert ts. induction items as [|item items IH]; intros [|t ts]; simpl; try tauto.
  intros [_ H]. f_equal. apply IH, H.
Qed.

Section round_trip.

Variable host : byte_order.
Variable insert : value -> list value -> list value.
Variable loading_registry saving_registry : registry.

Let load (fuel : nat) : type -> loading :=
  serialize_item_loading host insert
    (registry_serialize_loading host insert loading_registry fuel).

Let contract : value -> type -> Prop := in_contract insert loading_registry saving_registry.

(** The statement of the induction: an item in contract is saved without
    an exception, and a load into a default-constructed object of its type
    reads it back. *)
Let round_trips (v : value) : Prop :=
  forall t fuel, contract v t -> (polymorphic_depth v <= fuel)%nat ->
    (encoding host saving_registry v).1 = returned
    /\ reads (load fuel t (default_value t)) (encoding host saving_registry v).2 v.

Lemma load_each_round_trip items :
  Forall round_trips items ->
  forall ts fuel, all_items2 contract items ts -> (depth_items items <= fuel)%nat ->
    (written host saving_registry items).1 = returned
    /\ reads (load_each (load fuel <$> ts) (default_value <$> ts))
             (written host saving_registry items).2 items.
Proof using Type.
  induction 1 as [|item items Hitem _ IH]; intros [|t ts] fuel Hts Hfuel;
    simpl in Hts; try contradiction.
  - split; [reflexivity|]. intros archive Hnext. simpl. rewrite advance_0. reflexivity.
  - destruct Hts as [Ht Hts]. unfold depth_items in Hfuel. simpl in Hfuel.
    fold (depth_items items) in Hfuel.
    destruct (Hitem t fuel Ht ltac:(lia)) as [Ho Hread].
    destruct (IH ts fuel Hts ltac:(lia)) as [Hos Hreads].
    rewrite written_cons, Ho. simpl. split; [exact Hos|].
    intros archive Hnext. apply holds_next_app in Hnext as [Hnext1 Hnext2].
    cbn [fmap list_fmap load_each].
    change (list_fmap type loading (load fuel) ts) with (load fuel <$> ts).
    change (list_fmap type value default_value ts) with (default_value <$> ts).
    rewrite (Hread archive Hnext1), (Hreads _ Hnext2).
    rewrite advance_advance, length_app. reflexivity.
Qed.

Lemma load_insert_round_trip items :
  Forall round_trips items ->
  forall t fuel, all_items (fun item => contract item t) items ->
    (depth_items items <= fuel)%nat ->
    (written host saving_registry items).1 = returned
    /\ forall container,
        reads (load_insert insert (load fuel t) (default_value t) (length items) container)
              (written host saving_registry items).2
              (foldl (fun container item => insert item container) container items).
Proof using Type.
  induction 1 as [|item items Hitem _ IH]; intros t fuel Hts Hfuel; simpl in Hts.
  - split; [reflexivity|]. intros container archive Hnext. simpl.
    rewrite advance_0. reflexivity.
  - destruct Hts as [Ht Hts]. unfold depth_items in Hfuel. simpl in Hfuel.
    fold (depth_items items) in Hfuel.
    destruct (Hitem t fuel Ht ltac:(lia)) as [Ho Hread].
    destruct (IH t fuel Hts ltac:(lia)) as [Hos Hreads].
    rewrite written_cons, Ho. simpl. split; [exact Hos|].
    intros container archive Hnext. apply holds_next_app in Hnext as [Hnext1 Hnext2].
    rewrite (Hread archive Hnext1), (Hreads _ _ Hnext2).
    rewrite advance_advance, length_app. reflexivity.
Qed.

Lemma size_type_length (items : list value) :
  Z.of_nat (length items) < 2 ^ 32 ->
  size_type (Z.of_nat (length items)) = Z.of_nat (length items)
  /\ 0 <= Z.of_nat (length items) < 2 ^ (Z.of_nat sizeof_size_type * 8).
Proof using Type.
  intros Hlen. split; [apply size_type_small; lia|].
  change (2 ^ (Z.of_nat sizeof_size_type * 8)) with (2 ^ 32). lia.
Qed.

Lemma round_trip_resizable items :
  Forall round_trips items -> round_trips (Resizable items).
Proof using Type.
  intros IH t fuel Ht Hfuel. destruct t; simpl in Ht; try contradiction.
  destruct Ht as [Hlen Hts].
  destruct (size_type_length items Hlen) as [Hsize Hrange].
  destruct (load_each_round_trip items IH (replicate (length items) t) fuel
              (all_items_replicate _ _ _ Hts) Hfuel) as [Hos Hreads].
  rewrite (proj1 (encoding_sequence host saving_registry items)), Hsize. simpl.
  split; [exact Hos|].
  intros archive Hnext. apply holds_next_app in Hnext as [Hnext1 Hnext2].
  unfold load in *. cbn [serialize_item_loading default_value].
  rewrite (load_unsigned_reads host sizeof_size_type _ Hrange archive Hnext1).
  rewrite Nat2Z.id. unfold resize_items. rewrite take_nil, Nat.sub_0_r, app_nil_l.
  rewrite length_replicate.
  rewrite !fmap_replicate in Hreads. unfold loading in *. rewrite (Hreads _ Hnext2).
  rewrite advance_advance, length_app. reflexivity.
Qed.

Lemma round_trip_associative items :
  Forall round_trips items -> round_trips (Associative items).
Proof using Type.
  intros IH t fuel Ht Hfuel. destruct t; simpl in Ht; try contradiction.
  destruct Ht as (Hlen & Hts & Hinsert).
  destruct (size_type_length items Hlen) as [Hsize Hrange].
  destruct (load_insert_round_trip items IH t fuel Hts Hfuel) as [Hos Hreads].
  rewrite (proj2 (encoding_sequence host saving_registry items)), Hsize. simpl.
  split; [exact Hos|].
  intros archive Hnext. apply holds_next_app in Hnext as [Hnext1 Hnext2].
  unfold load in *. cbn [serialize_item_loading default_value].
  rewrite (load_unsigned_reads host sizeof_size_type _ Hrange archive Hnext1).
  rewrite Nat2Z.id, (Hreads [] _ Hnext2), Hinsert.
  rewrite advance_advance, length_app. reflexivity.
Qed.

Lemma round_trip_contiguous item_size data : round_trips (Contiguous item_size data).
Proof using Type.
  intros t fuel Ht _. destruct t as [| | |n| | |]; simpl in Ht; try contradiction.
  destruct Ht as (<- & Hpos & Hmod & Hlen).
  assert (length data / item_size * item_size = length data)%nat as Hexact by divlia.
  assert (Z.of_nat (length data / item_size) < 2 ^ 32) as Hcount by divlia.
  rewrite encoding_contiguous. cbn zeta.
  rewrite (size_type_small (Z.of_nat (length data / item_size))) by lia.
  rewrite <- Nat2Z.inj_mul, Hexact, (size_type_small (Z.of_nat (length data))) by lia.
  rewrite Nat2Z.id, firstn_all. simpl.
  split; [reflexivity|].
  intros archive Hnext. apply holds_next_app in Hnext as [Hnext1 Hnext2].
  unfold load in *. cbn [serialize_item_loading default_value].
  rewrite (load_unsigned_reads host sizeof_size_type (Z.of_nat (length data / item_size)))
    by (assumption || (change (2 ^ (Z.of_nat sizeof_size_type * 8)) with (2 ^ 32); lia)).
  rewrite Nat2Z.id, Hexact.
  assert (resize (length data) [] = replicate (length data) x00) as ->
    by (unfold resize; rewrite take_nil, Nat.sub_0_r; reflexivity).
  destruct (decide (Z.of_nat (length data / item_size) = 0)) as [Hzero|Hnonzero].
  - assert (length data = 0)%nat as Hnil by lia.
    apply nil_length_inv in Hnil. subst data. simpl.
    rewrite app_nil_r. reflexivity.
  - rewrite length_replicate.
    assert (length data / item_size * item_size = length data)%nat as Hexact' by exact Hexact.
    rewrite (size_type_small (Z.of_nat (length data / item_size))) by lia.
    rewrite <- Nat2Z.inj_mul, Hexact, (size_type_small (Z.of_nat (length data))) by lia.
    rewrite Nat2Z.id.
    rewrite (input_serialize_reads data (replicate (length data) x00))
      by (rewrite ?length_replicate; auto).
    rewrite advance_advance, length_app. reflexivity.
Qed.

Lemma round_trip_polymorphic kind chain subobjects :
  Forall round_trips subobjects ->
  round_trips (PolymorphicPointer kind (Some (chain, subobjects))).
Proof using Type.
  intros IH t fuel Ht Hfuel. destruct t as [| | | | | |kind' base]; simpl in Ht; try contradiction.
  destruct Ht as (<- & Hbase & Hdup & Hne & Hlen & T & id
                  & (Hid & Hname & Hsave & Hload) & Hchain & Hsubs).
  simpl in Hfuel. fold (depth_items subobjects) in Hfuel.
  destruct fuel as [|fuel]; [lia|].
  destruct (load_each_round_trip subobjects IH (class_subobjects T) fuel Hsubs ltac:(lia))
    as [Hos Hreads].
  rewrite Hchain in Hname.
  rewrite (encoding_polymorphic host saving_registry kind chain subobjects T id)
    by assumption.
  simpl. split; [exact Hos|].
  intros archive Hnext. apply holds_next_app in Hnext as [Hnext1 Hnext2].
  unfold load in *. cbn [serialize_item_loading default_value registry_serialize_loading].
  rewrite (load_unsigned_reads host sizeof_id_type id)
    by (assumption || (change (2 ^ (Z.of_nat sizeof_id_type * 8)) with (2 ^ 64); lia)).
  rewrite Hload. unfold loading in *. rewrite (Hreads _ Hnext2), Hchain.
  destruct (decide (base ∈ chain)); [|contradiction].
  rewrite advance_advance, length_app. reflexivity.
Qed.

(** The induction: every item in contract round-trips. *)
Lemma round_trip_item v : round_trips v.
Proof using Type.
  induction v as [rep|items IH|items IH|n data|items IH|kind|kind p IH|kind
                  |kind chain subs IH|chain subs IH] using value_induction.
  - intros t fuel Ht _. destruct t; simpl in Ht; try contradiction. subst size.
    split; [reflexivity|]. intros archive Hnext.
    unfold load. cbn [serialize_item_loading default_value].
    rewrite (input_serialize_reads rep (replicate (length rep) x00))
      by (rewrite ?length_replicate; auto).
    reflexivity.
  - intros t fuel Ht Hfuel. destruct t as [|ts| | | | |]; simpl in Ht; try contradiction.
    destruct (load_each_round_trip items IH ts fuel Ht Hfuel) as [Hos Hreads].
    rewrite encoding_aggregate. split; [exact Hos|].
    intros archive Hnext. unfold load in *. cbn [serialize_item_loading default_value].
    unfold loading in *. rewrite (Hreads _ Hnext). reflexivity.
  - apply round_trip_resizable, IH.
  - apply round_trip_contiguous.
  - apply round_trip_associative, IH.
  - intros t fuel Ht _. destruct t; simpl in Ht; contradiction.
  - intros t fuel Ht Hfuel. destruct t as [| | | | |kind' t|]; simpl in Ht; try contradiction.
    destruct Ht as [<- Ht]. destruct (IH t fuel Ht Hfuel) as [Ho Hread].
    rewrite encoding_pointer. split; [exact Ho|].
    intros archive Hnext. unfold load in *. cbn [serialize_item_loading default_value].
    rewrite (Hread _ Hnext). reflexivity.
  - intros t fuel Ht _. destruct t; simpl in Ht; contradiction.
  - apply round_trip_polymorphic, IH.
  - intros t fuel Ht _. destruct t; simpl in Ht; contradiction.
Qed.


End round_trip.

(** A call of [memory_output_archive::operator()] on a fitted vector
    appends what the handlers write. *)
Lemma memory_output_archive_call_appends host r items archive :
  m_size archive = length (m_output archive) ->
  memory_output_archive_call host r items archive
  = ((written host r items).1,
     make_output_archive (m_output archive ++ (written host r items).2)).
Proof.
  intros Hfit.
  destruct (memory_output_archive_call_contents host r items archive) as (Hlen & Hcall).
  destruct Hcall as (Ho & Hout & Hsize); [unfold in_bounds; lia|].
  destruct (memory_output_archive_call host r items archive) as [o [output size]].
  simpl in *. subst o. f_equal. unfold make_output_archive.
  unfold contents in Hout. rewrite Hfit, firstn_all in Hout. subst output.
  f_equal. exact (eq_sym Hlen).
Qed.

(** A call of [memory_input_archive::operator()] that reads [bytes] from
    the head of the vector leaves the rest of it. *)
Lemma memory_input_archive_call_reads host insert r fuel ts items bytes loaded_items
    archive rest :
  reads (serialize_items_loading host insert r fuel ts items) bytes loaded_items ->
  m_input_vector archive = bytes ++ rest ->
  memory_input_archive_call host insert r fuel ts items archive
  = (returned, loaded_items,
     {| m_input_vector := rest; view := make_view_archive (bytes ++ rest) |}).
Proof.
  intros Hreads Hvec. unfold memory_input_archive_call. rewrite Hvec.
  rewrite (Hreads (make_view_archive (bytes ++ rest))).
  - unfold erase, get_offset, reset, advance. simpl. rewrite drop_app_length. reflexivity.
  - split; [simpl; lia|]. exists rest. reflexivity.
Qed.

(** ** Where the round trip fails *)



(** ** The round trip *)



(** * Further properties *)

(** ** Byte order and rotation *)

Lemma swapped_bit_4 i : 0 <= i < 32 -> swapped_bit 4 i = swap32_bit i.
Proof. unfold swapped_bit, swap32_bit. intros Hi. ltb_cases; divlia. Qed.

Lemma swapped_bit_range n i : 0 < n -> 0 <= i < 8 * n -> 0 <= swapped_bit n i < 8 * n.
Proof. unfold swapped_bit. intros Hn Hi. divlia. Qed.

Lemma swapped_bit_involutive n i :
  0 < n -> 0 <= i < 8 * n -> swapped_bit n (swapped_bit n i) = i.
Proof. unfold swapped_bit. intros Hn Hi. divlia. Qed.

Lemma swap_byte_order_16_testbit x i :
  0 <= i ->
  Z.testbit (swap_byte_order_16 x) i = (i <? 16) && Z.testbit x (swapped_bit 2 i).
Proof.
  intros Hi. unfold swap_byte_order_16, swap_byte_order_8, uint.
  destruct (Z.ltb_spec i 8); [|destruct (Z.ltb_spec i 16)].
  - assert (swapped_bit 2 i = i + 8) as -> by (unfold swapped_bit; divlia).
    bits; ltb_cases; simpl; rewrite ?andb_false_r, ?orb_false_r, ?orb_false_l;
      try reflexivity; f_equal; lia.
  - assert (swapped_bit 2 i = i - 8) as -> by (unfold swapped_bit; divlia).
    bits; ltb_cases; simpl; rewrite ?andb_false_r, ?orb_false_r, ?orb_false_l;
      try reflexivity; f_equal; lia.
  - bits; ltb_cases; reflexivity.
Qed.

Lemma swap_byte_order_32_swapped x i :
  0 <= i ->
  Z.testbit (swap_byte_order_32 x) i = (i <? 32) && Z.testbit x (swapped_bit 4 i).
Proof.
  intros Hi. rewrite swap_byte_order_32_testbit by exact Hi.
  destruct (Z.ltb_spec i 32); [|reflexivity].
  rewrite swapped_bit_4 by lia. reflexivity.
Qed.

Lemma swap_byte_order_64_testbit x i :
  0 <= i ->
  Z.testbit (swap_byte_order_64 x) i = (i <? 64) && Z.testbit x (swapped_bit 8 i).
Proof.
  intros Hi. unfold swap_byte_order_64, uint.
  destruct (Z.ltb_spec i 32); [|destruct (Z.ltb_spec i 64)].
  - assert (swapped_bit 8 i = swapped_bit 4 i + 32) as -> by (unfold swapped_bit; divlia).
    pose proof (swapped_bit_range 4 i ltac:(lia) ltac:(lia)).
    bits. rewrite swap_byte_order_32_swapped by lia. bits.
    ltb_cases; simpl; rewrite ?andb_false_r, ?orb_false_r, ?orb_false_l;
      try reflexivity; f_equal; lia.
  - assert (swapped_bit 8 i = swapped_bit 4 (i - 32)) as -> by (unfold swapped_bit; divlia).
    pose proof (swapped_bit_range 4 (i - 32) ltac:(lia) ltac:(lia)).
    bits. rewrite !swap_byte_order_32_swapped by lia. bits.
    ltb_cases; simpl; rewrite ?andb_false_r, ?orb_false_r, ?orb_false_l;
      try reflexivity; f_equal; lia.
  - bits; ltb_cases; reflexivity.
Qed.

(** A swap that is applied twice, through the bits. *)
Lemma swap_twice (swap : Z -> Z) n x :
  0 < n ->
  (forall y i, 0 <= i ->
     Z.testbit (swap y) i = (i <? 8 * n) && Z.testbit y (swapped_bit n i)) ->
  swap (swap x) = uint (8 * n) x.
Proof.
  intros Hn Hswap. unfold uint. apply Z.bits_inj'. intros i Hi.
  rewrite Hswap, Z.testbit_mod_pow2 by lia.
  destruct (Z.ltb_spec i (8 * n)); [|reflexivity]. simpl.
  pose proof (swapped_bit_range n i Hn ltac:(lia)).
  rewrite Hswap, swapped_bit_involutive by lia.
  destruct (Z.ltb_spec (swapped_bit n i) (8 * n)); [reflexivity | lia].
Qed.

(** X1.  [swap_byte_order] undoes itself at every width: swapping the
    byte order twice gives the integer back (as an integer of the width). *)
Theorem swap_byte_order_involutive x :
  swap_byte_order_8 (swap_byte_order_8 x) = x
  /\ swap_byte_order_16 (swap_byte_order_16 x) = uint 16 x
  /\ swap_byte_order_32 (swap_byte_order_32 x) = uint 32 x
  /\ swap_byte_order_64 (swap_byte_order_64 x) = uint 64 x.
Proof.
  split; [reflexivity|]. split; [|split].
  - apply (swap_twice swap_byte_order_16 2); [lia|]. intros y i Hi.
    apply swap_byte_order_16_testbit, Hi.
  - apply (swap_twice swap_byte_order_32 4); [lia|]. intros y i Hi.
    apply swap_byte_order_32_swapped, Hi.
  - apply (swap_twice swap_byte_order_64 8); [lia|]. intros y i Hi.
    apply swap_byte_order_64_testbit, Hi.
Qed.

(** The bytes of an integer, least significant first, through the bits. *)
Lemma Z_to_little_endian_lookup_total (n : nat) z (k : nat) :
  (k < n)%nat ->
  Z_to_little_endian (Z.of_nat n) 8 z !!! k = Z.shiftr z (8 * Z.of_nat k) mod 2 ^ 8.
Proof.
  revert z k. induction n as [|n IH]; intros z k Hk; [lia|].
  rewrite Nat2Z.inj_succ, Z_to_little_endian_succ by lia.
  destruct k as [|k].
  - simpl. rewrite Z.land_ones by lia. reflexivity.
  - cbn [lookup_total list_lookup_total]. rewrite IH by lia.
    rewrite Z.shiftr_shiftr by lia. do 2 f_equal. lia.
Qed.

Lemma length_Z_to_little_endian_nat (n : nat) z :
  length (Z_to_little_endian (Z.of_nat n) 8 z) = n.
Proof. apply Nat2Z.inj. apply length_Z_to_little_endian; lia. Qed.

(** The bytes of a swapped integer are the bytes of the integer, reversed. *)
Lemma swapped_bytes (swap : Z -> Z) (n : nat) x :
  (0 < n)%nat ->
  (forall y i, 0 <= i ->
     Z.testbit (swap y) i
     = (i <? 8 * Z.of_nat n) && Z.testbit y (swapped_bit (Z.of_nat n) i)) ->
  Z_to_little_endian (Z.of_nat n) 8 (swap x) = reverse (Z_to_little_endian (Z.of_nat n) 8 x).
Proof.
  intros Hn Hswap. apply list_eq_total.
  - rewrite length_reverse, !length_Z_to_little_endian_nat. reflexivity.
  - intros k Hk. rewrite length_Z_to_little_endian_nat in Hk.
    rewrite Z_to_little_endian_lookup_total by exact Hk.
    assert (reverse (Z_to_little_endian (Z.of_nat n) 8 x) !!! k
            = Z_to_little_endian (Z.of_nat n) 8 x !!! (n - 1 - k)%nat) as ->.
    { apply list_lookup_total_correct. rewrite reverse_lookup
        by (rewrite length_Z_to_little_endian_nat; exact Hk).
      rewrite length_Z_to_little_endian_nat.
      replace (n - S k)%nat with (n - 1 - k)%nat by lia.
      apply list_lookup_lookup_total_lt. rewrite length_Z_to_little_endian_nat. lia. }
    rewrite Z_to_little_endian_lookup_total by lia.
    apply Z.bits_inj'. intros i Hi.
    rewrite !Z.testbit_mod_pow2, !Z.shiftr_spec by lia.
    destruct (Z.ltb_spec i 8); [|reflexivity]. simpl.
    rewrite Hswap by lia.
    destruct (Z.ltb_spec (i + 8 * Z.of_nat k) (8 * Z.of_nat n)); [|lia]. simpl.
    f_equal. unfold swapped_bit. divlia.
Qed.

Lemma object_representation_swapped (swap : Z -> Z) (n : nat) x :
  (0 < n)%nat ->
  (forall y i, 0 <= i ->
     Z.testbit (swap y) i
     = (i <? 8 * Z.of_nat n) && Z.testbit y (swapped_bit (Z.of_nat n) i)) ->
  object_representation little_endian n (swap x) = object_representation big_endian n x
  /\ object_representation big_endian n (swap x) = object_representation little_endian n x.
Proof.
  intros Hn Hswap. unfold object_representation.
  rewrite (swapped_bytes swap n x Hn Hswap), fmap_reverse, reverse_involutive.
  split; reflexivity.
Qed.

(** X2.  [swap_byte_order] reverses the bytes of the object representation:
    the representation of the swapped integer on a host of one byte order
    is the representation of the integer on a host of the other. *)
Theorem swap_byte_order_reverses_bytes x :
  (object_representation little_endian 2 (swap_byte_order_16 x)
   = object_representation big_endian 2 x
   /\ object_representation big_endian 2 (swap_byte_order_16 x)
      = object_representation little_endian 2 x)
  /\ (object_representation little_endian 4 (swap_byte_order_32 x)
      = object_representation big_endian 4 x
      /\ object_representation big_endian 4 (swap_byte_order_32 x)
         = object_representation little_endian 4 x)
  /\ (object_representation little_endian 8 (swap_byte_order_64 x)
      = object_representation big_endian 8 x
      /\ object_representation big_endian 8 (swap_byte_order_64 x)
         = object_representation little_endian 8 x).
Proof.
  split; [|split].
  - apply (object_representation_swapped swap_byte_order_16 2); [lia|].
    intros y i Hi. apply swap_byte_order_16_testbit, Hi.
  - apply (object_representation_swapped swap_byte_order_32 4); [lia|].
    intros y i Hi. apply swap_byte_order_32_swapped, Hi.
  - apply (object_representation_swapped swap_byte_order_64 8); [lia|].
    intros y i Hi. apply swap_byte_order_64_testbit, Hi.
Qed.

(** The bits of a rotated word. *)
Lemma rotate_left_testbit x n i :
  0 <= x < 2 ^ 32 -> 0 < n < 32 -> 0 <= i ->
  Z.testbit (rotate_left x n) i = (i <? 32) && Z.testbit x ((i - n) mod 32).
Proof.
  intros Hx Hn Hi. unfold rotate_left, uint.
  destruct (Z.ltb_spec i 32); [|bits; ltb_cases; reflexivity].
  destruct (Z.ltb_spec i n).
  - assert ((i - n) mod 32 = i + (32 - n)) as -> by divlia.
    bits; ltb_cases; simpl. reflexivity.
  - assert ((i - n) mod 32 = i - n) as -> by divlia.
    bits; ltb_cases; simpl. rewrite (testbit_above x 32 (i + (32 - n))) by lia.
    apply orb_false_r.
Qed.

Lemma rotate_left_range x n : 0 <= rotate_left x n < 2 ^ 32.
Proof. unfold rotate_left, uint. apply Z.mod_pos_bound. lia. Qed.

(** X3.  Rotations of a 32-bit word compose: rotating by [a] and then by
    [b] bits is rotating by [a + b] bits, and a full turn of 32 bits gives
    the word back. *)
Theorem rotate_left_composes x a b :
  0 <= x < 2 ^ 32 -> 0 < a -> 0 < b ->
  (a + b < 32 -> rotate_left (rotate_left x a) b = rotate_left x (a + b))
  /\ (a + b = 32 -> rotate_left (rotate_left x a) b = x).
Proof.
  intros Hx Ha Hb.
  pose proof (rotate_left_range x a) as Hr.
  split; intros Hab; apply Z.bits_inj'; intros i Hi.
  - rewrite !rotate_left_testbit by lia.
    destruct (Z.ltb_spec i 32); [|reflexivity]. simpl.
    destruct (Z.ltb_spec ((i - b) mod 32) 32); [|divlia]. simpl.
    f_equal. divlia.
  - rewrite !rotate_left_testbit by lia.
    destruct (Z.ltb_spec i 32); [|symmetry; apply (testbit_above x 32); lia]. simpl.
    destruct (Z.ltb_spec ((i - b) mod 32) 32); [|divlia]. simpl.
    f_equal. divlia.
Qed.

Lemma rotate_left_composes_witness :
  (0 <= 0x80000001 < 2 ^ 32 /\ 0 < 5 /\ 0 < 27)
  /\ rotate_left (rotate_left 0x80000001 5) 27 = 0x80000001
  /\ rotate_left (rotate_left 0x80000001 5) 4 = rotate_left 0x80000001 9.
Proof.
  split; [lia|].
  split.
  - apply (proj2 (rotate_left_composes 0x80000001 5 27 ltac:(lia) ltac:(lia) ltac:(lia))).
    reflexivity.
  - apply (proj1 (rotate_left_composes 0x80000001 5 4 ltac:(lia) ltac:(lia) ltac:(lia))).
    reflexivity.
Defined.

(** ** The output archives, whatever their state *)

Lemma take_resize_le k n vector : (k <= n)%nat -> take k (resize n vector) = resize k vector.
Proof.
  intros Hk. unfold resize.
  destruct (Nat.le_gt_cases k (length vector)) as [Hv|Hv].
  - rewrite take_app_le by (rewrite length_take; lia).
    rewrite take_take. replace (k `min` n)%nat with k by lia.
    replace (k - length vector)%nat with 0%nat by lia. simpl. rewrite app_nil_r. reflexivity.
  - rewrite (take_ge vector n), (take_ge vector k) by lia.
    rewrite take_app_ge by lia. rewrite take_replicate. do 2 f_equal. lia.
Qed.

Lemma resize_contents archive :
  in_bounds archive -> resize (m_size archive) (m_output archive) = contents archive.
Proof.
  unfold in_bounds, contents, resize. intros Hb.
  replace (m_size archive - length (m_output archive))%nat with 0%nat by lia.
  apply app_nil_r.
Qed.

(** What [serialize] does, whether the logical size is within the vector
    or not. *)
Lemma output_serialize_any item archive :
  in_bounds (output_serialize item archive)
  /\ m_size (output_serialize item archive) = (m_size archive + length item)%nat
  /\ contents (output_serialize item archive)
     = resize (m_size archive) (m_output archive) ++ item
  /\ (length (m_output archive) <= length (m_output (output_serialize item archive)))%nat.
Proof.
  unfold in_bounds, contents, output_serialize. cbn [m_size m_output].
  set (output := if (_ <? _)%nat then _ else _).
  assert ((m_size archive + length item <= length output)%nat
          /\ take (m_size archive) output = resize (m_size archive) (m_output archive)
          /\ (length (m_output archive) <= length output)%nat) as (Hroom & Hkeep & Hgrow).
  { unfold output. destruct (Nat.ltb_spec (length (m_output archive))
                               (m_size archive + length item)).
    - rewrite length_resize. split; [divlia|]. split; [|divlia].
      apply take_resize_le. divlia.
    - split; [lia|]. split; [|lia].
      unfold resize. replace (m_size archive - length (m_output archive))%nat with 0%nat by lia.
      simpl. rewrite app_nil_r. reflexivity. }
  assert (length (take (m_size archive) output) = m_size archive) as Hlen
    by (rewrite length_take; lia).
  unfold copy_n. repeat split.
  - rewrite !length_app, Hlen, length_drop. lia.
  - rewrite app_assoc, take_app_le, take_ge by (rewrite ?length_app, Hlen; lia).
    rewrite Hkeep. reflexivity.
  - rewrite !length_app, Hlen, length_drop. lia.
Qed.

(** X4.  [lazy_vector_memory_output_archive::serialize] in any state of
    the archive: afterwards the logical size is within the vector and has
    grown by the size of the item, the item sits just below it, the bytes
    before the item are the bytes the vector held below the old logical
    size (zero bytes where the vector was shorter), and the vector has not
    shrunk. *)
Theorem output_serialize_appends item archive :
  let archive' := output_serialize item archive in
  (m_size archive' <= length (m_output archive'))%nat
  /\ m_size archive' = (m_size archive + length item)%nat
  /\ take (m_size archive') (m_output archive')
     = take (m_size archive) (m_output archive)
       ++ replicate (m_size archive - length (m_output archive)) x00 ++ item
  /\ (length (m_output archive) <= length (m_output archive'))%nat.
Proof.
  intros archive'.
  destruct (output_serialize_any item archive) as (Hb & Hsize & Hc & Hgrow).
  split; [exact Hb|]. split; [exact Hsize|]. split; [|exact Hgrow].
  unfold contents, resize in Hc. rewrite <- app_assoc in Hc. exact Hc.
Qed.

Lemma output_serialize_resized item archive stream :
  resize (m_size archive) (m_output archive) = stream ->
  resize (m_size (output_serialize item archive)) (m_output (output_serialize item archive))
  = stream_serialize item stream.
Proof.
  intros <-. destruct (output_serialize_any item archive) as (Hb & _ & Hc & _).
  rewrite resize_contents by exact Hb. exact Hc.
Qed.

Lemma serialize_items_saving_resized host r items archive :
  let call := serialize_items_saving host r output_serialize items archive in
  call.1 = (written host r items).1
  /\ resize (m_size call.2) (m_output call.2)
     = resize (m_size archive) (m_output archive) ++ (written host r items).2.
Proof.
  intros call.
  destruct (serialize_items_saving_related host r output_serialize stream_serialize
              (fun a s => resize (m_size a) (m_output a) = s) output_serialize_resized
              items archive (resize (m_size archive) (m_output archive)) eq_refl) as (Ho & Hc).
  rewrite written_prefix in Ho, Hc. simpl in Ho, Hc. fold call in Ho, Hc. auto.
Qed.

(** A call of [memory_output_archive::operator()] in any state. *)
Lemma memory_output_archive_call_resized host r items archive :
  memory_output_archive_call host r items archive
  = ((written host r items).1,
     make_output_archive
       (resize (m_size archive) (m_output archive) ++ (written host r items).2)).
Proof.
  destruct (serialize_items_saving_resized host r items archive) as (Ho & Hc).
  unfold memory_output_archive_call.
  destruct (serialize_items_saving host r output_serialize items archive) as [o lazy].
  simpl in Ho, Hc. subst o. unfold fit_vector, make_output_archive.
  rewrite <- Hc, length_resize. reflexivity.
Qed.

Lemma save_each_app {Archive : Type} (fs gs : list (saving (Archive := Archive))) archive :
  save_each (fs ++ gs) archive = save_then (save_each fs) (save_each gs) archive.
Proof.
  revert archive. induction fs as [|f fs IH]; intros archive; [reflexivity|].
  simpl. unfold save_then in *.
  destruct (f archive) as [o archive']. destruct o; [|reflexivity..].
  apply IH.
Qed.

Lemma written_app host r items1 items2 :
  written host r (items1 ++ items2)
  = match (written host r items1).1 with
    | returned =>
        ((written host r items2).1, (written host r items1).2 ++ (written host r items2).2)
    | _ => written host r items1
    end.
Proof.
  induction items1 as [|item items1 IH].
  - simpl. destruct (written host r items2). reflexivity.
  - rewrite <- app_comm_cons, !written_cons, IH.
    destruct (encoding host r item) as [o bytes]. destruct o; try reflexivity. simpl.
    destruct (written host r items1) as [o1 bytes1]. destruct o1; try reflexivity. simpl.
    rewrite app_assoc. reflexivity.
Qed.

(** X5.  Saving composes: [archive(a..., b...)] is [archive(a...)]
    followed, when it returns, by [archive(b...)], on any saving archive;
    and one call of [memory_output_archive::operator()] on all the items
    leaves the outcome and the archive that a call on the first items
    followed, when it returns, by a call on the others leaves. *)
Theorem output_calls_compose host r items1 items2 :
  (forall (Archive : Type) (serialize : list byte -> Archive -> Archive) (archive : Archive),
      serialize_items_saving host r serialize (items1 ++ items2) archive
      = save_then (serialize_items_saving host r serialize items1)
                  (serialize_items_saving host r serialize items2) archive)
  /\ (forall archive,
        memory_output_archive_call host r (items1 ++ items2) archive
        = match memory_output_archive_call host r items1 archive with
          | (returned, archive') => memory_output_archive_call host r items2 archive'
          | failed => failed
          end).
Proof.
  split.
  - intros Archive serialize archive. unfold serialize_items_saving.
    rewrite fmap_app. apply save_each_app.
  - intros archive.
    rewrite (memory_output_archive_call_resized host r items1 archive).
    rewrite (memory_output_archive_call_resized host r (items1 ++ items2) archive).
    rewrite written_app.
    destruct (written host r items1) as [o1 bytes1]. destruct o1; try reflexivity.
    cbn beta iota. cbn [fst snd].
    rewrite memory_output_archive_call_resized.
    cbn [m_size m_output make_output_archive].
    rewrite resize_length, app_assoc. reflexivity.
Qed.

(** X6.  One vector shared by a [memory_input_archive] and a
    [memory_output_archive], as in the examples of the documentation.  A
    call of the output archive leaves the vector with, first, the bytes it
    held below the logical size of the output archive, zero bytes making
    up for a shorter vector, then the bytes written.  So once the input
    archive has taken bytes from a vector the output archive had fitted,
    the next save puts as many zero bytes as were taken between what is
    left and what it writes. *)
Theorem stale_output_size_pads host insert r_in r_out fuel :
  (forall items s,
      out_call host r_out items s
      = ((written host r_out items).1,
         construct_archives
           (take (output_m_size s) (vector_bytes s)
            ++ replicate (output_m_size s - length (vector_bytes s)) x00
            ++ (written host r_out items).2)))
  /\ (forall ts items items' s,
        output_m_size s = length (vector_bytes s) ->
        let loaded := in_call host insert r_in fuel ts items s in
        let saved := out_call host r_out items' loaded.2 in
        exists consumed,
          vector_bytes s = consumed ++ vector_bytes loaded.2
          /\ saved.1 = (written host r_out items').1
          /\ vector_bytes saved.2
             = vector_bytes loaded.2 ++ replicate (length consumed) x00
               ++ (written host r_out items').2).
Proof.
  assert (forall items s,
            out_call host r_out items s
            = ((written host r_out items).1,
               construct_archives
                 (take (output_m_size s) (vector_bytes s)
                  ++ replicate (output_m_size s - length (vector_bytes s)) x00
                  ++ (written host r_out items).2))) as Hout.
  { intros items s. unfold out_call. rewrite memory_output_archive_call_resized.
    cbn [m_size m_output make_output_archive]. unfold construct_archives, resize.
    rewrite <- app_assoc. reflexivity. }
  split; [exact Hout|].
  intros ts items items' s Hfit loaded saved.
  destruct (memory_input_archive_call_spec host insert r_in fuel ts items
              (make_input_archive (vector_bytes s))) as (consumed & Hvec & _ & _).
  unfold saved. rewrite Hout. unfold loaded, in_call.
  destruct (memory_input_archive_call host insert r_in fuel ts items
              (make_input_archive (vector_bytes s))) as [[o items2] archive'].
  cbn [fst snd vector_bytes output_m_size m_input_vector make_input_archive] in *.
  exists consumed. split; [exact Hvec|]. split; [reflexivity|].
  unfold construct_archives. cbn [vector_bytes].
  rewrite Hfit, Hvec, length_app.
  rewrite take_ge by lia.
  replace (length consumed + length (m_input_vector archive')
           - length (m_input_vector archive'))%nat with (length consumed) by lia.
  reflexivity.
Qed.

Lemma stale_output_size_pads_witness :
  let point := Aggregate [int32 1337; int32 1338] in
  let s := (out_call little_endian empty_registry [point] (construct_archives [])).2 in
  let loaded := in_call little_endian insert_back empty_registry 0
                  [aggregate [fundamental 4; fundamental 4]]
                  [Aggregate [int32 0; int32 0]] s in
  let saved := out_call little_endian empty_registry [int32 7] loaded.2 in
  output_m_size s = length (vector_bytes s)
  /\ exists consumed,
      vector_bytes s = consumed ++ vector_bytes loaded.2
      /\ saved.1 = (written little_endian empty_registry [int32 7]).1
      /\ vector_bytes saved.2
         = vector_bytes loaded.2 ++ replicate (length consumed) x00
           ++ (written little_endian empty_registry [int32 7]).2.
Proof.
  intros point s loaded saved.
  assert (output_m_size s = length (vector_bytes s)) as Hfit by reflexivity.
  split; [exact Hfit|].
  exact (proj2 (stale_output_size_pads little_endian insert_back empty_registry
                  empty_registry 0)
           [aggregate [fundamental 4; fundamental 4]] [Aggregate [int32 0; int32 0]]
           [int32 7] s Hfit).
Defined.

(** ** How a save ends *)

Lemma save_ends_each {Archive : Type} (fs : list (saving (Archive := Archive))) :
  Forall (fun f => forall archive, save_ends (f archive).1 = true) fs ->
  forall archive, save_ends (save_each fs archive).1 = true.
Proof.
  induction 1 as [|f fs Hf _ IH]; intros archive; [reflexivity|].
  simpl. unfold save_then. specialize (Hf archive).
  destruct (f archive) as [o archive']. destruct o; [apply IH | exact Hf..].
Qed.

Lemma save_ends_registry host r {Archive : Type}
    (serialize : list byte -> Archive -> Archive) chain (fs : list saving) :
  Forall (fun f => forall archive, save_ends (f archive).1 = true) fs ->
  forall archive,
    save_ends (registry_serialize_saving host r serialize chain fs archive).1 = true.
Proof.
  intros Hfs archive. unfold registry_serialize_saving.
  destruct (m_type_information_to_serialization_id r !! type_name chain) as [id|];
    [|reflexivity].
  destruct (m_serialization_id_to_method r !! id) as [T|]; [|reflexivity].
  unfold save_then, save_bytes. cbn beta iota.
  destruct (position _ chain) as [i|]; [|reflexivity].
  apply save_ends_each, Forall_take, Hfs.
Qed.

Lemma save_ends_item host r {Archive : Type} (serialize : list byte -> Archive -> Archive) v :
  forall archive, save_ends (serialize_item_saving host r serialize v archive).1 = true.
Proof.
  assert (forall items : list value,
            Forall (fun v => forall archive,
                      save_ends (serialize_item_saving host r serialize v archive).1 = true)
                   items ->
            Forall (fun f : saving => forall archive, save_ends (f archive).1 = true)
                   (serialize_item_saving host r serialize <$> items)) as Hmap.
  { intros items Hitems. apply Forall_fmap. exact Hitems. }
  induction v as [rep|items IH|items IH|n data|items IH|kind|kind p IH|kind
                  |kind chain subs IH|chain subs IH] using value_induction;
    intros archive; cbn [serialize_item_saving].
  - reflexivity.
  - apply save_ends_each, Hmap, IH.
  - unfold save_then, save_size, save_bytes. cbn beta iota. apply save_ends_each, Hmap, IH.
  - unfold save_then, save_size, save_bytes. cbn beta iota.
    destruct (decide _); reflexivity.
  - unfold save_then, save_size, save_bytes. cbn beta iota. apply save_ends_each, Hmap, IH.
  - reflexivity.
  - apply IH.
  - reflexivity.
  - apply save_ends_registry, Hmap, IH.
  - apply save_ends_registry, Hmap, IH.
Qed.

(** X7.  A save, on any saving archive, ends in one of four ways: it
    returns, or it raises [attempt_to_serialize_null_pointer_error],
    [undeclared_polymorphic_type_error] or [std::bad_cast]; so does a call
    of [memory_output_archive::operator()].  No save raises [out_of_range]
    or [polymorphic_type_mismatch_error]. *)
Theorem save_raises_only host r items :
  (forall (Archive : Type) (serialize : list byte -> Archive -> Archive) (archive : Archive),
      save_ends (serialize_items_saving host r serialize items archive).1 = true)
  /\ (forall archive, save_ends (memory_output_archive_call host r items archive).1 = true).
Proof.
  assert (forall (Archive : Type) (serialize : list byte -> Archive -> Archive)
                 (archive : Archive),
            save_ends (serialize_items_saving host r serialize items archive).1 = true) as Hall.
  { intros Archive serialize. apply save_ends_each, Forall_fmap, Forall_forall.
    intros v _ a. apply save_ends_item. }
  split; [exact Hall|].
  intros archive. unfold memory_output_archive_call.
  specialize (Hall _ output_serialize archive).
  destruct (serialize_items_saving host r output_serialize items archive). exact Hall.
Qed.

Lemma pointer_free_each {Archive : Type} (fs : list (saving (Archive := Archive))) :
  Forall (fun f => forall archive, (f archive).1 = returned) fs ->
  forall archive, (save_each fs archive).1 = returned.
Proof.
  induction 1 as [|f fs Hf _ IH]; intros archive; [reflexivity|].
  simpl. unfold save_then. specialize (Hf archive).
  destruct (f archive) as [o archive']. simpl in Hf. subst o. apply IH.
Qed.

Lemma pointer_free_item host r {Archive : Type}
    (serialize : list byte -> Archive -> Archive) v :
  pointer_free v = true ->
  forall archive, (serialize_item_saving host r serialize v archive).1 = returned.
Proof.
  assert (forall items : list value,
            Forall (fun v => pointer_free v = true -> forall archive,
                      (serialize_item_saving host r serialize v archive).1 = returned) items ->
            forallb pointer_free items = true ->
            Forall (fun f : saving => forall archive, (f archive).1 = returned)
                   (serialize_item_saving host r serialize <$> items)) as Hmap.
  { intros items Hitems Hfree. apply Forall_fmap.
    induction Hitems as [|item items Hitem _ IH]; [constructor|].
    simpl in Hfree. apply andb_true_iff in Hfree as [Hitem' Hfree].
    constructor; [exact (Hitem Hitem') | apply IH, Hfree]. }
  induction v as [rep|items IH|items IH|n data|items IH|kind|kind p IH|kind
                  |kind chain subs IH|chain subs IH] using value_induction;
    intros Hfree archive; cbn [serialize_item_saving]; simpl in Hfree; try discriminate.
  - reflexivity.
  - apply pointer_free_each, Hmap; assumption.
  - unfold save_then, save_size, save_bytes. cbn beta iota.
    apply pointer_free_each, Hmap; assumption.
  - unfold save_then, save_size, save_bytes. cbn beta iota.
    destruct (decide _); reflexivity.
  - unfold save_then, save_size, save_bytes. cbn beta iota.
    apply pointer_free_each, Hmap; assumption.
Qed.

(** X8.  Saving values that hold no owning pointer and no polymorphic
    wrapper (fundamental items, fixed and variable-length containers and
    their nestings) always returns, whatever the registry holds and
    whatever the sizes. *)
Theorem pointer_free_save_returns host r items archive :
  forallb pointer_free items = true ->
  (memory_output_archive_call host r items archive).1 = returned.
Proof.
  intros Hfree. unfold memory_output_archive_call.
  assert ((serialize_items_saving host r output_serialize items archive).1 = returned) as H.
  { apply pointer_free_each, Forall_fmap.
    induction items as [|v items IH]; [constructor|].
    simpl in Hfree. apply andb_true_iff in Hfree as [Hv Hfree].
    constructor; [exact (pointer_free_item host r output_serialize v Hv) | apply IH, Hfree]. }
  destruct (serialize_items_saving host r output_serialize items archive). exact H.
Qed.

Lemma pointer_free_save_returns_witness :
  let items := [Aggregate [int32 1337; std_string "hello"];
                Resizable [Associative [Aggregate [int32 1; std_string "a"]]]] in
  forallb pointer_free items = true
  /\ (memory_output_archive_call big_endian empty_registry items
        (make_output_archive [x01])).1 = returned.
Proof.
  intros items.
  assert (forallb pointer_free items = true) as Hfree by reflexivity.
  split; [exact Hfree|].
  apply (pointer_free_save_returns big_endian empty_registry items (make_output_archive [x01])
           Hfree).
Defined.

(** ** Loading: sizes, destinations and the ways out *)

Lemma load_each_length (loaders : list (loading)) items archive :
  length (load_each loaders items archive).1.2 = length items.
Proof.
  revert items archive. induction loaders as [|load loaders IH]; intros items archive;
    [destruct items; reflexivity|].
  destruct items as [|item items]; [reflexivity|]. simpl.
  destruct (load item archive) as [[o item'] archive'].
  destruct o; try reflexivity.
  specialize (IH items archive').
  destruct (load_each loaders items archive') as [[o' items'] archive'']. simpl in *.
  congruence.
Qed.

Lemma length_resize_items n fresh items : length (resize_items n fresh items) = n.
Proof. unfold resize_items. rewrite length_app, length_take, length_replicate. lia. Qed.

Lemma size_in_bytes_le (data : list byte) item_size :
  (Z.to_nat (size_type (size_type (Z.of_nat (length data / item_size)) * Z.of_nat item_size))
   <= length data)%nat.
Proof.
  unfold size_type, uint.
  assert (Z.of_nat (length data / item_size) * Z.of_nat item_size <= Z.of_nat (length data)) as H.
  { rewrite <- Nat2Z.inj_mul. apply Nat2Z.inj_le.
    rewrite Nat.mul_comm. apply Nat.Div0.mul_div_le. }
  pose proof (Z.mod_pos_bound (Z.of_nat (length data / item_size)) (2 ^ 32) ltac:(lia)) as H1.
  pose proof (Z.mod_le (Z.of_nat (length data / item_size)) (2 ^ 32) ltac:(lia) ltac:(lia)) as H2.
  set (c := Z.of_nat (length data / item_size) mod 2 ^ 32) in *.
  assert (0 <= c * Z.of_nat item_size <= Z.of_nat (length data)) as H3 by nia.
  pose proof (Z.mod_le (c * Z.of_nat item_size) (2 ^ 32) ltac:(lia) ltac:(lia)) as H4.
  pose proof (Z.mod_pos_bound (c * Z.of_nat item_size) (2 ^ 32) ltac:(lia)) as H5.
  lia.
Qed.

(** X9.  A load of a variable-length container resizes the container to
    the count it has read before it reads a single item: once the count is
    read, the container has that many items (bytes, times the size of an
    item, for a contiguous container of fundamental items) whatever the
    outcome of the load, also when the input holds nothing after the
    count. *)
Theorem load_resizes_before_reading host insert
    (registry_serialize : memory_view_input_archive -> loaded (option object))
    archive count archive1 :
  load_unsigned host sizeof_size_type archive = (returned, count, archive1) ->
  (forall t items, exists items',
      (serialize_item_loading host insert registry_serialize
         (resizable t) (Resizable items) archive).1.2 = Resizable items'
      /\ length items' = Z.to_nat count)
  /\ (forall item_size data, exists data',
        (serialize_item_loading host insert registry_serialize
           (contiguous item_size) (Contiguous item_size data) archive).1.2
        = Contiguous item_size data'
        /\ length data' = (Z.to_nat count * item_size)%nat).
Proof.
  intros Hcount. split.
  - intros t items. cbn [serialize_item_loading]. rewrite Hcount.
    match goal with |- context [load_each ?l ?d archive1] =>
      pose proof (load_each_length l d archive1) as Hlen;
      destruct (load_each l d archive1) as [[o items'] archive2] end.
    simpl in *. exists items'. split; [reflexivity|].
    rewrite Hlen. apply length_resize_items.
  - intros item_size data. cbn [serialize_item_loading]. rewrite Hcount.
    set (data1 := resize (Z.to_nat count * item_size) data).
    assert (length data1 = (Z.to_nat count * item_size)%nat) as Hlen by apply length_resize.
    destruct (decide (count = 0)); [exists data1; split; [reflexivity | exact Hlen]|].
    pose proof (size_in_bytes_le data1 item_size) as Hle.
    unfold input_serialize.
    match goal with |- context [Nat.ltb ?x ?y] => destruct (Nat.ltb_spec x y) end.
    + exists data1. split; [reflexivity | exact Hlen].
    + eexists. split; [reflexivity|].
      rewrite length_app, length_take, !length_drop. cbn zeta in *. lia.
Qed.

Lemma load_resizes_before_reading_witness :
  let archive := make_view_archive [x03; x00; x00; x00] in
  let insert := insert_back in
  let registry_serialize := registry_serialize_loading little_endian insert empty_registry 0 in
  let call := serialize_item_loading little_endian insert registry_serialize
                (resizable (fundamental 4)) (Resizable []) archive in
  load_unsigned little_endian sizeof_size_type archive = (returned, 3, advance 4 archive)
  /\ call.1.1 = raised out_of_range
  /\ exists items', call.1.2 = Resizable items' /\ length items' = Z.to_nat 3.
Proof.
  intros archive insert registry_serialize call.
  assert (load_unsigned little_endian sizeof_size_type archive
          = (returned, 3, advance 4 archive)) as Hcount by reflexivity.
  split; [exact Hcount|]. split; [reflexivity|].
  exact (proj1 (load_resizes_before_reading little_endian insert registry_serialize
                  archive 3 (advance 4 archive) Hcount) (fundamental 4) []).
Defined.

(** ** From the vector and back *)

Lemma written_single host r v :
  (encoding host r v).1 = returned ->
  written host r [v] = (returned, (encoding host r v).2).
Proof.
  intros Ho. rewrite written_cons, Ho, written_nil. simpl. rewrite app_nil_r. reflexivity.
Qed.

Lemma reads_single host insert r fuel t destination bytes v :
  reads (serialize_item_loading host insert (registry_serialize_loading host insert r fuel)
           t destination) bytes v ->
  reads (serialize_items_loading host insert r fuel [t] [destination]) bytes [v].
Proof.
  intros Hreads archive Hnext. unfold serialize_items_loading.
  cbn [fmap list_fmap load_each]. rewrite (Hreads archive Hnext). reflexivity.
Qed.

(** Bytes saved to an empty vector, and loaded from it. *)
Lemma memory_round_trip host insert loading_registry saving_registry fuel
    items ts destinations bytes results :
  written host saving_registry items = (returned, bytes) ->
  reads (serialize_items_loading host insert loading_registry fuel ts destinations)
        bytes results ->
  let saved := memory_output_archive_call host saving_registry items (make_output_archive []) in
  let loaded := memory_input_archive_call host insert loading_registry fuel ts destinations
                  (make_input_archive (m_output saved.2)) in
  saved.1 = returned /\ loaded.1 = (returned, results) /\ m_input_vector loaded.2 = [].
Proof.
  intros Hw Hreads saved loaded.
  assert (saved = (returned, make_output_archive bytes)) as Hsaved.
  { unfold saved. rewrite memory_output_archive_call_appends by reflexivity.
    rewrite Hw. reflexivity. }
  unfold loaded. rewrite Hsaved. cbn [fst snd m_output make_output_archive].
  rewrite (memory_input_archive_call_reads host insert loading_registry fuel ts destinations
             bytes results _ [] Hreads) by (simpl; rewrite app_nil_r; reflexivity).
  auto.
Qed.

(** The items of an associative container, read into a container that
    holds [existing]. *)
Lemma associative_reads host insert loading_registry saving_registry fuel t existing items :
  Z.of_nat (length items) < 2 ^ 32 ->
  all_items (fun item => in_contract insert loading_registry saving_registry item t) items ->
  (depth_items items <= fuel)%nat ->
  (written host saving_registry items).1 = returned
  /\ reads (serialize_item_loading host insert
              (registry_serialize_loading host insert loading_registry fuel)
              (associative t) (Associative existing))
           (object_representation host sizeof_size_type (Z.of_nat (length items))
              ++ (written host saving_registry items).2)
           (Associative (foldl (fun container item => insert item container) existing items)).
Proof.
  intros Hlen Hts Hfuel.
  destruct (load_insert_round_trip host insert loading_registry saving_registry items)
    with (t := t) (fuel := fuel) as [Hos Hreads]; try assumption.
  { apply Forall_forall. intros v _. apply round_trip_item. }
  destruct (size_type_length items Hlen) as [Hsize Hrange].
  split; [exact Hos|].
  intros archive Hnext. apply holds_next_app in Hnext as [Hnext1 Hnext2].
  cbn [serialize_item_loading].
  rewrite (load_unsigned_reads host sizeof_size_type _ Hrange archive Hnext1).
  rewrite Nat2Z.id, (Hreads existing _ Hnext2).
  rewrite advance_advance, length_app. reflexivity.
Qed.

(** X10.  A load of an associative container does not clear the
    container: the items it reads are inserted, one by one in the order of
    the stream, into what the container already holds. *)
Theorem associative_load_merges host insert loading_registry saving_registry fuel t
    existing items :
  Z.of_nat (length items) < 2 ^ 32 ->
  all_items (fun item => in_contract insert loading_registry saving_registry item t) items ->
  (depth_items items <= fuel)%nat ->
  let saved := memory_output_archive_call host saving_registry [Associative items]
                 (make_output_archive []) in
  let loaded := memory_input_archive_call host insert loading_registry fuel
                  [associative t] [Associative existing]
                  (make_input_archive (m_output saved.2)) in
  saved.1 = returned
  /\ loaded.1
     = (returned,
        [Associative (foldl (fun container item => insert item container) existing items)])
  /\ m_input_vector loaded.2 = [].
Proof.
  intros Hlen Hts Hfuel.
  destruct (associative_reads host insert loading_registry saving_registry fuel t existing
              items Hlen Hts Hfuel) as [Hos Hreads].
  destruct (size_type_length items Hlen) as [Hsize _].
  apply memory_round_trip with (bytes := (encoding host saving_registry (Associative items)).2).
  - apply written_single.
    rewrite (proj2 (encoding_sequence host saving_registry items)). exact Hos.
  - apply reads_single.
    rewrite (proj2 (encoding_sequence host saving_registry items)), Hsize. exact Hreads.
Qed.

Lemma associative_load_merges_witness :
  let items := [Aggregate [int32 2; std_string "b"]] in
  let existing := [Aggregate [int32 1; std_string "a"]] in
  let t := aggregate [fundamental 4; contiguous 1] in
  let saved := memory_output_archive_call little_endian empty_registry [Associative items]
                 (make_output_archive []) in
  let loaded := memory_input_archive_call little_endian insert_back empty_registry 0
                  [associative t] [Associative existing]
                  (make_input_archive (m_output saved.2)) in
  (Z.of_nat (length items) < 2 ^ 32
   /\ all_items (fun item => in_contract insert_back empty_registry empty_registry item t) items
   /\ (depth_items items <= 0)%nat)
  /\ saved.1 = returned
  /\ loaded.1 = (returned, [Associative (existing ++ items)])
  /\ m_input_vector loaded.2 = [].
Proof.
  intros items existing t saved loaded.
  assert (Z.of_nat (length items) < 2 ^ 32) as Hlen by (simpl; lia).
  assert (all_items (fun item => in_contract insert_back empty_registry empty_registry item t)
            items) as Hts by (repeat split; vm_compute; reflexivity || lia).
  assert (depth_items items <= 0)%nat as Hfuel by (vm_compute; lia).
  split; [auto|].
  exact (associative_load_merges little_endian insert_back empty_registry empty_registry 0 t
           existing items Hlen Hts Hfuel).
Defined.

(** ** Owning pointers that fail to load *)

(** X11.  A load of an owning pointer to a polymorphic class that reads an
    id no class is registered under raises
    [undeclared_polymorphic_type_error], leaves the pointer as it was and
    has read the eight bytes of the id, no more: the consuming archive
    erases them from the vector. *)
Theorem undeclared_id_load host insert r fuel kind base kind' pointee id :
  0 <= id < 2 ^ 64 ->
  m_serialization_id_to_method r !! id = None ->
  (forall archive,
      holds_next archive (object_representation host sizeof_id_type id) ->
      serialize_item_loading host insert (registry_serialize_loading host insert r (S fuel))
        (polymorphic_pointer kind base) (PolymorphicPointer kind' pointee) archive
      = (raised undeclared_polymorphic_type_error, PolymorphicPointer kind' pointee,
         advance 8 archive))
  /\ (forall rest,
        memory_input_archive_call host insert r (S fuel) [polymorphic_pointer kind base]
          [PolymorphicPointer kind' pointee]
          (make_input_archive (object_representation host sizeof_id_type id ++ rest))
        = (raised undeclared_polymorphic_type_error, [PolymorphicPointer kind' pointee],
           {| m_input_vector := rest;
              view := make_view_archive
                        (object_representation host sizeof_id_type id ++ rest) |})).
Proof.
  intros Hid Hnone.
  assert (forall archive,
            holds_next archive (object_representation host sizeof_id_type id) ->
            serialize_item_loading host insert
              (registry_serialize_loading host insert r (S fuel))
              (polymorphic_pointer kind base) (PolymorphicPointer kind' pointee) archive
            = (raised undeclared_polymorphic_type_error, PolymorphicPointer kind' pointee,
               advance 8 archive)) as Hitem.
  { intros archive Hnext. cbn [serialize_item_loading registry_serialize_loading].
    rewrite (load_unsigned_reads host sizeof_id_type id)
      by (assumption || (change (2 ^ (Z.of_nat sizeof_id_type * 8)) with (2 ^ 64); lia)).
    rewrite Hnone, length_object_representation. reflexivity. }
  split; [exact Hitem|].
  intros rest. unfold memory_input_archive_call, serialize_items_loading.
  cbn [fmap list_fmap load_each m_input_vector make_input_archive].
  rewrite Hitem by (split; [simpl; lia | exists rest; reflexivity]).
  assert (drop 8 (object_representation host sizeof_id_type id ++ rest) = rest) as Hdrop
    by (apply drop_app_length'; symmetry; apply length_object_representation).
  unfold erase, get_offset, reset, advance, make_view_archive. cbn [m_offset m_input Nat.add].
  rewrite Hdrop. reflexivity.
Qed.

Lemma undeclared_id_load_witness :
  let id := make_id "v1::teacher" in
  let r := documented_registries.1 in
  let bytes := object_representation little_endian sizeof_id_type id in
  (0 <= id < 2 ^ 64 /\ m_serialization_id_to_method r !! id = None)
  /\ memory_input_archive_call little_endian insert_back r 1
       [polymorphic_pointer unique_ptr "person"] [PolymorphicPointer unique_ptr None]
       (make_input_archive (bytes ++ [x2a]))
     = (raised undeclared_polymorphic_type_error, [PolymorphicPointer unique_ptr None],
        {| m_input_vector := [x2a]; view := make_view_archive (bytes ++ [x2a]) |}).
Proof.
  intros id r bytes.
  assert (0 <= id < 2 ^ 64) as Hid by (vm_compute; split; [discriminate | reflexivity]).
  assert (m_serialization_id_to_method r !! id = None) as Hnone by (vm_compute; reflexivity).
  split; [auto|].
  exact (proj2 (undeclared_id_load little_endian insert_back r 0 unique_ptr "person"
                  unique_ptr None id Hid Hnone) [x2a]).
Defined.

(** X12.  A load of an owning pointer that does not return, whatever the
    reason (the input ends within the pointee, the id is not registered,
    the class does not match), leaves the pointer as it was: the object is
    loaded aside and handed over only at the end. *)
Theorem failed_load_keeps_pointer host insert
    (registry_serialize : memory_view_input_archive -> loaded (option object))
    kind kind' archive :
  (forall t pointee,
      let call := serialize_item_loading host insert registry_serialize
                    (pointer kind t) (Pointer kind' pointee) archive in
      call.1.1 <> returned -> call.1.2 = Pointer kind' pointee)
  /\ (forall base pointee,
        let call := serialize_item_loading host insert registry_serialize
                      (polymorphic_pointer kind base) (PolymorphicPointer kind' pointee)
                      archive in
        call.1.1 <> returned -> call.1.2 = PolymorphicPointer kind' pointee).
Proof.
  split.
  - intros t pointee. cbn [serialize_item_loading].
    destruct (serialize_item_loading host insert registry_serialize t (default_value t) archive)
      as [[o loaded_object] archive'].
    destruct o; simpl; congruence.
  - intros base pointee. cbn [serialize_item_loading].
    destruct (registry_serialize archive) as [[o loaded_type] archive'].
    destruct o; [|simpl; congruence..].
    destruct loaded_type as [[chain subobjects]|]; [|simpl; congruence].
    destruct (decide (base ∈ chain)); simpl; congruence.
Qed.

Lemma failed_load_keeps_pointer_witness :
  let registry_serialize :=
    registry_serialize_loading little_endian insert_back empty_registry 0 in
  let archive := make_view_archive [x01; x02] in
  let old := Some (Fundamental [x07; x00; x00; x00]) in
  let call := serialize_item_loading little_endian insert_back registry_serialize
                (pointer unique_ptr (fundamental 4)) (Pointer unique_ptr old) archive in
  call.1.1 <> returned /\ call.1.2 = Pointer unique_ptr old.
Proof.
  intros registry_serialize archive old call.
  assert (call.1.1 <> returned) as Hfails by discriminate.
  split; [exact Hfails|].
  exact (proj1 (failed_load_keeps_pointer little_endian insert_back registry_serialize
                  unique_ptr unique_ptr archive) (fundamental 4) old Hfails).
Defined.

(** X13.  Whatever a call of [memory_view_input_archive::operator()] loads
    and however it ends, the offset of the archive does not go back and
    stays within the input: no read goes past the end of the input, and
    the input is as it was. *)
Theorem load_stays_within_input host insert r fuel ts items archive :
  (m_offset archive <= length (m_input archive))%nat ->
  let call := serialize_items_loading host insert r fuel ts items archive in
  m_input call.2 = m_input archive
  /\ (m_offset archive <= m_offset call.2)%nat
  /\ (m_offset call.2 <= length (m_input archive))%nat.
Proof.
  intros Hle call.
  destruct (advances_serialize_items_loading host insert r fuel ts items archive)
    as (Hin & Hmono & Hlen).
  auto.
Qed.

Lemma load_stays_within_input_witness :
  let archive := {| m_input := [x02; x00; x00; x00; x61]; m_offset := 0 |} in
  let call := serialize_items_loading little_endian insert_back empty_registry 0
                [contiguous 1; fundamental 4] [std_string ""; int32 0] archive in
  (m_offset archive <= length (m_input archive))%nat
  /\ m_input call.2 = m_input archive
  /\ (m_offset archive <= m_offset call.2)%nat
  /\ (m_offset call.2 <= length (m_input archive))%nat.
Proof.
  intros archive call.
  assert (m_offset archive <= length (m_input archive))%nat as Hle by (simpl; lia).
  split; [exact Hle|].
  exact (load_stays_within_input little_endian insert_back empty_registry 0
           [contiguous 1; fundamental 4] [std_string ""; int32 0] archive Hle).
Defined.

(** ** How a load ends *)

Lemma load_ends_input_serialize size item archive :
  load_ends (input_serialize size item archive).1.1 = true.
Proof. unfold input_serialize. destruct (_ <? _)%nat; reflexivity. Qed.

Lemma load_ends_load_unsigned host size archive :
  load_ends (load_unsigned host size archive).1.1 = true.
Proof.
  unfold load_unsigned. pose proof (load_ends_input_serialize size
    (object_representation host size 0) archive) as H.
  destruct (input_serialize _ _ archive) as [[o x] a]. exact H.
Qed.

Lemma load_ends_load_each (loaders : list (loading)) :
  Forall (fun load : loading =>
            forall item archive, load_ends (load item archive).1.1 = true) loaders ->
  forall items archive, load_ends (load_each loaders items archive).1.1 = true.
Proof.
  induction 1 as [|load loaders Hload _ IH]; intros items archive;
    [destruct items; reflexivity|].
  destruct items as [|item items]; [reflexivity|]. simpl.
  specialize (Hload item archive).
  destruct (load item archive) as [[o item'] archive']. simpl in Hload.
  destruct o; try exact Hload.
  specialize (IH items archive').
  destruct (load_each loaders items archive') as [[o' items'] archive'']. exact IH.
Qed.

Lemma load_ends_load_insert insert (load : loading) fresh count :
  (forall item archive, load_ends (load item archive).1.1 = true) ->
  forall items archive,
    load_ends (load_insert insert load fresh count items archive).1.1 = true.
Proof.
  intros Hload. induction count as [|count IH]; intros items archive; [reflexivity|].
  simpl. specialize (Hload fresh archive).
  destruct (load fresh archive) as [[o item] archive']. simpl in Hload.
  destruct o; try exact Hload. apply IH.
Qed.

Lemma load_ends_serialize_item_loading host insert
    (registry_serialize : memory_view_input_archive -> loaded (option object)) :
  (forall archive, load_ends (registry_serialize archive).1.1 = true) ->
  forall t item archive,
    load_ends (serialize_item_loading host insert registry_serialize t item archive).1.1 = true.
Proof.
  intros Hreg t.
  induction t as [size|ts IH|t IH|n|t IH|kind t IH|kind base] using type_induction;
    intros item archive; destruct item; try reflexivity; cbn [serialize_item_loading].
  - pose proof (load_ends_input_serialize size representation archive) as H.
    destruct (input_serialize _ _ archive) as [[o x] a]. exact H.
  - pose proof (load_ends_load_each
                  (serialize_item_loading host insert registry_serialize <$> ts)
                  ltac:(apply Forall_fmap; exact IH) items archive) as H.
    destruct (load_each _ _ archive) as [[o x] a]. exact H.
  - pose proof (load_ends_load_unsigned host sizeof_size_type archive) as H1.
    destruct (load_unsigned _ _ archive) as [[o size] a1]. simpl in H1.
    destruct o; try exact H1.
    match goal with |- context [load_each ?l ?d a1] =>
      pose proof (load_ends_load_each l ltac:(apply Forall_replicate; exact IH) d a1) as H;
      destruct (load_each l d a1) as [[o2 x] a2] end.
    exact H.
  - pose proof (load_ends_load_unsigned host sizeof_size_type archive) as H1.
    destruct (load_unsigned _ _ archive) as [[o size] a1]. simpl in H1.
    destruct o; try exact H1.
    destruct (decide (size = 0)); [reflexivity|].
    match goal with |- context [input_serialize ?k ?d a1] =>
      pose proof (load_ends_input_serialize k d a1) as H;
      destruct (input_serialize k d a1) as [[o2 x] a2] end.
    exact H.
  - pose proof (load_ends_load_unsigned host sizeof_size_type archive) as H1.
    destruct (load_unsigned _ _ archive) as [[o size] a1]. simpl in H1.
    destruct o; try exact H1.
    pose proof (load_ends_load_insert insert _ (default_value t) (Z.to_nat size)
                  IH items a1) as H.
    destruct (load_insert _ _ _ _ _ a1) as [[o2 x] a2]. exact H.
  - pose proof (IH (default_value t) archive) as H.
    destruct (serialize_item_loading _ _ _ t _ archive) as [[o x] a1].
    destruct o; exact H.
  - pose proof (Hreg archive) as H.
    destruct (registry_serialize archive) as [[o x] a1]. simpl in H.
    destruct o; try exact H.
    destruct x as [[chain subs]|]; [|reflexivity].
    destruct (decide (base ∈ chain)); reflexivity.
Qed.

Lemma load_ends_registry_serialize_loading host insert r fuel archive :
  load_ends (registry_serialize_loading host insert r fuel archive).1.1 = true.
Proof.
  revert archive. induction fuel as [|fuel IH]; intros archive; [reflexivity|].
  simpl.
  pose proof (load_ends_load_unsigned host sizeof_id_type archive) as H1.
  destruct (load_unsigned _ _ archive) as [[o id] a1]. simpl in H1.
  destruct o; try exact H1.
  destruct (m_serialization_id_to_method r !! id) as [T|]; [|reflexivity].
  match goal with |- context [load_each ?l ?d a1] =>
    assert (load_ends (load_each l d a1).1.1 = true) as H;
    [|destruct (load_each l d a1) as [[o2 x] a2]] end.
  { apply load_ends_load_each, Forall_fmap, Forall_forall. intros t _ item a.
    apply load_ends_serialize_item_loading. exact IH. }
  destruct o2; exact H.
Qed.

(** X14.  A load ends in one of four ways: it returns, or it raises
    [out_of_range], [undeclared_polymorphic_type_error] or
    [polymorphic_type_mismatch_error] (the model adds the end of its
    recursion counter).  No load raises
    [attempt_to_serialize_null_pointer_error] or [std::bad_cast]: the cast
    that fails is caught and turned into the mismatch error. *)
Theorem load_raises_only host insert r fuel ts items :
  (forall archive,
      load_ends (serialize_items_loading host insert r fuel ts items archive).1.1 = true)
  /\ (forall archive,
        load_ends (memory_input_archive_call host insert r fuel ts items archive).1.1 = true).
Proof.
  assert (forall archive,
            load_ends (serialize_items_loading host insert r fuel ts items archive).1.1
            = true) as Hall.
  { intros archive. apply load_ends_load_each, Forall_fmap, Forall_forall.
    intros t _ item a. apply load_ends_serialize_item_loading.
    intros a'. apply load_ends_registry_serialize_loading. }
  split; [exact Hall|].
  intros archive. unfold memory_input_archive_call.
  specialize (Hall (make_view_archive (m_input_vector archive))).
  destruct (serialize_items_loading host insert r fuel ts items _) as [[o x] a]. exact Hall.
Qed.

(** ** A load looks at the bytes ahead only *)

Lemma looks_ahead_return {X} (o : outcome) (x : X) : looks_ahead (fun archive => (o, x, archive)).
Proof. intros a b Hab. simpl. split; [reflexivity|]. split; [exact Hab | lia]. Qed.

(** A call, and then another that is given its outcome and its result. *)
Lemma looks_ahead_bind {X Y} (f : memory_view_input_archive -> loaded X)
    (k : outcome -> X -> memory_view_input_archive -> loaded Y) :
  looks_ahead f -> (forall o x, looks_ahead (k o x)) ->
  looks_ahead (fun archive => let '(o, x, archive') := f archive in k o x archive').
Proof.
  intros Hf Hk a b Hab. destruct (Hf a b Hab) as (Heq & Hrest & Hoff).
  destruct (f a) as [[oa xa] a'], (f b) as [[ob xb] b']. simpl in Heq, Hrest, Hoff.
  injection Heq as -> ->.
  destruct (Hk ob xb a' b' Hrest) as (Heq' & Hrest' & Hoff').
  split; [exact Heq'|]. split; [exact Hrest' | lia].
Qed.

Lemma looks_ahead_input_serialize size item : looks_ahead (input_serialize size item).
Proof.
  intros a b (Ha & Hb & Hab). unfold input_serialize.
  assert (length (m_input a) - m_offset a = length (m_input b) - m_offset b)%nat as Hlen.
  { rewrite <- !length_drop, Hab. reflexivity. }
  destruct (Nat.ltb_spec (length (m_input a)) (size + m_offset a)),
           (Nat.ltb_spec (length (m_input b)) (size + m_offset b)); try lia;
    unfold same_rest; simpl.
  - split; [reflexivity|]. split; [split; [|split]; assumption | lia].
  - split; [rewrite Hab; reflexivity|]. split; [|lia].
    split; [lia|]. split; [lia|].
    rewrite <- !drop_drop, Hab. reflexivity.
Qed.

Lemma looks_ahead_load_unsigned host size : looks_ahead (load_unsigned host size).
Proof.
  apply (looks_ahead_bind (input_serialize size (object_representation host size 0))
           (fun o x archive => (o, object_value host x, archive))).
  - apply looks_ahead_input_serialize.
  - intros o x. apply looks_ahead_return.
Qed.

Lemma looks_ahead_load_each (loaders : list loading) :
  Forall (fun load : loading => forall item, looks_ahead (load item)) loaders ->
  forall items, looks_ahead (load_each loaders items).
Proof.
  induction 1 as [|load loaders Hload _ IH]; intros items.
  - destruct items; apply looks_ahead_return.
  - destruct items as [|item items]; [apply looks_ahead_return|].
    apply (looks_ahead_bind (load item)
             (fun o item' archive' =>
                match o with
                | returned =>
                    let '(o', items', archive'') := load_each loaders items archive' in
                    (o', item' :: items', archive'')
                | _ => (o, item' :: items, archive')
                end)); [apply Hload|].
    intros o item'. destruct o; try apply looks_ahead_return.
    apply (looks_ahead_bind (load_each loaders items)
             (fun o' items' archive'' => (o', item' :: items', archive''))); [apply IH|].
    intros o' items'. apply looks_ahead_return.
Qed.

Lemma looks_ahead_load_insert insert (load : loading) fresh count :
  (forall item, looks_ahead (load item)) ->
  forall items, looks_ahead (load_insert insert load fresh count items).
Proof.
  intros Hload. induction count as [|count IH]; intros items; [apply looks_ahead_return|].
  apply (looks_ahead_bind (load fresh)
           (fun o item archive' =>
              match o with
              | returned => load_insert insert load fresh count (insert item items) archive'
              | _ => (o, items, archive')
              end)); [apply Hload|].
  intros o item. destruct o; try apply looks_ahead_return. apply IH.
Qed.

Lemma looks_ahead_serialize_item_loading host insert
    (registry_serialize : memory_view_input_archive -> loaded (option object)) :
  looks_ahead registry_serialize ->
  forall t item, looks_ahead (serialize_item_loading host insert registry_serialize t item).
Proof.
  intros Hreg t.
  induction t as [size|ts IH|t IH|n|t IH|kind t IH|kind base] using type_induction;
    intros item; destruct item; try apply looks_ahead_return.
  - apply (looks_ahead_bind (input_serialize size representation)
             (fun o x archive => (o, Fundamental x, archive)));
      [apply looks_ahead_input_serialize|].
    intros o x. apply looks_ahead_return.
  - apply (looks_ahead_bind
             (load_each (serialize_item_loading host insert registry_serialize <$> ts) items)
             (fun o x archive => (o, Aggregate x, archive))).
    + apply looks_ahead_load_each, Forall_fmap. exact IH.
    + intros o x. apply looks_ahead_return.
  - apply (looks_ahead_bind (load_unsigned host sizeof_size_type)
             (fun o size archive' =>
                match o with
                | returned =>
                    let items := resize_items (Z.to_nat size) (default_value t) items in
                    let '(o', items', archive'') :=
                      load_each (replicate (length items)
                                   (serialize_item_loading host insert registry_serialize t))
                                items archive' in
                    (o', Resizable items', archive'')
                | _ => (o, Resizable items, archive')
                end)); [apply looks_ahead_load_unsigned|].
    intros o size. destruct o; try apply looks_ahead_return. cbn zeta.
    apply (looks_ahead_bind (load_each _ _) (fun o' x archive => (o', Resizable x, archive))).
    + apply looks_ahead_load_each, Forall_replicate. exact IH.
    + intros o' x. apply looks_ahead_return.
  - apply (looks_ahead_bind (load_unsigned host sizeof_size_type)
             (fun o size archive' =>
                match o with
                | returned =>
                    let data := resize (Z.to_nat size * n) data in
                    if decide (size = 0) then (returned, Contiguous n data, archive')
                    else
                      let count := size_type (Z.of_nat (length data / n)) in
                      let size_in_bytes := size_type (count * Z.of_nat n) in
                      let '(o', data', archive'') :=
                        input_serialize (Z.to_nat size_in_bytes) data archive' in
                      (o', Contiguous n data', archive'')
                | _ => (o, Contiguous item_size data, archive')
                end)); [apply looks_ahead_load_unsigned|].
    intros o size. destruct o; try apply looks_ahead_return. cbn zeta.
    destruct (decide (size = 0)); [apply looks_ahead_return|].
    apply (looks_ahead_bind (input_serialize _ _)
             (fun o' x archive => (o', Contiguous n x, archive)));
      [apply looks_ahead_input_serialize|].
    intros o' x. apply looks_ahead_return.
  - apply (looks_ahead_bind (load_unsigned host sizeof_size_type)
             (fun o size archive' =>
                match o with
                | returned =>
                    let '(o', items', archive'') :=
                      load_insert insert (serialize_item_loading host insert registry_serialize t)
                        (default_value t) (Z.to_nat size) items archive' in
                    (o', Associative items', archive'')
                | _ => (o, Associative items, archive')
                end)); [apply looks_ahead_load_unsigned|].
    intros o size. destruct o; try apply looks_ahead_return.
    apply (looks_ahead_bind (load_insert insert _ _ _ _)
             (fun o' x archive => (o', Associative x, archive))).
    + apply looks_ahead_load_insert. exact IH.
    + intros o' x. apply looks_ahead_return.
  - apply (looks_ahead_bind
             (serialize_item_loading host insert registry_serialize t (default_value t))
             (fun o x archive' =>
                match o with
                | returned => (returned, Pointer kind (Some x), archive')
                | _ => (o, Pointer kind0 pointee, archive')
                end)); [apply IH|].
    intros o x. destruct o; apply looks_ahead_return.
  - apply (looks_ahead_bind registry_serialize
             (fun o x archive' =>
                match o, x with
                | returned, Some (chain, subobjects) =>
                    if decide (base ∈ chain)
                    then (returned, PolymorphicPointer kind (Some (chain, subobjects)), archive')
                    else (raised polymorphic_type_mismatch_error,
                          PolymorphicPointer kind0 pointee, archive')
                | _, _ => (o, PolymorphicPointer kind0 pointee, archive')
                end)); [exact Hreg|].
    intros o x. destruct o; try apply looks_ahead_return.
    destruct x as [[chain subobjects]|]; [|apply looks_ahead_return].
    destruct (decide (base ∈ chain)); apply looks_ahead_return.
Qed.

Lemma looks_ahead_registry_serialize_loading host insert r fuel :
  looks_ahead (registry_serialize_loading host insert r fuel).
Proof.
  induction fuel as [|fuel IH]; [apply looks_ahead_return|].
  apply (looks_ahead_bind (load_unsigned host sizeof_id_type)
           (fun o id archive' =>
              match o with
              | returned =>
                  match m_serialization_id_to_method r !! id with
                  | None => (raised undeclared_polymorphic_type_error, None, archive')
                  | Some T =>
                      let concrete_type := default_value <$> class_subobjects T in
                      let '(o', concrete_type', archive'') :=
                        load_each
                          (serialize_item_loading host insert
                             (registry_serialize_loading host insert r fuel)
                             <$> class_subobjects T)
                          concrete_type archive' in
                      match o' with
                      | returned => (returned, Some (class_chain T, concrete_type'), archive'')
                      | _ => (o', None, archive'')
                      end
                  end
              | _ => (o, None, archive')
              end)); [apply looks_ahead_load_unsigned|].
  intros o id. destruct o; try apply looks_ahead_return.
  destruct (m_serialization_id_to_method r !! id) as [T|]; [|apply looks_ahead_return].
  cbn zeta.
  apply (looks_ahead_bind (load_each _ _)
           (fun o' x archive =>
              match o' with
              | returned => (returned, Some (class_chain T, x), archive)
              | _ => (o', None, archive)
              end)).
  - apply looks_ahead_load_each, Forall_fmap, Forall_forall. intros t _ item.
    apply looks_ahead_serialize_item_loading. exact IH.
  - intros o' x. destruct o'; apply looks_ahead_return.
Qed.

Lemma looks_ahead_serialize_items_loading host insert r fuel ts items :
  looks_ahead (serialize_items_loading host insert r fuel ts items).
Proof.
  apply looks_ahead_load_each, Forall_fmap, Forall_forall. intros t _ item.
  apply looks_ahead_serialize_item_loading, looks_ahead_registry_serialize_loading.
Qed.

(** X15.  What a call of [memory_view_input_archive::operator()] does
    depends on the bytes from the offset on, and on nothing else of the
    input: on two archives with the same bytes ahead it ends the same way,
    gives the same items and reads the same number of bytes. *)
Theorem load_looks_ahead host insert r fuel ts items a b :
  (m_offset a <= length (m_input a))%nat ->
  (m_offset b <= length (m_input b))%nat ->
  drop (m_offset a) (m_input a) = drop (m_offset b) (m_input b) ->
  let call_a := serialize_items_loading host insert r fuel ts items a in
  let call_b := serialize_items_loading host insert r fuel ts items b in
  call_a.1 = call_b.1
  /\ (m_offset call_a.2 + m_offset b = m_offset call_b.2 + m_offset a)%nat
  /\ drop (m_offset call_a.2) (m_input a) = drop (m_offset call_b.2) (m_input b).
Proof.
  intros Ha Hb Hab call_a call_b.
  destruct (looks_ahead_serialize_items_loading host insert r fuel ts items a b)
    as (Heq & (_ & _ & Hrest) & Hoff); [split; [|split]; assumption|].
  fold call_a call_b in Heq, Hrest, Hoff.
  destruct (advances_serialize_items_loading host insert r fuel ts items a) as (Hia & _).
  destruct (advances_serialize_items_loading host insert r fuel ts items b) as (Hib & _).
  fold call_a in Hia. fold call_b in Hib. rewrite Hia, Hib in Hrest. auto.
Qed.

Lemma load_looks_ahead_witness :
  let a := {| m_input := [xff; x05; x00; x00; x00; x09]; m_offset := 1 |} in
  let b := make_view_archive [x05; x00; x00; x00; x09] in
  let call_a := serialize_items_loading little_endian insert_back empty_registry 0
                  [fundamental 4] [int32 0] a in
  let call_b := serialize_items_loading little_endian insert_back empty_registry 0
                  [fundamental 4] [int32 0] b in
  ((m_offset a <= length (m_input a))%nat
   /\ (m_offset b <= length (m_input b))%nat
   /\ drop (m_offset a) (m_input a) = drop (m_offset b) (m_input b))
  /\ call_a.1 = call_b.1
  /\ (m_offset call_a.2 + m_offset b = m_offset call_b.2 + m_offset a)%nat
  /\ drop (m_offset call_a.2) (m_input a) = drop (m_offset call_b.2) (m_input b).
Proof.
  intros a b call_a call_b.
  assert (m_offset a <= length (m_input a))%nat as Ha by (simpl; lia).
  assert (m_offset b <= length (m_input b))%nat as Hb by (simpl; lia).
  assert (drop (m_offset a) (m_input a) = drop (m_offset b) (m_input b)) as Hab by reflexivity.
  split; [auto|].
  exact (load_looks_ahead little_endian insert_back empty_registry 0
           [fundamental 4] [int32 0] a b Ha Hb Hab).
Defined.

(** ** Loading composes *)

Lemma load_each_app (loaders1 loaders2 : list loading) items1 items2 archive :
  length loaders1 = length items1 ->
  load_each (loaders1 ++ loaders2) (items1 ++ items2) archive
  = let '(o, items1', archive') := load_each loaders1 items1 archive in
    match o with
    | returned =>
        let '(o', items2', archive'') := load_each loaders2 items2 archive' in
        (o', items1' ++ items2', archive'')
    | _ => (o, items1' ++ items2, archive')
    end.
Proof.
  revert items1 archive. induction loaders1 as [|load loaders1 IH];
    intros [|item items1] archive Hlen; simpl in Hlen; try discriminate.
  - simpl. destruct (load_each loaders2 items2 archive) as [[o x] a]. reflexivity.
  - simpl. destruct (load item archive) as [[o item'] archive'].
    destruct o; try reflexivity.
    rewrite IH by congruence.
    destruct (load_each loaders1 items1 archive') as [[o1 items1'] archive1].
    destruct o1; try reflexivity.
    destruct (load_each loaders2 items2 archive1) as [[o2 items2'] archive2]. reflexivity.
Qed.

(** X16.  Loading composes: [archive(a..., b...)] on a view archive is
    [archive(a...)] followed, when it returns, by [archive(b...)]; and one
    call of [memory_input_archive::operator()] for all the items ends the
    way a call for the first items followed, when it returns, by a call
    for the others ends, with the same items loaded and the same bytes
    left in the vector. *)
Theorem input_calls_compose host insert r fuel ts1 ts2 items1 items2 :
  length ts1 = length items1 ->
  (forall archive,
      serialize_items_loading host insert r fuel (ts1 ++ ts2) (items1 ++ items2) archive
      = let '(o, items1', archive') :=
          serialize_items_loading host insert r fuel ts1 items1 archive in
        match o with
        | returned =>
            let '(o', items2', archive'') :=
              serialize_items_loading host insert r fuel ts2 items2 archive' in
            (o', items1' ++ items2', archive'')
        | _ => (o, items1' ++ items2, archive')
        end)
  /\ (forall archive,
        let joint := memory_input_archive_call host insert r fuel
                       (ts1 ++ ts2) (items1 ++ items2) archive in
        let first := memory_input_archive_call host insert r fuel ts1 items1 archive in
        let second := memory_input_archive_call host insert r fuel ts2 items2 first.2 in
        match first.1.1 with
        | returned =>
            joint.1 = (second.1.1, first.1.2 ++ second.1.2)
            /\ m_input_vector joint.2 = m_input_vector second.2
        | _ =>
            joint.1 = (first.1.1, first.1.2 ++ items2)
            /\ m_input_vector joint.2 = m_input_vector first.2
        end).
Proof.
  intros Hlen.
  assert (forall archive,
            serialize_items_loading host insert r fuel (ts1 ++ ts2) (items1 ++ items2) archive
            = let '(o, items1', archive') :=
                serialize_items_loading host insert r fuel ts1 items1 archive in
              match o with
              | returned =>
                  let '(o', items2', archive'') :=
                    serialize_items_loading host insert r fuel ts2 items2 archive' in
                  (o', items1' ++ items2', archive'')
              | _ => (o, items1' ++ items2, archive')
              end) as Hview.
  { intros archive. unfold serialize_items_loading. rewrite fmap_app.
    apply load_each_app. rewrite length_fmap. exact Hlen. }
  split; [exact Hview|].
  intros [vector base]. cbn zeta.
  unfold memory_input_archive_call. cbn [m_input_vector].
  rewrite Hview.
  pose proof (advances_serialize_items_loading host insert r fuel ts1 items1
                (make_view_archive vector)) as (Hin1 & _ & Hle1).
  specialize (Hle1 ltac:(simpl; lia)).
  destruct (serialize_items_loading host insert r fuel ts1 items1 (make_view_archive vector))
    as [[o1 items1'] [input1 offset1]].
  simpl in Hin1, Hle1. subst input1.
  destruct o1; cbn [fst snd]; try (split; reflexivity).
  unfold erase, get_offset, reset. cbn [m_offset m_input m_input_vector].
  destruct (looks_ahead_serialize_items_loading host insert r fuel ts2 items2
              {| m_input := vector; m_offset := offset1 |}
              (make_view_archive (drop offset1 vector))) as (Heq & _ & Hoff).
  { split; [exact Hle1|]. split; [simpl; lia | reflexivity]. }
  destruct (serialize_items_loading host insert r fuel ts2 items2
              {| m_input := vector; m_offset := offset1 |}) as [[o2 items2'] [input2 offset2]].
  destruct (serialize_items_loading host insert r fuel ts2 items2
              (make_view_archive (drop offset1 vector))) as [[o2' items2''] [input2' offset2']].
  simpl in Heq, Hoff. injection Heq as -> ->.
  cbn [fst snd m_offset m_input_vector]. split; [reflexivity|].
  rewrite drop_drop. f_equal. lia.
Qed.

Lemma input_calls_compose_witness :
  let load := memory_input_archive_call little_endian insert_back empty_registry 0 in
  let archive := make_input_archive [x01; x00; x00; x00; x02; x00; x00; x00; x03] in
  let joint := load ([fundamental 4] ++ [fundamental 4]) ([int32 0] ++ [int32 0]) archive in
  let first := load [fundamental 4] [int32 0] archive in
  let second := load [fundamental 4] [int32 0] first.2 in
  length [fundamental 4] = length [int32 0]
  /\ match first.1.1 with
     | returned =>
         joint.1 = (second.1.1, first.1.2 ++ second.1.2)
         /\ m_input_vector joint.2 = m_input_vector second.2
     | _ =>
         joint.1 = (first.1.1, first.1.2 ++ [int32 0])
         /\ m_input_vector joint.2 = m_input_vector first.2
     end.
Proof.
  intros load archive joint first second.
  assert (length [fundamental 4] = length [int32 0]) as Hlen by reflexivity.
  split; [exact Hlen|].
  exact (proj2 (input_calls_compose little_endian insert_back empty_registry 0
                  [fundamental 4] [fundamental 4] [int32 0] [int32 0] Hlen) archive).
Defined.

(** ** Registrations *)

(** A registration is found after further registrations. *)
Lemma register_types_keeps types registries :
  let after := register_types types registries in
  (forall id T,
      m_serialization_id_to_method registries.1 !! id = Some T ->
      m_serialization_id_to_method after.1 !! id = Some T)
  /\ (forall id T,
        m_serialization_id_to_method registries.2 !! id = Some T ->
        m_serialization_id_to_method after.2 !! id = Some T)
  /\ (forall name id,
        m_type_information_to_serialization_id registries.1 !! name = Some id ->
        m_type_information_to_serialization_id after.1 !! name = Some id)
  /\ (forall name id,
        m_type_information_to_serialization_id registries.2 !! name = Some id ->
        m_type_information_to_serialization_id after.2 !! name = Some id).
Proof.
  induction types as [|[T' id'] types IH]; [simpl; auto|].
  cbn zeta in *. rewrite register_types_cons. destruct IH as (IH1 & IH2 & IH3 & IH4).
  cbn [fst snd registry_add m_serialization_id_to_method
       m_type_information_to_serialization_id].
  repeat split; intros; apply emplace_lookup_Some; auto.
Qed.

(** X17.  The registry never replaces a registration: an id keeps the
    class it was first registered for and a class keeps the id it was
    first registered under, whatever is registered later, in the
    registries of both built-in archives. *)
Theorem registration_is_kept types registries :
  let after := register_types types registries in
  (forall id T,
      m_serialization_id_to_method registries.1 !! id = Some T ->
      m_serialization_id_to_method after.1 !! id = Some T)
  /\ (forall id T,
        m_serialization_id_to_method registries.2 !! id = Some T ->
        m_serialization_id_to_method after.2 !! id = Some T)
  /\ (forall name id,
        m_type_information_to_serialization_id registries.1 !! name = Some id ->
        m_type_information_to_serialization_id after.1 !! name = Some id)
  /\ (forall name id,
        m_type_information_to_serialization_id registries.2 !! name = Some id ->
        m_type_information_to_serialization_id after.2 !! name = Some id).
Proof.
  induction types as [|[T' id'] types IH]; [simpl; auto|].
  cbn zeta in *. rewrite register_types_cons. destruct IH as (IH1 & IH2 & IH3 & IH4).
  cbn [fst snd registry_add m_serialization_id_to_method
       m_type_information_to_serialization_id].
  split; [|split; [|split]].
  - intros id T Hid. apply emplace_lookup_Some, IH1, Hid.
  - intros id T Hid. apply emplace_lookup_Some, IH2, Hid.
  - intros name id Hname. apply emplace_lookup_Some, IH3, Hname.
  - intros name id Hname. apply emplace_lookup_Some, IH4, Hname.
Qed.

Lemma registration_is_kept_witness :
  let id := make_id "v1::student" in
  let after := register_types [(person, id); (student, 7)] documented_registries in
  (m_serialization_id_to_method documented_registries.1 !! id = Some student
   /\ m_type_information_to_serialization_id documented_registries.2 !! "student" = Some id)
  /\ m_serialization_id_to_method after.1 !! id = Some student
  /\ m_type_information_to_serialization_id after.2 !! "student" = Some id.
Proof.
  intros id after.
  assert (m_serialization_id_to_method documented_registries.1 !! id = Some student) as Hid
    by (vm_compute; reflexivity).
  assert (m_type_information_to_serialization_id documented_registries.2 !! "student" = Some id)
    as Hname by (vm_compute; reflexivity).
  split; [auto|].
  destruct (registration_is_kept [(person, id); (student, 7)] documented_registries)
    as (H1 & _ & _ & H4).
  split; [exact (H1 id student Hid) | exact (H4 "student" id Hname)].
Defined.

Lemma register_types_app front back registries :
  register_types (front ++ back) registries
  = register_types front (register_types back registries).
Proof. unfold register_types. apply foldr_app. Qed.

(** X18.  Within one [register_types] list the registrations are made
    from the last pair to the first (the pairs after the first are bases
    of the registering object, and bases are constructed first): of the
    pairs that share an id the last one listed is the one registered, and
    of the pairs that name one class the last one listed gives the class
    its id. *)
Theorem last_listed_registration_wins front T id back :
  let registries := register_types (front ++ (T, id) :: back) (empty_registry, empty_registry) in
  (id ∉ back.*2 ->
   m_serialization_id_to_method registries.1 !! id = Some T
   /\ m_serialization_id_to_method registries.2 !! id = Some T)
  /\ (type_name (class_chain T) ∉ registered_names back ->
      m_type_information_to_serialization_id registries.1 !! type_name (class_chain T) = Some id
      /\ m_type_information_to_serialization_id registries.2 !! type_name (class_chain T)
         = Some id).
Proof.
  intros registries. unfold registries. rewrite register_types_app.
  destruct (register_types_keeps front
              (register_types ((T, id) :: back) (empty_registry, empty_registry)))
    as (H1 & H2 & H3 & H4).
  rewrite register_types_cons in H1, H2, H3, H4 |- *.
  cbn [fst snd registry_add m_serialization_id_to_method
       m_type_information_to_serialization_id] in H1, H2, H3, H4.
  split.
  - intros Hid. destruct (register_types_unregistered_id back id Hid) as [Hn1 Hn2].
    split; [apply H1 | apply H2]; apply emplace_lookup_new; assumption.
  - intros Hname.
    destruct (register_types_unregistered_name back _ Hname) as [Hn1 Hn2].
    split; [apply H3 | apply H4]; apply emplace_lookup_new; assumption.
Qed.

Lemma last_listed_registration_wins_witness :
  let registries := register_types ([(person, 7)] ++ (student, 7) :: [(person, 8)])
                      (empty_registry, empty_registry) in
  ((7 ∉ [(person, 8)].*2)
   /\ type_name (class_chain student) ∉ registered_names [(person, 8)])
  /\ m_serialization_id_to_method registries.1 !! 7 = Some student
  /\ m_type_information_to_serialization_id registries.2 !! type_name (class_chain student)
     = Some 7.
Proof.
  intros registries.
  assert (7 ∉ [(person, 8)].*2) as Hid
    by (apply (bool_decide_unpack _); vm_compute; exact I).
  assert (type_name (class_chain student) ∉ registered_names [(person, 8)]) as Hname
    by (apply (bool_decide_unpack _); vm_compute; exact I).
  split; [auto|].
  destruct (last_listed_registration_wins [(person, 7)] student 7 [(person, 8)]) as [H1 H2].
  split; [exact (proj1 (H1 Hid)) | exact (proj2 (H2 Hname))].
Defined.

Lemma position_None name chain : name ∉ chain -> position name chain = None.
Proof.
  induction chain as [|n chain IH]; intros Hname; [reflexivity|].
  apply not_elem_of_cons in Hname as [Hne Hname]. simpl.
  destruct (decide (n = name)); [congruence|]. rewrite IH by exact Hname. reflexivity.
Qed.

(** X19.  Two classes registered under one id.  The id stays with the
    class registered first (the one listed last), and the other class gets
    the id all the same; saving an object of that other class writes the
    id and then casts the object to the class the id stands for: the save
    raises [std::bad_cast], the eight bytes of the id already written,
    when the object is not of that class, and saves the object as its base
    of that class, without an error, when it is derived from it. *)
Theorem id_collision_save host T1 T2 id subobjects
    (Archive : Type) (serialize : list byte -> Archive -> Archive) (archive : Archive) :
  type_name (class_chain T1) <> type_name (class_chain T2) ->
  let r := (register_types [(T2, id); (T1, id)] (empty_registry, empty_registry)).2 in
  let save := serialize_item_saving host r serialize in
  let save_id := save_bytes serialize (object_representation host sizeof_id_type id) in
  m_serialization_id_to_method r !! id = Some T1
  /\ m_type_information_to_serialization_id r !! type_name (class_chain T2) = Some id
  /\ (type_name (class_chain T1) ∉ class_chain T2 ->
      save (PolymorphicWrapper (class_chain T2, subobjects)) archive
      = (raised bad_cast, serialize (object_representation host sizeof_id_type id) archive))
  /\ (forall i,
        position (type_name (class_chain T1)) (class_chain T2) = Some i ->
        save (PolymorphicWrapper (class_chain T2, subobjects)) archive
        = save_then save_id (save (Aggregate (take (S i) subobjects))) archive).
Proof.
  intros Hne r save save_id.
  assert (m_serialization_id_to_method r !! id = Some T1) as Hmethod.
  { unfold r. rewrite !register_types_cons.
    cbn [fst snd registry_add m_serialization_id_to_method].
    apply emplace_lookup_Some with (v := T1). apply emplace_lookup_new. apply lookup_empty. }
  assert (m_type_information_to_serialization_id r !! type_name (class_chain T2) = Some id)
    as Hid.
  { unfold r. rewrite !register_types_cons.
    cbn [fst snd registry_add m_type_information_to_serialization_id].
    apply emplace_lookup_new. rewrite emplace_lookup_ne by congruence. apply lookup_empty. }
  split; [exact Hmethod|]. split; [exact Hid|]. split.
  - intros Hcast. unfold save. cbn [serialize_item_saving]. unfold registry_serialize_saving.
    rewrite Hid, Hmethod, position_None by exact Hcast. reflexivity.
  - intros i Hi. unfold save. cbn [serialize_item_saving]. unfold registry_serialize_saving.
    rewrite Hid, Hmethod, Hi. unfold save_then, save_id, save_bytes. cbn beta iota.
    rewrite fmap_take. reflexivity.
Qed.

Lemma id_collision_save_witness :
  let r := (register_types [(student, 7); (person, 7)] (empty_registry, empty_registry)).2 in
  let save := serialize_item_saving little_endian r stream_serialize in
  type_name (class_chain person) <> type_name (class_chain student)
  /\ m_serialization_id_to_method r !! 7 = Some person
  /\ position (type_name (class_chain person)) (class_chain student) = Some 1%nat
  /\ save (PolymorphicWrapper a_student) []
     = save_then
         (save_bytes stream_serialize (object_representation little_endian sizeof_id_type 7))
         (save (Aggregate (take 2 a_student.2))) [].
Proof.
  intros r save.
  assert (type_name (class_chain person) <> type_name (class_chain student)) as Hne
    by discriminate.
  assert (position (type_name (class_chain person)) (class_chain student) = Some 1%nat) as Hi
    by reflexivity.
  destruct (id_collision_save little_endian person student 7 a_student.2 (list byte)
              stream_serialize [] Hne) as (Hmethod & _ & _ & Hsliced).
  split; [exact Hne|]. split; [exact Hmethod|]. split; [exact Hi|].
  exact (Hsliced 1%nat Hi).
Defined.

(** ** Saved as one type, loaded as another *)

(** One item saved to an empty vector, and an item loaded from it. *)
Lemma item_round_trip host insert loading_registry saving_registry fuel
    saved_item t destination v :
  (encoding host saving_registry saved_item).1 = returned ->
  reads (serialize_item_loading host insert
           (registry_serialize_loading host insert loading_registry fuel) t destination)
        (encoding host saving_registry saved_item).2 v ->
  let saved := memory_output_archive_call host saving_registry [saved_item]
                 (make_output_archive []) in
  let loaded := memory_input_archive_call host insert loading_registry fuel [t] [destination]
                  (make_input_archive (m_output saved.2)) in
  saved.1 = returned /\ loaded.1 = (returned, [v]) /\ m_input_vector loaded.2 = [].
Proof.
  intros Ho Hreads.
  apply memory_round_trip with (bytes := (encoding host saving_registry saved_item).2).
  - apply written_single, Ho.
  - apply reads_single, Hreads.
Qed.

(** X20.  What [as_polymorphic(object)] saves is what an owning pointer
    to the object saves: loading it into an owning pointer to a base of
    the object's class gives a pointer to an object equal to [object], as
    in the last example of the documentation. *)
Theorem wrapper_loads_as_pointer host insert loading_registry saving_registry fuel
    kind base chain subobjects :
  in_contract insert loading_registry saving_registry
    (PolymorphicPointer kind (Some (chain, subobjects))) (polymorphic_pointer kind base) ->
  (polymorphic_depth (PolymorphicWrapper (chain, subobjects)) <= fuel)%nat ->
  let saved := memory_output_archive_call host saving_registry
                 [PolymorphicWrapper (chain, subobjects)] (make_output_archive []) in
  let loaded := memory_input_archive_call host insert loading_registry fuel
                  [polymorphic_pointer kind base] [PolymorphicPointer kind None]
                  (make_input_archive (m_output saved.2)) in
  saved.1 = returned
  /\ loaded.1 = (returned, [PolymorphicPointer kind (Some (chain, subobjects))])
  /\ m_input_vector loaded.2 = [].
Proof.
  intros Hcontract Hfuel.
  destruct (round_trip_item host insert loading_registry saving_registry
              (PolymorphicPointer kind (Some (chain, subobjects)))
              (polymorphic_pointer kind base) fuel Hcontract Hfuel) as [Ho Hreads].
  apply item_round_trip; [exact Ho | exact Hreads].
Qed.

Lemma wrapper_loads_as_pointer_witness :
  let saved := memory_output_archive_call little_endian documented_registries.2
                 [PolymorphicWrapper (a_student.1, a_student.2)] (make_output_archive []) in
  let loaded := memory_input_archive_call little_endian insert_back documented_registries.1 1
                  [polymorphic_pointer unique_ptr "person"] [PolymorphicPointer unique_ptr None]
                  (make_input_archive (m_output saved.2)) in
  (in_contract insert_back documented_registries.1 documented_registries.2
     (PolymorphicPointer unique_ptr (Some (a_student.1, a_student.2)))
     (polymorphic_pointer unique_ptr "person")
   /\ (polymorphic_depth (PolymorphicWrapper (a_student.1, a_student.2)) <= 1)%nat)
  /\ saved.1 = returned
  /\ loaded.1 = (returned, [PolymorphicPointer unique_ptr (Some (a_student.1, a_student.2))])
  /\ m_input_vector loaded.2 = [].
Proof.
  intros saved loaded.
  assert (registered documented_registries.1 documented_registries.2
            student (make_id "v1::student")) as Hregistered.
  { assert (make_id "v1::student" = 9401524388301464870) as -> by (vm_compute; reflexivity).
    split; [lia|]. repeat split; vm_compute; reflexivity. }
  assert (in_contract insert_back documented_registries.1 documented_registries.2
            (PolymorphicPointer unique_ptr (Some (a_student.1, a_student.2)))
            (polymorphic_pointer unique_ptr "person")) as Hcontract.
  { cbn [in_contract a_student fst snd].
    split; [reflexivity|].
    split; [apply (bool_decide_unpack _); vm_compute; exact I|].
    split; [apply (bool_decide_unpack _); vm_compute; exact I|].
    split; [discriminate|]. split; [reflexivity|].
    exists student, (make_id "v1::student"). split; [exact Hregistered|].
    split; [reflexivity|].
    cbn [class_subobjects student all_items2 in_contract].
    repeat split; vm_compute; reflexivity || lia. }
  assert (polymorphic_depth (PolymorphicWrapper (a_student.1, a_student.2)) <= 1)%nat
    as Hfuel by (vm_compute; lia).
  split; [auto|].
  exact (wrapper_loads_as_pointer little_endian insert_back documented_registries.1
           documented_registries.2 1 unique_ptr "person" a_student.1 a_student.2
           Hcontract Hfuel).
Defined.

(** X21.  An owning pointer adds nothing to the stream: a value saved by
    itself loads into an owning pointer to its type, a value saved through
    an owning pointer loads into an object of its type, and what a
    [unique_ptr] saves loads into a [shared_ptr] and the other way
    round. *)
Theorem pointer_is_transparent host insert loading_registry saving_registry fuel v t
    kind kind' :
  in_contract insert loading_registry saving_registry v t ->
  (polymorphic_depth v <= fuel)%nat ->
  let save := fun item =>
    memory_output_archive_call host saving_registry [item] (make_output_archive []) in
  let load := fun t destination (saved : outcome * lazy_vector_memory_output_archive) =>
    memory_input_archive_call host insert loading_registry fuel [t] [destination]
      (make_input_archive (m_output saved.2)) in
  ((save v).1 = returned
   /\ (load (pointer kind t) (Pointer kind None) (save v)).1
      = (returned, [Pointer kind (Some v)]))
  /\ ((save (Pointer kind (Some v))).1 = returned
      /\ (load t (default_value t) (save (Pointer kind (Some v)))).1 = (returned, [v]))
  /\ ((save (Pointer kind (Some v))).1 = returned
      /\ (load (pointer kind' t) (Pointer kind' None) (save (Pointer kind (Some v)))).1
         = (returned, [Pointer kind' (Some v)])).
Proof.
  intros Hcontract Hfuel save load.
  destruct (round_trip_item host insert loading_registry saving_registry v t fuel
              Hcontract Hfuel) as [Ho Hreads].
  assert (forall k,
            reads (serialize_item_loading host insert
                     (registry_serialize_loading host insert loading_registry fuel)
                     (pointer k t) (Pointer k None))
                  (encoding host saving_registry v).2 (Pointer k (Some v))) as Hpointer.
  { intros k.
    destruct (round_trip_item host insert loading_registry saving_registry
                (Pointer k (Some v)) (pointer k t) fuel) as [_ H].
    - simpl. auto.
    - exact Hfuel.
    - exact H. }
  unfold save, load. split; [|split].
  - destruct (item_round_trip host insert loading_registry saving_registry fuel
                v (pointer kind t) (Pointer kind None) (Pointer kind (Some v)) Ho
                (Hpointer kind)) as (H1 & H2 & _).
    auto.
  - destruct (item_round_trip host insert loading_registry saving_registry fuel
                (Pointer kind (Some v)) t (default_value t) v Ho Hreads) as (H1 & H2 & _).
    auto.
  - destruct (item_round_trip host insert loading_registry saving_registry fuel
                (Pointer kind (Some v)) (pointer kind' t) (Pointer kind' None)
                (Pointer kind' (Some v)) Ho (Hpointer kind')) as (H1 & H2 & _).
    auto.
Qed.

Lemma pointer_is_transparent_witness :
  let v := std_string "hello" in
  let save := fun item =>
    memory_output_archive_call little_endian empty_registry [item] (make_output_archive []) in
  let load := fun t destination (saved : outcome * lazy_vector_memory_output_archive) =>
    memory_input_archive_call little_endian insert_back empty_registry 0 [t] [destination]
      (make_input_archive (m_output saved.2)) in
  (in_contract insert_back empty_registry empty_registry v (contiguous 1)
   /\ (polymorphic_depth v <= 0)%nat)
  /\ (load (pointer unique_ptr (contiguous 1)) (Pointer unique_ptr None) (save v)).1
     = (returned, [Pointer unique_ptr (Some v)])
  /\ (load (contiguous 1) (default_value (contiguous 1))
        (save (Pointer unique_ptr (Some v)))).1 = (returned, [v])
  /\ (load (pointer shared_ptr (contiguous 1)) (Pointer shared_ptr None)
        (save (Pointer unique_ptr (Some v)))).1
     = (returned, [Pointer shared_ptr (Some v)]).
Proof.
  intros v save load.
  assert (in_contract insert_back empty_registry empty_registry v (contiguous 1)) as Hcontract
    by (repeat split; vm_compute; reflexivity || lia).
  assert (polymorphic_depth v <= 0)%nat as Hfuel by (vm_compute; lia).
  split; [auto|].
  destruct (pointer_is_transparent little_endian insert_back empty_registry empty_registry 0
              v (contiguous 1) unique_ptr shared_ptr Hcontract Hfuel)
    as ((_ & H1) & (_ & H2) & (_ & H3)).
  split; [exact H1|]. split; [exact H2 | exact H3].
Defined.

(** X22.  Sequence containers and associative containers share one
    format, the count and then the items: what an associative container
    saves loads into a sequence container as its items in iteration order,
    and what a sequence container saves loads into an associative
    container as the insertion of its items, one by one, into what the
    container holds. *)
Theorem containers_share_format host insert loading_registry saving_registry fuel t
    items existing :
  Z.of_nat (length items) < 2 ^ 32 ->
  all_items (fun item => in_contract insert loading_registry saving_registry item t) items ->
  (depth_items items <= fuel)%nat ->
  let save := fun item =>
    memory_output_archive_call host saving_registry [item] (make_output_archive []) in
  let load := fun t destination (saved : outcome * lazy_vector_memory_output_archive) =>
    memory_input_archive_call host insert loading_registry fuel [t] [destination]
      (make_input_archive (m_output saved.2)) in
  ((save (Associative items)).1 = returned
   /\ (load (resizable t) (Resizable []) (save (Associative items))).1
      = (returned, [Resizable items]))
  /\ ((save (Resizable items)).1 = returned
      /\ (load (associative t) (Associative existing) (save (Resizable items))).1
         = (returned,
            [Associative
               (foldl (fun container item => insert item container) existing items)])).
Proof.
  intros Hlen Hts Hfuel save load.
  assert (encoding host saving_registry (Associative items)
          = encoding host saving_registry (Resizable items)) as Hsame.
  { rewrite (proj1 (encoding_sequence host saving_registry items)).
    apply (proj2 (encoding_sequence host saving_registry items)). }
  destruct (round_trip_item host insert loading_registry saving_registry
              (Resizable items) (resizable t) fuel) as [Ho Hreads].
  { simpl. auto. }
  { exact Hfuel. }
  destruct (associative_reads host insert loading_registry saving_registry fuel t existing
              items Hlen Hts Hfuel) as [_ Hreads'].
  destruct (size_type_length items Hlen) as [Hsize _].
  unfold save, load. split.
  - destruct (item_round_trip host insert loading_registry saving_registry fuel
                (Associative items) (resizable t) (Resizable []) (Resizable items))
      as (H1 & H2 & _); [rewrite Hsame; exact Ho | rewrite Hsame; exact Hreads | auto].
  - destruct (item_round_trip host insert loading_registry saving_registry fuel
                (Resizable items) (associative t) (Associative existing)
                (Associative (foldl (fun container item => insert item container)
                                existing items)))
      as (H1 & H2 & _); [exact Ho | | auto].
    rewrite (proj1 (encoding_sequence host saving_registry items)), Hsize. exact Hreads'.
Qed.

Lemma containers_share_format_witness :
  let items := [Aggregate [int32 1; std_string "a"]; Aggregate [int32 2; std_string "b"]] in
  let t := aggregate [fundamental 4; contiguous 1] in
  let save := fun item =>
    memory_output_archive_call little_endian empty_registry [item] (make_output_archive []) in
  let load := fun t destination (saved : outcome * lazy_vector_memory_output_archive) =>
    memory_input_archive_call little_endian insert_back empty_registry 0 [t] [destination]
      (make_input_archive (m_output saved.2)) in
  (Z.of_nat (length items) < 2 ^ 32
   /\ all_items (fun item => in_contract insert_back empty_registry empty_registry item t) items
   /\ (depth_items items <= 0)%nat)
  /\ (load (resizable t) (Resizable []) (save (Associative items))).1
     = (returned, [Resizable items])
  /\ (load (associative t) (Associative []) (save (Resizable items))).1
     = (returned, [Associative items]).
Proof.
  intros items t save load.
  assert (Z.of_nat (length items) < 2 ^ 32) as Hlen by (simpl; lia).
  assert (all_items (fun item => in_contract insert_back empty_registry empty_registry item t)
            items) as Hts by (repeat split; vm_compute; reflexivity || lia).
  assert (depth_items items <= 0)%nat as Hfuel by (vm_compute; lia).
  split; [auto|].
  destruct (containers_share_format little_endian insert_back empty_registry empty_registry 0
              t items [] Hlen Hts Hfuel) as ((_ & H1) & (_ & H2)).
  split; [exact H1 | exact H2].
Defined.

(** ** Binary data and the size in bytes *)

(** X23.  A contiguous container of fundamental items with fewer than
    2^32 items is saved as its count and then the first
    [count * sizeof(Item)] modulo 2^32 bytes of its data: the size in
    bytes goes through [binary::size_in_bytes], a [size_type].  So a
    container of 2^32 bytes or more is saved, without an error, with fewer
    bytes than it holds. *)
Theorem contiguous_payload_wraps host r item_size (data : list byte) count :
  Z.of_nat (length data) = count * Z.of_nat item_size ->
  0 < count < 2 ^ 32 ->
  (0 < item_size)%nat ->
  encoding host r (Contiguous item_size data)
  = (returned,
     object_representation host sizeof_size_type count
       ++ take (Z.to_nat ((count * Z.of_nat item_size) mod 2 ^ 32)) data)
  /\ (2 ^ 32 <= count * Z.of_nat item_size ->
      (length (encoding host r (Contiguous item_size data)).2 < 4 + length data)%nat).
Proof.
  intros Hlen Hcount Hsize.
  assert (Z.of_nat (length data / item_size) = count) as Hdiv.
  { rewrite Nat2Z.inj_div, Hlen. apply Z.div_mul. lia. }
  assert (encoding host r (Contiguous item_size data)
          = (returned,
             object_representation host sizeof_size_type count
               ++ take (Z.to_nat ((count * Z.of_nat item_size) mod 2 ^ 32)) data)) as Henc.
  { rewrite encoding_contiguous. cbn zeta. rewrite Hdiv.
    rewrite (size_type_small count) by lia.
    destruct (decide (count = 0)); [lia|]. reflexivity. }
  split; [exact Henc|].
  intros Hbig. rewrite Henc. cbn [snd].
  rewrite length_app, length_object_representation, length_take.
  pose proof (Z.mod_pos_bound (count * Z.of_nat item_size) (2 ^ 32) ltac:(lia)).
  change sizeof_size_type with 4%nat. lia.
Qed.

Lemma contiguous_payload_wraps_witness :
  let data := replicate (Z.to_nat (2 ^ 32)) x00 in
  (Z.of_nat (length data) = 2 ^ 30 * Z.of_nat 4 /\ 0 < 2 ^ 30 < 2 ^ 32 /\ (0 < 4)%nat
   /\ 2 ^ 32 <= 2 ^ 30 * Z.of_nat 4)
  /\ encoding little_endian empty_registry (Contiguous 4 data)
     = (returned,
        object_representation little_endian sizeof_size_type (2 ^ 30)
          ++ take (Z.to_nat ((2 ^ 30 * Z.of_nat 4) mod 2 ^ 32)) data)
  /\ (length (encoding little_endian empty_registry (Contiguous 4 data)).2
      < 4 + length data)%nat.
Proof.
  intros data.
  assert (Z.of_nat (length data) = 2 ^ 30 * Z.of_nat 4) as Hlen.
  { unfold data. rewrite length_replicate.
    rewrite Z2Nat.id by (apply Z.pow_nonneg; lia). reflexivity. }
  assert (0 < 2 ^ 30 < 2 ^ 32) as Hcount by (split; reflexivity).
  assert (0 < 4)%nat as Hsize by (repeat constructor).
  assert (2 ^ 32 <= 2 ^ 30 * Z.of_nat 4) as Hbig by discriminate.
  pose proof (contiguous_payload_wraps little_endian empty_registry 4 data (2 ^ 30)
                Hlen Hcount Hsize) as H.
  exact (conj (conj Hlen (conj Hcount (conj Hsize Hbig))) (conj (proj1 H) (proj2 H Hbig))).
Defined.

(** X24.  Binary data: [as_binary(items, count)] is transferred as its
    bytes, with no count before them.  When the bytes are fewer than 2^32
    the save writes all of them, and a load into a [binary] of the same
    count over memory of the same size reads them back. *)
Theorem binary_round_trip (items memory : list byte) sizeof count
    (Archive : Type) (serialize : list byte -> Archive -> Archive) (archive : Archive) :
  Z.of_nat (length items) = count * Z.of_nat sizeof ->
  0 <= count -> count * Z.of_nat sizeof < 2 ^ 32 ->
  length memory = length items ->
  serialize_binary_saving serialize (as_binary items sizeof count) archive
  = (returned, serialize items archive)
  /\ reads (serialize_binary_loading (as_binary memory sizeof count)) items
           (as_binary items sizeof count).
Proof.
  intros Hlen Hcount Hbytes Hmemory.
  assert (count < 2 ^ 32 \/ sizeof = 0%nat) as Hsmall by nia.
  assert (size_type (size_type count * Z.of_nat sizeof) = Z.of_nat (length items)) as Hsize.
  { destruct Hsmall as [Hsmall| ->].
    - rewrite (size_type_small count) by lia. rewrite size_type_small by lia. lia.
    - rewrite Z.mul_0_r in *. rewrite Hlen. reflexivity. }
  split.
  - unfold serialize_binary_saving, size_in_bytes, as_binary, save_bytes.
    cbn [m_items m_count sizeof_Item].
    rewrite Hsize, Nat2Z.id, firstn_all. reflexivity.
  - intros a Hnext. unfold serialize_binary_loading, size_in_bytes, as_binary.
    cbn [m_items m_count sizeof_Item].
    rewrite Hsize, Nat2Z.id.
    rewrite (input_serialize_reads items memory) by (assumption || lia).
    reflexivity.
Qed.

Lemma binary_round_trip_witness :
  let items := [x01; x02; x03; x04; x05; x06] in
  let memory := replicate 6 x00 in
  let archive := {| m_input := [xff; x01; x02; x03; x04; x05; x06; x07]; m_offset := 1 |} in
  (Z.of_nat (length items) = 3 * Z.of_nat 2 /\ 0 <= 3 /\ 3 * Z.of_nat 2 < 2 ^ 32
   /\ length memory = length items /\ holds_next archive items)
  /\ serialize_binary_saving stream_serialize (as_binary items 2 3) [xff]
     = (returned, stream_serialize items [xff])
  /\ serialize_binary_loading (as_binary memory 2 3) archive
     = (returned, as_binary items 2 3, advance (length items) archive).
Proof.
  intros items memory archive.
  assert (Z.of_nat (length items) = 3 * Z.of_nat 2) as Hlen by reflexivity.
  assert (0 <= 3) as Hcount by lia.
  assert (3 * Z.of_nat 2 < 2 ^ 32) as Hbytes by (simpl; lia).
  assert (length memory = length items) as Hmemory by reflexivity.
  assert (holds_next archive items) as Hnext
    by (split; [simpl; lia | exists [x07]; reflexivity]).
  split; [auto 6|].
  destruct (binary_round_trip items memory 2 3 (list byte) stream_serialize [xff]
              Hlen Hcount Hbytes Hmemory) as [Hsave Hload].
  split; [exact Hsave | exact (Hload archive Hnext)].
Defined.

(** ** Compile-time conjunction *)

(** X25.  [detail::all_of] is true when every condition is, and so for
    the empty pack; a false condition anywhere makes it false. *)
Theorem all_of_is_conjunction bConditions :
  all_of bConditions = forallb (fun bCondition => bCondition) bConditions.
Proof.
  induction bConditions as [|b bConditions IH]; [reflexivity|].
  destruct b; [|reflexivity].
  destruct bConditions as [|b' bConditions]; [reflexivity|].
  exact IH.
Qed.

(** ** Hosts of different byte orders *)

Lemma swap_byte_order_64_range x : 0 <= swap_byte_order_64 x < 2 ^ 64.
Proof. unfold swap_byte_order_64, uint. apply Z.mod_pos_bound. lia. Qed.

(** X26.  The archives transfer object representations as they are, so
    the format is that of the host.  On a host of the other byte order the
    count of a container written as [n] is read as [swap_byte_order(n)],
    and the id of a polymorphic class written as [id] is read as
    [swap_byte_order(id)]. *)
Theorem other_byte_order_reads_swapped host host' :
  host <> host' ->
  (forall n,
      reads (load_unsigned host' sizeof_size_type)
            (object_representation host sizeof_size_type n) (swap_byte_order_32 n))
  /\ (forall id,
        reads (load_unsigned host' sizeof_id_type)
              (object_representation host sizeof_id_type id) (swap_byte_order_64 id)).
Proof.
  intros Hne.
  assert (forall n, object_representation host sizeof_size_type n
                    = object_representation host' sizeof_size_type (swap_byte_order_32 n))
    as H32.
  { intros n.
    destruct (object_representation_swapped swap_byte_order_32 4 n) as [H1 H2]; [lia| |].
    { intros y i Hi. apply swap_byte_order_32_swapped, Hi. }
    destruct host, host'; try congruence; symmetry; assumption. }
  assert (forall id, object_representation host sizeof_id_type id
                     = object_representation host' sizeof_id_type (swap_byte_order_64 id))
    as H64.
  { intros id.
    destruct (object_representation_swapped swap_byte_order_64 8 id) as [H1 H2]; [lia| |].
    { intros y i Hi. apply swap_byte_order_64_testbit, Hi. }
    destruct host, host'; try congruence; symmetry; assumption. }
  split.
  - intros n. rewrite H32. apply load_unsigned_reads.
    change (2 ^ (Z.of_nat sizeof_size_type * 8)) with (2 ^ 32).
    apply swap_byte_order_32_range.
  - intros id. rewrite H64. apply load_unsigned_reads.
    change (2 ^ (Z.of_nat sizeof_id_type * 8)) with (2 ^ 64).
    apply swap_byte_order_64_range.
Qed.

Lemma other_byte_order_reads_swapped_witness :
  let count := make_view_archive [x01; x00; x00; x00; x2a] in
  let id := make_view_archive
              (object_representation little_endian sizeof_id_type (make_id "v1::person")) in
  (little_endian <> big_endian
   /\ holds_next count (object_representation little_endian sizeof_size_type 1)
   /\ holds_next id
        (object_representation little_endian sizeof_id_type (make_id "v1::person")))
  /\ load_unsigned big_endian sizeof_size_type count = (returned, 16777216, advance 4 count)
  /\ load_unsigned big_endian sizeof_id_type id
     = (returned, swap_byte_order_64 (make_id "v1::person"), advance 8 id).
Proof.
  intros count id.
  assert (little_endian <> big_endian) as Hne by discriminate.
  assert (holds_next count (object_representation little_endian sizeof_size_type 1)) as Hcount
    by (split; [simpl; lia | exists [x2a]; reflexivity]).
  assert (holds_next id
            (object_representation little_endian sizeof_id_type (make_id "v1::person")))
    as Hid by (split; [simpl; lia | exists []; vm_compute; reflexivity]).
  split; [auto|].
  destruct (other_byte_order_reads_swapped little_endian big_endian Hne) as [H32 H64].
  split; [exact (H32 1 count Hcount) | exact (H64 (make_id "v1::person") id Hid)].
Defined.
